(** * Sparse layered network simulator (src/app/page.tsx)

    A shallow embedding of the topology builder (the first [useEffect]), of
    the drawing effect (the second [useEffect]), of the forward pass
    ([processInput]) and of the sparsity slider of the [SparseLLM] component,
    followed by their properties.

    Conventions of the embedding.
    - A JavaScript number is an exact rational ([Q]); rounding of IEEE doubles
      is not modelled.  [Math.max], [Math.min], [Math.ceil] and [Math.round]
      are the rational functions of the same name.
    - A JavaScript string is the list of its UTF-16 code units.
    - [Math.random()] reads the next element of an explicit random source.
    - An array of objects is a list; an object reference held in a second
      array ([filter] results, the sorted array) is the position of the object
      in the array that owns it, and a field assignment through the reference
      rewrites the owner at that position.
    - The 2D context of the canvas is the sequence of the calls and
      assignments made on it, in order; a colour built by a template literal
      keeps its numbers as numbers.
    - [await] splits [processInput] into the part that runs when it is called
      and the parts that run when a timer fires; the component's React state
      is read and written at those points only. *)

From Stdlib Require Import QArith Qabs Qround Qminmax Sorted Ascii.
From stdpp Require Import base list strings pretty numbers.

(** ** JavaScript values *)

(** A string, as the sequence of its UTF-16 code units. *)
Definition jsstring := list N.

Definition Math_max (a b : Q) : Q := Qmax a b.
Definition Math_min (a b : Q) : Q := Qmin a b.
Definition Math_ceil (a : Q) : Z := Qceiling a.
Definition Math_round (a : Q) : Z := Qfloor (a + (1#2)).

(** [a > b] on numbers. *)
Definition gt (a b : Q) : bool := negb (Qle_bool a b).

Definition of_nat (n : nat) : Q := inject_Z (Z.of_nat n).
Definition of_N (n : N) : Q := inject_Z (Z.of_N n).

(** ** The random source behind [Math.random] *)

Record RandomSource := { draws : nat -> Q; cursor : nat }.

Definition Math_random (g : RandomSource) : Q * RandomSource :=
  (draws g (cursor g), {| draws := draws g; cursor := S (cursor g) |}).

(** Every draw lies in [[0, 1)], as [Math.random] promises. *)
Definition unit_interval (g : RandomSource) : Prop :=
  forall n, (0 <= draws g n)%Q /\ (draws g n < 1)%Q.

(** ** Array helpers *)

(** [Array.prototype.sort(compareFn)]: a stable insertion sort; [compareFn]
    may consult and advance a state (the random source in the builder, nothing
    in the forward pass).  For a consistent comparator the result is the one
    the language prescribes; for the random comparator of the builder the
    language leaves the order to the engine, and the properties below rely on
    the result being a rearrangement of the array only. *)
Fixpoint insert_sorted {A St : Type} (compareFn : A -> A -> St -> Q * St)
    (a : A) (sorted : list A) (s : St) : list A * St :=
  match sorted with
  | [] => ([a], s)
  | b :: rest =>
      let '(c, s1) := compareFn a b s in
      if Qle_bool c 0 then (a :: b :: rest, s1)
      else let '(r, s2) := insert_sorted compareFn a rest s1 in (b :: r, s2)
  end.

Fixpoint Array_sort {A St : Type} (compareFn : A -> A -> St -> Q * St)
    (l : list A) (s : St) : list A * St :=
  match l with
  | [] => ([], s)
  | a :: rest =>
      let '(sorted, s1) := Array_sort compareFn rest s in
      insert_sorted compareFn a sorted s1
  end.

(** [l.forEach((a, idx) => body)], the effect of [body] on a state. *)
Fixpoint forEach_from {A St : Type} (body : A -> nat -> St -> St)
    (idx : nat) (l : list A) (s : St) : St :=
  match l with
  | [] => s
  | a :: rest => forEach_from body (S idx) rest (body a idx s)
  end.

Definition forEach {A St : Type} (body : A -> nat -> St -> St) (l : list A) (s : St) : St :=
  forEach_from body 0 l s.

(** [l.filter(p)] as an array of references into [l]: the positions of the
    elements that satisfy [p], in array order. *)
Definition refs_where {A : Type} (p : A -> bool) (l : list A) : list nat :=
  List.filter (fun i => match l !! i with Some a => p a | None => false end)
              (seq 0 (length l)).

(** ** Data model *)

Module Neuron.
Record t := mk {
  id : string;
  x : Q;
  y : Q;
  active : bool;
  activation : Q;
  layer : nat
}.

Definition set_active (b : bool) (n : t) : t :=
  mk (id n) (x n) (y n) b (activation n) (layer n).

Definition set_activation (a : Q) (n : t) : t :=
  mk (id n) (x n) (y n) (active n) a (layer n).
End Neuron.

Module Connection.
Record t := mk {
  from : string;
  to : string;
  weight : Q;
  active : bool
}.

Definition set_active (b : bool) (c : t) : t :=
  mk (from c) (to c) (weight c) b.
End Connection.

(** ** Topology builder *)

Definition layers : list nat := [16; 64; 128; 128; 64; 16].
Definition width : Q := 1000.
Definition height : Q := 600.

(** The template literal [`L${layerIdx}-N${i}`]. *)
Definition neuron_id (layerIdx i : nat) : string :=
  "L" +:+ pretty layerIdx +:+ "-N" +:+ pretty i.

Definition new_neuron (layerSpacing : Q) (count layerIdx i : nat) : Neuron.t :=
  let verticalSpacing := (height / (of_nat count + 1))%Q in
  {| Neuron.id := neuron_id layerIdx i;
     Neuron.x := (layerSpacing * (of_nat layerIdx + 1))%Q;
     Neuron.y := (verticalSpacing * (of_nat i + 1))%Q;
     Neuron.active := false;
     Neuron.activation := 0;
     Neuron.layer := layerIdx |}.

Fixpoint create_neurons (layerSpacing : Q) (layerIdx : nat) (ls : list nat)
    : list Neuron.t :=
  match ls with
  | [] => []
  | count :: rest =>
      map (new_neuron layerSpacing count layerIdx) (seq 0 count)
      ++ create_neurons layerSpacing (S layerIdx) rest
  end.

(** The comparator [() => Math.random() - 0.5]. *)
Definition random_order (a b : Neuron.t) (g : RandomSource) : Q * RandomSource :=
  let '(r, g1) := Math_random g in ((r - (1#2))%Q, g1).

Definition new_connection (from to : Neuron.t) (g : RandomSource)
    : Connection.t * RandomSource :=
  let '(r, g1) := Math_random g in
  ({| Connection.from := Neuron.id from;
      Connection.to := Neuron.id to;
      Connection.weight := (r * 2 - 1)%Q;
      Connection.active := false |}, g1).

Fixpoint connect_targets (from : Neuron.t) (targets : list Neuron.t)
    (g : RandomSource) : list Connection.t * RandomSource :=
  match targets with
  | [] => ([], g)
  | to :: rest =>
      let '(c, g1) := new_connection from to g in
      let '(cs, g2) := connect_targets from rest g1 in
      (c :: cs, g2)
  end.

Definition connect_neuron (nextLayer : list Neuron.t) (from : Neuron.t)
    (g : RandomSource) : list Connection.t * RandomSource :=
  let k := Nat.min 8 (length nextLayer) in
  let '(shuffled, g1) := Array_sort random_order nextLayer g in
  connect_targets from (take k shuffled) g1.

Fixpoint connect_layer (nextLayer currentLayer : list Neuron.t)
    (g : RandomSource) : list Connection.t * RandomSource :=
  match currentLayer with
  | [] => ([], g)
  | from :: rest =>
      let '(cs1, g1) := connect_neuron nextLayer from g in
      let '(cs2, g2) := connect_layer nextLayer rest g1 in
      (cs1 ++ cs2, g2)
  end.

Definition in_layer (layerIdx : nat) (n : Neuron.t) : bool :=
  Neuron.layer n =? layerIdx.

Fixpoint create_connections (neuronList : list Neuron.t) (nlayers layerIdx : nat)
    (ls : list nat) (g : RandomSource) : list Connection.t * RandomSource :=
  match ls with
  | [] => ([], g)
  | _ :: rest =>
      if layerIdx <? nlayers - 1 then
        let currentLayer := List.filter (in_layer layerIdx) neuronList in
        let nextLayer := List.filter (in_layer (layerIdx + 1)) neuronList in
        let '(cs1, g1) := connect_layer nextLayer currentLayer g in
        let '(cs2, g2) := create_connections neuronList nlayers (S layerIdx) rest g1 in
        (cs1 ++ cs2, g2)
      else create_connections neuronList nlayers (S layerIdx) rest g
  end.

(** The body of the first effect, for a list [ls] of layer sizes (the
    component runs it once, on [layers]). *)
Definition build (ls : list nat) (g : RandomSource)
    : list Neuron.t * list Connection.t * RandomSource :=
  let layerSpacing := (width / (of_nat (length ls) + 1))%Q in
  let neuronList := create_neurons layerSpacing 0 ls in
  let '(connectionList, g1) := create_connections neuronList (length ls) 0 ls g in
  (neuronList, connectionList, g1).

(** ** Forward pass: one layer *)

(** [features[i]]; the index is in range whenever [features] is not empty,
    which is the only case the run reaches (out of range the source reads
    [undefined], and the division gives [NaN], which has no rational). *)
Definition feature_at (features : list N) (i : nat) : N :=
  default 0%N (features !! i).

(** Body of the input layer's [forEach]. *)
Definition input_body (features : list N) (sparsityLevel : Q)
    (neuron idx : nat) (st : list Neuron.t * RandomSource)
    : list Neuron.t * RandomSource :=
  let '(updatedNeurons, g) := st in
  match updatedNeurons !! neuron with
  | None => st
  | Some n =>
      let featureVal := (of_N (feature_at features (idx mod length features)) / 128)%Q in
      let n1 := Neuron.set_activation featureVal n in
      let '(r, g1) := Math_random g in
      let n2 := Neuron.set_active (gt r sparsityLevel) n1 in
      if Neuron.active n2 then
        let '(r', g2) := Math_random g1 in
        let n3 := Neuron.set_activation
                    (Math_min 1 (featureVal * (1 + r' * (1#2))))%Q n2 in
        (<[neuron := n3]> updatedNeurons, g2)
      else (<[neuron := n2]> updatedNeurons, g1)
  end.

(** [updatedNeurons.find(n => n.id === id)]. *)
Definition find_neuron (updatedNeurons : list Neuron.t) (id : string)
    : option Neuron.t :=
  List.find (fun n => String.eqb (Neuron.id n) id) updatedNeurons.

(** Body of [incomingConns.forEach]: the state is the running [sum] and the
    connection array. *)
Definition incoming_body (updatedNeurons : list Neuron.t) (conn idx : nat)
    (st : Q * list Connection.t) : Q * list Connection.t :=
  let '(sum, updatedConnections) := st in
  match updatedConnections !! conn with
  | None => st
  | Some c =>
      match find_neuron updatedNeurons (Connection.from c) with
      | Some fromNeuron =>
          if Neuron.active fromNeuron then
            ((sum + Neuron.activation fromNeuron * Connection.weight c)%Q,
             <[conn := Connection.set_active true c]> updatedConnections)
          else st
      | None => st
      end
  end.

(** Body of the first [forEach] of a hidden or output layer. *)
Definition sum_body (neuron idx : nat)
    (st : list Neuron.t * list Connection.t)
    : list Neuron.t * list Connection.t :=
  let '(updatedNeurons, updatedConnections) := st in
  match updatedNeurons !! neuron with
  | None => st
  | Some n =>
      let incomingConns :=
        refs_where (fun c => String.eqb (Connection.to c) (Neuron.id n))
                   updatedConnections in
      let '(sum, updatedConnections1) :=
        forEach (incoming_body updatedNeurons) incomingConns (0%Q, updatedConnections) in
      let activation := Math_max 0 sum in
      (<[neuron := Neuron.set_activation activation n]> updatedNeurons,
       updatedConnections1)
  end.

Definition activation_of (updatedNeurons : list Neuron.t) (neuron : nat) : Q :=
  match updatedNeurons !! neuron with
  | Some n => Neuron.activation n
  | None => 0
  end.

(** The comparator [(a, b) => b.activation - a.activation]. *)
Definition by_activation (updatedNeurons : list Neuron.t) (a b : nat) (u : unit)
    : Q * unit :=
  ((activation_of updatedNeurons b - activation_of updatedNeurons a)%Q, u).

(** Body of the [forEach] that applies the top-k gate. *)
Definition gate_body (k : Z) (neuron idx : nat) (updatedNeurons : list Neuron.t)
    : list Neuron.t :=
  match updatedNeurons !! neuron with
  | None => updatedNeurons
  | Some n =>
      if (Z.of_nat idx <? k)%Z && gt (Neuron.activation n) (1#10) then
        let n1 := Neuron.set_active true n in
        <[neuron := Neuron.set_activation (Math_min 1 (Neuron.activation n1)) n1]>
          updatedNeurons
      else <[neuron := Neuron.set_active false n]> updatedNeurons
  end.

Definition currentLayerNeurons (updatedNeurons : list Neuron.t) (layerIdx : nat)
    : list nat :=
  refs_where (in_layer layerIdx) updatedNeurons.

(** The state after the first [forEach] of a layer above the input layer,
    whose units are [current]: every unit of the layer holds its rectified
    weighted sum, no gate applied yet. *)
Definition weighted_sums (current : list nat)
    (st : list Neuron.t * list Connection.t)
    : list Neuron.t * list Connection.t :=
  forEach sum_body current st.

Definition top_k (sparsityLevel : Q) (size : nat) : Z :=
  Math_ceil (of_nat size * (1 - sparsityLevel)).

(** The layer's units by decreasing activation, as the [sort] leaves them. *)
Definition ranking (updatedNeurons : list Neuron.t) (current : list nat)
    : list nat :=
  fst (Array_sort (by_activation updatedNeurons) current tt).

Definition top_k_gate (sparsityLevel : Q) (current : list nat)
    (updatedNeurons : list Neuron.t) : list Neuron.t :=
  let k := top_k sparsityLevel (length current) in
  forEach (gate_body k) (ranking updatedNeurons current) updatedNeurons.

(** One iteration of the [for] loop, up to the two [set...] calls. *)
Definition layer_step (features : list N) (sparsityLevel : Q) (layerIdx : nat)
    (st : list Neuron.t * list Connection.t * RandomSource)
    : list Neuron.t * list Connection.t * RandomSource :=
  let '(updatedNeurons, updatedConnections, g) := st in
  let current := currentLayerNeurons updatedNeurons layerIdx in
  if layerIdx =? 0 then
    let '(ns, g1) :=
      forEach (input_body features sparsityLevel) current (updatedNeurons, g) in
    (ns, updatedConnections, g1)
  else
    let '(ns1, cs1) := weighted_sums current (updatedNeurons, updatedConnections) in
    (top_k_gate sparsityLevel current ns1, cs1, g).

(** ** The component and its run *)

Inductive Phase :=
  | Reset
  | Layer (layerIdx : nat).

(** One pair of [setNeurons] / [setConnections] calls, with the point of
    [processInput] that made it. *)
Record Published := {
  phase : Phase;
  shown_neurons : list Neuron.t;
  shown_connections : list Connection.t
}.

Record Stats := { stat_active : nat; stat_total : nat; stat_sparsity : Z }.

(** A suspended [processInput]: its locals, and the layer the loop is at. *)
Record Task := {
  features : list N;
  task_sparsity : Q;
  updatedNeurons : list Neuron.t;
  updatedConnections : list Connection.t;
  layerIdx : nat
}.

(** The React state of the component, the call of [processInput] that waits
    on a timer (if any), and the random source. *)
Record Component := {
  neurons : list Neuron.t;
  connections : list Connection.t;
  sparsityLevel : Q;
  isProcessing : bool;
  stats : Stats;
  pending : option Task;
  random : RandomSource
}.

Definition reset_neuron (n : Neuron.t) : Neuron.t :=
  Neuron.set_activation 0 (Neuron.set_active false n).

Definition is_empty (text : jsstring) : bool :=
  match text with [] => true | _ => false end.

(** [s.charCodeAt(i)] ([NaN] out of range, which the tokenizer never asks). *)
Definition charCodeAt (s : jsstring) (i : nat) : N := default 0%N (s !! i).

(** [s.split('')]: one string per code unit. *)
Definition split_chars (s : jsstring) : list jsstring := map (fun u => [u]) s.

Definition final_stats (ns : list Neuron.t) : Stats :=
  let activeCount := length (List.filter Neuron.active ns) in
  let totalCount := length ns in
  let actualSparsity := (1 - of_nat activeCount / of_nat totalCount)%Q in
  {| stat_active := activeCount;
     stat_total := totalCount;
     stat_sparsity := Math_round (actualSparsity * 100) |}.

(** Code points of a string (surrogate pairs joined), the reading of
    "character" that the tokenizer is compared with. *)
Definition is_lead (u : N) : bool := ((0xD800 <=? u) && (u <=? 0xDBFF))%N.
Definition is_trail (u : N) : bool := ((0xDC00 <=? u) && (u <=? 0xDFFF))%N.

Fixpoint code_points (s : jsstring) : list N :=
  match s with
  | [] => []
  | u :: rest =>
      match rest with
      | v :: rest' =>
          if is_lead u && is_trail v
          then (0x10000 + (u - 0xD800) * 0x400 + (v - 0xDC00))%N :: code_points rest'
          else u :: code_points rest
      | [] => [u]
      end
  end.

Definition is_surrogate (u : N) : bool := is_lead u || is_trail u.

(** [String.prototype.toLowerCase] restricted to Basic Latin: [A]-[Z] are
    mapped to [a]-[z], every other code unit is kept.  It agrees with the
    built-in on every string whose other code units have no lowercase
    mapping (digits, punctuation, surrogate pairs of emoji, ...). *)
Definition latin_toLowerCase (s : jsstring) : jsstring :=
  map (fun u => if ((65 <=? u) && (u <=? 90))%N then (u + 32)%N else u) s.

Section Simulator.

(** [String.prototype.toLowerCase]; its case tables are the language's. *)
Variable toLowerCase : jsstring -> jsstring.

Definition tokenize (text : jsstring) : list N :=
  map (fun c => charCodeAt c 0) (split_chars (toLowerCase text)).

(** [processInput(text)] up to its first [await]. *)
Definition processInput (text : jsstring) (c : Component)
    : Component * list Published :=
  if is_empty text || isProcessing c then (c, [])
  else
    let features := tokenize text in
    let updatedNeurons := map reset_neuron (neurons c) in
    let updatedConnections := map (Connection.set_active false) (connections c) in
    ({| neurons := updatedNeurons;
        connections := updatedConnections;
        sparsityLevel := sparsityLevel c;
        isProcessing := true;
        stats := stats c;
        pending := Some {| features := features;
                           task_sparsity := sparsityLevel c;
                           updatedNeurons := updatedNeurons;
                           updatedConnections := updatedConnections;
                           layerIdx := 0 |};
        random := random c |},
     [ {| phase := Reset;
          shown_neurons := updatedNeurons;
          shown_connections := updatedConnections |} ]).

End Simulator.

(** The suspended call continues after a timer: one loop iteration while
    [layerIdx < 6], the statistics and [setIsProcessing(false)] after it. *)
Definition resume (c : Component) : Component * list Published :=
  match pending c with
  | None => (c, [])
  | Some t =>
      if layerIdx t <? 6 then
        let '(ns, cs, g) :=
          layer_step (features t) (task_sparsity t) (layerIdx t)
                     (updatedNeurons t, updatedConnections t, random c) in
        ({| neurons := ns;
            connections := cs;
            sparsityLevel := sparsityLevel c;
            isProcessing := isProcessing c;
            stats := stats c;
            pending := Some {| features := features t;
                               task_sparsity := task_sparsity t;
                               updatedNeurons := ns;
                               updatedConnections := cs;
                               layerIdx := S (layerIdx t) |};
            random := g |},
         [ {| phase := Layer (layerIdx t);
              shown_neurons := ns;
              shown_connections := cs |} ])
      else
        ({| neurons := neurons c;
            connections := connections c;
            sparsityLevel := sparsityLevel c;
            isProcessing := false;
            stats := final_stats (updatedNeurons t);
            pending := None;
            random := random c |}, [])
  end.

(** [n] timers fire in a row. *)
Fixpoint resumes (n : nat) (c : Component) : Component * list Published :=
  match n with
  | 0 => (c, [])
  | S n' =>
      let '(c1, out1) := resume c in
      let '(c2, out2) := resumes n' c1 in
      (c2, out1 ++ out2)
  end.

(** A whole run: the call, then the seven timers it waits on (one before
    the loop, one at the end of each of the six iterations). *)
Definition run (toLowerCase : jsstring -> jsstring) (text : jsstring)
    (c : Component) : Component * list Published :=
  let '(c1, out1) := processInput toLowerCase text c in
  let '(c2, out2) := resumes 7 c1 in
  (c2, out1 ++ out2).

(** The snapshots of a run: what the loop published, layer by layer. *)
Definition snapshots (out : list Published) : list Published :=
  List.filter (fun p => match phase p with Layer _ => true | Reset => false end) out.

(** ** The drawing effect *)

Definition Math_abs (a : Q) : Q := Qabs a.

(** A CSS colour: a literal such as ['#888'], or [rgba(r, g, b, a)] as the
    template literals and the constant strings of the effect write it. *)
Inductive Style :=
  | css (literal : string)
  | rgba (r g b : Z) (a : Q).

(** What the effect does to the 2D context.  [arc x y radius] is
    [ctx.arc(x, y, radius, 0, Math.PI * 2)], a full circle. *)
Inductive CanvasOp :=
  | set_fillStyle (style : Style)
  | fillRect (x y w h : Q)
  | beginPath
  | moveTo (x y : Q)
  | lineTo (x y : Q)
  | set_strokeStyle (style : Style)
  | set_lineWidth (w : Q)
  | stroke
  | arc (x y radius : Q)
  | set_shadowBlur (blur : Q)
  | set_shadowColor (style : Style)
  | fill
  | set_font (font : string)
  | fillText (text : string) (x y : Q).

(** The canvas element: its size, and whether [getContext('2d')] answers. *)
Record Canvas := {
  canvas_width : Q;
  canvas_height : Q;
  context2d : bool
}.

(** The [<canvas width={1000} height={600}>] of the page. *)
Definition page_canvas : Canvas :=
  {| canvas_width := 1000; canvas_height := 600; context2d := true |}.

(** Body of [connections.forEach]; the state is the context. *)
Definition draw_connection (neurons : list Neuron.t) (conn : Connection.t)
    (idx : nat) (ctx : list CanvasOp) : list CanvasOp :=
  match find_neuron neurons (Connection.from conn),
        find_neuron neurons (Connection.to conn) with
  | Some from, Some to =>
      ctx ++ [beginPath;
              moveTo (Neuron.x from) (Neuron.y from);
              lineTo (Neuron.x to) (Neuron.y to)]
          ++ (if Connection.active conn
              then [set_strokeStyle
                      (rgba 0 255 150
                            (Math_abs (Connection.weight conn) * (6#10))%Q);
                    set_lineWidth 2]
              else [set_strokeStyle (rgba 60 60 70 (15#100));
                    set_lineWidth (1#2)])
          ++ [stroke]
  | _, _ => ctx
  end.

(** Body of [neurons.forEach]. *)
Definition draw_neuron (neuron : Neuron.t) (idx : nat) (ctx : list CanvasOp)
    : list CanvasOp :=
  let radius := (if Neuron.active neuron then 6 else 3)%Q in
  ctx ++ [beginPath; arc (Neuron.x neuron) (Neuron.y neuron) radius]
      ++ (if Neuron.active neuron
          then let intensity := Neuron.activation neuron in
               [set_fillStyle (rgba 0 255 150 intensity);
                set_shadowBlur 15;
                set_shadowColor (rgba 0 255 150 intensity)]
          else [set_fillStyle (rgba 80 80 90 (3#10)); set_shadowBlur 0])
      ++ [fill; set_shadowBlur 0].

Definition layerNames : list string :=
  ["Input"; "Encode-1"; "Encode-2"; "Bottleneck"; "Decode-1"; "Output"].

(** Body of the [forEach] over the layer sizes that writes the labels; an
    index without a name would print as [undefined]. *)
Definition draw_label (canvas : Canvas) (size idx : nat) (ctx : list CanvasOp)
    : list CanvasOp :=
  let x := (canvas_width canvas / (of_nat (length layers) + 1)
            * (of_nat idx + 1))%Q in
  ctx ++ [fillText (default "undefined" (layerNames !! idx)) (x - 30)%Q 20].

(** The effect that redraws the canvas whenever the units or the
    connections change; [canvasRef] is the canvas, if it is mounted. *)
Definition draw (canvasRef : option Canvas) (neurons : list Neuron.t)
    (connections : list Connection.t) : list CanvasOp :=
  match canvasRef with
  | None => []
  | Some canvas =>
      if negb (context2d canvas) then []
      else
        let ctx := [set_fillStyle (css "#0a0a0a");
                    fillRect 0 0 (canvas_width canvas) (canvas_height canvas)] in
        let ctx := forEach (draw_connection neurons) connections ctx in
        let ctx := forEach draw_neuron neurons ctx in
        let ctx := ctx ++ [set_fillStyle (css "#888");
                           set_font "12px monospace"] in
        forEach (draw_label canvas) layers ctx
  end.

(** ** The sparsity slider *)

(** [onChange] of the range input, [setSparsityLevel(parseInt(value) / 100)];
    [value] is the integer whose numeral the event carries. *)
Definition slider_onChange (value : Z) (c : Component) : Component :=
  {| neurons := neurons c;
     connections := connections c;
     sparsityLevel := (inject_Z value / 100)%Q;
     isProcessing := isProcessing c;
     stats := stats c;
     pending := pending c;
     random := random c |}.

(** The label [Math.round(sparsityLevel * 100)] next to the slider. *)
Definition slider_label (c : Component) : Z :=
  Math_round (sparsityLevel c * 100).

(** ** Vocabulary of the properties *)

(** [c] is an incoming connection of the unit named [id]. *)
Definition incoming (id : string) (c : Connection.t) : bool :=
  String.eqb (Connection.to c) id.

(** The source unit of [c] (the one [find] returns) is active. *)
Definition source_active (ns : list Neuron.t) (c : Connection.t) : bool :=
  match find_neuron ns (Connection.from c) with
  | Some fromNeuron => Neuron.active fromNeuron
  | None => false
  end.

(** What [c] adds to the sum of its target: [fromNeuron.activation * weight]. *)
Definition source_output (ns : list Neuron.t) (c : Connection.t) : Q :=
  match find_neuron ns (Connection.from c) with
  | Some fromNeuron => (Neuron.activation fromNeuron * Connection.weight c)%Q
  | None => 0
  end.

(** The sum over the incoming connections of [id] whose source is active,
    added in array order starting from [0]. *)
Definition weighted_sum (ns : list Neuron.t) (cs : list Connection.t)
    (id : string) : Q :=
  fold_left (fun sum c => (sum + source_output ns c)%Q)
            (List.filter (fun c => incoming id c && source_active ns c) cs) 0%Q.

(** The connection is marked when it enters [id] from an active source. *)
Definition mark (ns : list Neuron.t) (id : string) (c : Connection.t)
    : Connection.t :=
  if incoming id c && source_active ns c then Connection.set_active true c else c.

(** Some unit of layer [layerIdx] is the target of [c]. *)
Definition enters_layer (ns : list Neuron.t) (layerIdx : nat) (c : Connection.t)
    : bool :=
  existsb (fun n => in_layer layerIdx n && incoming (Neuron.id n) c) ns.

(** Two states of a unit that the forward pass cannot tell apart when it
    reads the unit as a source: same name, same flag, and the same
    activation if the flag is set. *)
Definition same_reading (n n' : Neuron.t) : Prop :=
  Neuron.id n' = Neuron.id n /\ Neuron.active n' = Neuron.active n
  /\ (Neuron.active n = true -> Neuron.activation n' = Neuron.activation n).

(** Two states of a connection: only the flag may differ. *)
Definition same_wiring (c c' : Connection.t) : Prop :=
  Connection.from c' = Connection.from c /\ Connection.to c' = Connection.to c
  /\ Connection.weight c' = Connection.weight c.

(** A unit after the first loop of layer [layerIdx], computed from the state
    [ns], [cs] before the loop. *)
Definition summed (layerIdx : nat) (ns : list Neuron.t) (cs : list Connection.t)
    (n : Neuron.t) : Neuron.t :=
  if in_layer layerIdx n
  then Neuron.set_activation (Math_max 0 (weighted_sum ns cs (Neuron.id n))) n
  else n.

(** A connection after the first loop of layer [layerIdx]. *)
Definition marked (layerIdx : nat) (ns : list Neuron.t) (c : Connection.t)
    : Connection.t :=
  if enters_layer ns layerIdx c && source_active ns c
  then Connection.set_active true c else c.

(** A unit after the top-k gate, from its rank [idx] and its state [n]
    before the gate. *)
Definition gated (k : Z) (idx : nat) (n : Neuron.t) : Neuron.t :=
  if (Z.of_nat idx <? k)%Z && gt (Neuron.activation n) (1#10)
  then Neuron.set_activation (Math_min 1 (Neuron.activation n))
         (Neuron.set_active true n)
  else Neuron.set_active false n.

(** [b] does not rank before [a]: the activation of [a] is at least that of
    [b]. *)
Definition ranks_before (ns : list Neuron.t) (a b : nat) : Prop :=
  (activation_of ns b <= activation_of ns a)%Q.

(** [features[idx % features.length] / 128]. *)
Definition featureVal (features : list N) (idx : nat) : Q :=
  (of_N (feature_at features (idx mod length features)) / 128)%Q.

(** A unit of the input layer at position [idx] after its step, from the two
    draws [r] (the gate) and [r'] (the rescaling, read only if the gate
    opens). *)
Definition fed (features : list N) (sparsityLevel r r' : Q) (idx : nat)
    (n : Neuron.t) : Neuron.t :=
  if gt r sparsityLevel
  then Neuron.mk (Neuron.id n) (Neuron.x n) (Neuron.y n) true
         (Math_min 1 (featureVal features idx * (1 + r' * (1#2))))%Q
         (Neuron.layer n)
  else Neuron.mk (Neuron.id n) (Neuron.x n) (Neuron.y n) false
         (featureVal features idx) (Neuron.layer n).

(** Where in the random source the gate draw of position [idx] is read: each
    earlier unit took one draw, and one more if its gate opened. *)
Fixpoint draw_position (sparsityLevel : Q) (g : RandomSource) (idx : nat) : nat :=
  match idx with
  | 0 => cursor g
  | S i =>
      let p := draw_position sparsityLevel g i in
      if gt (draws g p) sparsityLevel then S (S p) else S p
  end.

(** The locals of [processInput] after the first [n] iterations of its
    loop, from their values [st] before the loop. *)
Fixpoint forward (features : list N) (sparsityLevel : Q) (n : nat)
    (st : list Neuron.t * list Connection.t * RandomSource)
    : list Neuron.t * list Connection.t * RandomSource :=
  match n with
  | 0 => st
  | S j => layer_step features sparsityLevel j (forward features sparsityLevel j st)
  end.

(** The locals of [processInput] when its loop starts. *)
Definition reset_state (c : Component)
    : list Neuron.t * list Connection.t * RandomSource :=
  (map reset_neuron (neurons c),
   map (Connection.set_active false) (connections c),
   random c).

(** No unit of layer [layerIdx] or above is active. *)
Definition fresh_from (layerIdx : nat) (ns : list Neuron.t) : Prop :=
  forall n, n ∈ ns -> layerIdx <= Neuron.layer n -> Neuron.active n = false.

(** The fields of a unit that no step writes. *)
Definition same_unit (n n' : Neuron.t) : Prop :=
  Neuron.id n' = Neuron.id n /\ Neuron.x n' = Neuron.x n
  /\ Neuron.y n' = Neuron.y n /\ Neuron.layer n' = Neuron.layer n.

(** What the step of layer [layerIdx] may change in a unit. *)
Definition step_frame (layerIdx : nat) (n n' : Neuron.t) : Prop :=
  same_unit n n' /\ (Neuron.layer n <> layerIdx -> n' = n).

(** What the iteration of layer [j] publishes. *)
Definition snapshot_of (features : list N) (sparsityLevel : Q)
    (st : list Neuron.t * list Connection.t * RandomSource) (j : nat)
    : Published :=
  let st' := forward features sparsityLevel (S j) st in
  {| phase := Layer j; shown_neurons := st'.1.1; shown_connections := st'.1.2 |}.

(** A run is in flight in [c]: [c] is what an idle component becomes after
    an accepted call and fewer than seven timers. *)
Definition in_flight (toLowerCase : jsstring -> jsstring) (c : Component) : Prop :=
  exists c0 text0 n,
    text0 <> [] /\ isProcessing c0 = false /\ n <= 6
    /\ c = (resumes n (processInput toLowerCase text0 c0).1).1.

(** ** Sample inputs *)

Definition sample_source : RandomSource :=
  {| draws := fun n => (Z.of_nat ((n * 37 + 11) mod 100) # 100)%Q; cursor := 0 |}.

Definition sample_layers : list nat := [2; 3; 3; 3; 3; 2].

Definition sample_component : Component :=
  {| neurons := (build sample_layers sample_source).1.1;
     connections := (build sample_layers sample_source).1.2;
     sparsityLevel := (1#2)%Q;
     isProcessing := false;
     stats := {| stat_active := 0; stat_total := 0; stat_sparsity := 0 |};
     pending := None;
     random := (build sample_layers sample_source).2 |}.

(** The text "Hi". *)
Definition sample_text : jsstring := [72; 105]%N.

(** The snapshot of layer [j] in the sample run, and unit [i] in it. *)
Definition sample_snapshot (j : nat) : Published :=
  snapshot_of (tokenize latin_toLowerCase sample_text)
              (sparsityLevel sample_component) (reset_state sample_component) j.

Definition sample_unit (j i : nat) : Neuron.t :=
  nth i (shown_neurons (sample_snapshot j)) (Neuron.mk "" 0 0 false 0 0).

(** Every active unit has its activation in [[0, 1]]. *)
Definition clamped (ns : list Neuron.t) : Prop :=
  forall n, n ∈ ns -> Neuron.active n = true ->
    (0 <= Neuron.activation n)%Q /\ (Neuron.activation n <= 1)%Q.

(** A second sample: two input units feeding one unit, every draw 0.95. *)
Definition dense_source : RandomSource :=
  {| draws := fun _ => (95#100)%Q; cursor := 0 |}.

Definition dense_component : Component :=
  {| neurons := (build [2; 1] dense_source).1.1;
     connections := (build [2; 1] dense_source).1.2;
     sparsityLevel := (1#2)%Q;
     isProcessing := false;
     stats := {| stat_active := 0; stat_total := 0; stat_sparsity := 0 |};
     pending := None;
     random := (build [2; 1] dense_source).2 |}.

(** The names in [ids] are pairwise different. *)
Fixpoint distinct (ids : list string) : bool :=
  match ids with
  | [] => true
  | a :: rest => negb (existsb (String.eqb a) rest) && distinct rest
  end.

(** [c] joins a unit to a unit of the next layer. *)
Definition wired (ns : list Neuron.t) (c : Connection.t) : bool :=
  match find_neuron ns (Connection.from c), find_neuron ns (Connection.to c) with
  | Some s, Some t => Neuron.layer t =? S (Neuron.layer s)
  | _, _ => false
  end.

(** The shape of a topology that the builder produces: units have different
    names, and every connection joins a unit to a unit of the next layer. *)
Definition well_formed (ns : list Neuron.t) (cs : list Connection.t) : bool :=
  distinct (map Neuron.id ns) && forallb (wired ns) cs.

(** No character of [s] is a dash. *)
Fixpoint dashless (s : string) : Prop :=
  match s with
  | EmptyString => True
  | String a rest => a <> "-"%char /\ dashless rest
  end.

(** The connections of [cs] that leave the unit named [id]. *)
Definition outgoing (id : string) (cs : list Connection.t) : list Connection.t :=
  List.filter (fun c => String.eqb (Connection.from c) id) cs.

(** [out] is a sparse fan-out into [next]: [min(8, |next|)] connections, to
    different units, all of them in [next]. *)
Definition fan_out (next : list Neuron.t) (out : list Connection.t) : Prop :=
  length out = Nat.min 8 (length next)
  /\ NoDup (map Connection.to out)
  /\ forall c, c ∈ out -> exists t, t ∈ next /\ Connection.to c = Neuron.id t.

(** A connection as the builder makes it: inactive, with a weight
    [r * 2 - 1] for a draw [r] of the source [g]. *)
Definition fresh_connection (g : RandomSource) (c : Connection.t) : Prop :=
  Connection.active c = false
  /\ exists n, Connection.weight c = (draws g n * 2 - 1)%Q.

(** The text of one character outside the Basic Multilingual Plane,
    U+1F600 (a grinning face): the surrogate pair D83D DE00. *)
Definition grinning_face : jsstring := [0xD83D; 0xDE00]%N.

(** The number of connections of a topology with layer sizes [ls]: every
    unit of a layer but the last has [min(8, next)] of them. *)
Fixpoint connection_count (ls : list nat) : nat :=
  match ls with
  | size :: rest =>
      match rest with
      | next :: _ => size * Nat.min 8 next + connection_count rest
      | [] => 0
      end
  | [] => 0
  end.

(** The component with another random source. *)
Definition with_random (g : RandomSource) (c : Component) : Component :=
  {| neurons := neurons c;
     connections := connections c;
     sparsityLevel := sparsityLevel c;
     isProcessing := isProcessing c;
     stats := stats c;
     pending := pending c;
     random := g |}.

(** No unit of layer [layerIdx] or above has been written since the reset. *)
Definition untouched_from (layerIdx : nat) (ns : list Neuron.t) : Prop :=
  forall n, n ∈ ns -> layerIdx <= Neuron.layer n ->
    Neuron.active n = false /\ Neuron.activation n = 0%Q.

(** The component with another sparsity level. *)
Definition with_sparsity (s : Q) (c : Component) : Component :=
  {| neurons := neurons c;
     connections := connections c;
     sparsityLevel := s;
     isProcessing := isProcessing c;
     stats := stats c;
     pending := pending c;
     random := random c |}.

(** [a] ranks strictly before [b]: its activation is larger, or equal with
    [a] earlier in the array. *)
Definition outranks (ns : list Neuron.t) (a b : nat) : Prop :=
  (activation_of ns b < activation_of ns a)%Q
  \/ (activation_of ns b == activation_of ns a /\ a < b).

(** What one connection adds to the drawing: nothing if an end is missing. *)
Definition segment (ns : list Neuron.t) (conn : Connection.t) : list CanvasOp :=
  draw_connection ns conn 0 [].

(** What one unit adds to the drawing. *)
Definition disc (n : Neuron.t) : list CanvasOp := draw_neuron n 0 [].

Definition is_stroke (op : CanvasOp) : bool :=
  match op with stroke => true | _ => false end.

Definition is_fill (op : CanvasOp) : bool :=
  match op with fill => true | _ => false end.

(** The opacity an operation sets, if it sets an [rgba] colour. *)
Definition alpha_of (op : CanvasOp) : option Q :=
  match op with
  | set_fillStyle (rgba _ _ _ a)
  | set_strokeStyle (rgba _ _ _ a)
  | set_shadowColor (rgba _ _ _ a) => Some a
  | _ => None
  end.



(** Every weight lies in [[-1, 1]], as the builder draws them. *)
Definition bounded_weights (cs : list Connection.t) : Prop :=
  forall k, k ∈ cs ->
    (-1 <= Connection.weight k)%Q /\ (Connection.weight k <= 1)%Q.

(** The labels, as the last loop of the effect writes them. *)
Definition labels (canvas : Canvas) : list CanvasOp :=
  forEach (draw_label canvas) layers [].

Definition count (p : CanvasOp -> bool) (ops : list CanvasOp) : nat :=
  length (List.filter p ops).

(** * Properties *)

(** ** References into an array *)

Lemma refs_where_cons {A : Type} (p : A -> bool) (a : A) (l : list A) :
  refs_where p (a :: l)
  = (if p a then [0] else []) ++ map S (refs_where p l).
Proof.
  unfold refs_where. simpl length. rewrite <- cons_seq. simpl.
  rewrite <- seq_shift, filter_map_swap. simpl.
  destruct (p a); reflexivity.
Qed.

Lemma elem_of_refs_where {A : Type} (p : A -> bool) (l : list A) (i : nat) :
  i ∈ refs_where p l <-> exists a, l !! i = Some a /\ p a = true.
Proof.
  unfold refs_where. rewrite list_elem_of_In, filter_In, in_seq. split.
  - intros [_ H]. destruct (l !! i) as [a|]; [eauto | discriminate].
  - intros (a & Ha & Hp). rewrite Ha. split; [|assumption].
    apply lookup_lt_Some in Ha. lia.
Qed.

Lemma NoDup_refs_where {A : Type} (p : A -> bool) (l : list A) :
  NoDup (refs_where p l).
Proof.
  unfold refs_where. apply NoDup_ListNoDup, List.NoDup_filter, seq_NoDup.
Qed.

(** The referenced objects are the filtered array. *)
Lemma refs_where_lookup {A : Type} (p : A -> bool) (l : list A) :
  map (fun i => l !! i) (refs_where p l) = map Some (List.filter p l).
Proof.
  induction l as [|a l IH]; [reflexivity|].
  rewrite refs_where_cons, map_app, map_map. simpl.
  rewrite IH. destruct (p a); reflexivity.
Qed.

Lemma length_refs_where {A : Type} (p : A -> bool) (l : list A) :
  length (refs_where p l) = length (List.filter p l).
Proof.
  rewrite <- (length_map (fun i => l !! i)), refs_where_lookup.
  apply length_map.
Qed.

(** The references depend on the tested property of the objects only. *)
Lemma refs_where_ext {A B : Type} (p : A -> bool) (q : B -> bool)
    (l : list A) (k : list B) :
  Forall2 (fun a b => p a = q b) l k -> refs_where p l = refs_where q k.
Proof.
  induction 1 as [|a b l k Hab _ IH]; [reflexivity|].
  rewrite !refs_where_cons, IH, Hab. reflexivity.
Qed.

(** ** Loops *)

(** Invariant rule for [forEach]: the invariant speaks of the elements
    handled so far. *)
Lemma forEach_from_invariant {A St : Type} (body : A -> nat -> St -> St)
    (Inv : list A -> St -> Prop) (l : list A) :
  forall (done : list A) (idx : nat) (s : St),
    Inv done s ->
    (forall pre a post s', done ++ l = pre ++ a :: post ->
       length done <= length pre ->
       Inv pre s' -> Inv (pre ++ [a]) (body a (idx + (length pre - length done)) s')) ->
    Inv (done ++ l) (forEach_from body idx l s).
Proof.
  induction l as [|a l IH]; intros done idx s H0 Hstep; simpl.
  - rewrite app_nil_r. exact H0.
  - replace (done ++ a :: l) with ((done ++ [a]) ++ l)
      by (rewrite <- app_assoc; reflexivity).
    apply IH.
    + specialize (Hstep done a l s eq_refl (le_n _) H0).
      replace (idx + (length done - length done)) with idx in Hstep by lia.
      exact Hstep.
    + intros pre b post s' Heq Hlen Hpre.
      rewrite <- app_assoc in Heq. simpl in Heq.
      rewrite length_app in Hlen. simpl in Hlen.
      specialize (Hstep pre b post s' Heq ltac:(lia) Hpre).
      assert (E : S idx + (length pre - length (done ++ [a]))
                  = idx + (length pre - length done))
        by (rewrite length_app; simpl; lia).
      rewrite E. exact Hstep.
Qed.

Lemma forEach_invariant {A St : Type} (body : A -> nat -> St -> St)
    (Inv : list A -> St -> Prop) (l : list A) (s : St) :
  Inv [] s ->
  (forall pre a post s', l = pre ++ a :: post ->
     Inv pre s' -> Inv (pre ++ [a]) (body a (length pre) s')) ->
  Inv l (forEach body l s).
Proof.
  intros H0 Hstep. unfold forEach.
  apply (forEach_from_invariant body Inv l [] 0 s H0).
  intros pre a post s' Heq _ Hpre. simpl in *.
  rewrite Nat.sub_0_r. apply (Hstep pre a post s' Heq Hpre).
Qed.

(** ** Sorting *)

Lemma insert_sorted_Permutation {A St : Type}
    (compareFn : A -> A -> St -> Q * St) (a : A) (l : list A) (s : St) :
  (insert_sorted compareFn a l s).1 ≡ₚ a :: l.
Proof.
  revert s. induction l as [|b l IH]; intros s; simpl; [reflexivity|].
  destruct (compareFn a b s) as [c s1].
  destruct (Qle_bool c 0); [reflexivity|].
  specialize (IH s1). destruct (insert_sorted compareFn a l s1) as [r s2].
  simpl in *. rewrite IH. apply Permutation_swap.
Qed.

(** Whatever the comparator answers, [sort] rearranges the array. *)
Lemma Array_sort_Permutation {A St : Type}
    (compareFn : A -> A -> St -> Q * St) (l : list A) (s : St) :
  (Array_sort compareFn l s).1 ≡ₚ l.
Proof.
  revert s. induction l as [|a l IH]; intros s; simpl; [reflexivity|].
  specialize (IH s). destruct (Array_sort compareFn l s) as [sorted s1].
  simpl in IH. rewrite insert_sorted_Permutation, IH. reflexivity.
Qed.

(** ** The weighted sums of a layer *)

Lemma incoming_body_cons (ns : list Neuron.t) (a : Connection.t)
    (i idx idx' : nat) (sum : Q) (cs : list Connection.t) :
  incoming_body ns (S i) idx (sum, a :: cs)
  = (let r := incoming_body ns i idx' (sum, cs) in (r.1, a :: r.2)).
Proof.
  unfold incoming_body. simpl.
  destruct (cs !! i) as [c|]; [|reflexivity].
  destruct (find_neuron ns (Connection.from c)) as [f|]; [|reflexivity].
  destruct (Neuron.active f); reflexivity.
Qed.

Lemma incoming_loop_shift (ns : list Neuron.t) (a : Connection.t)
    (refs : list nat) :
  forall idx idx' sum cs,
    forEach_from (incoming_body ns) idx (map S refs) (sum, a :: cs)
    = (let r := forEach_from (incoming_body ns) idx' refs (sum, cs) in
       (r.1, a :: r.2)).
Proof.
  induction refs as [|i refs IH]; intros idx idx' sum cs; [reflexivity|].
  cbn [forEach_from map]. rewrite (incoming_body_cons ns a i idx idx').
  destruct (incoming_body ns i idx' (sum, cs)) as [sum1 cs1]. simpl.
  apply IH.
Qed.

Lemma incoming_body_head (ns : list Neuron.t) (c : Connection.t)
    (idx : nat) (sum : Q) (cs : list Connection.t) :
  incoming_body ns 0 idx (sum, c :: cs)
  = ((if source_active ns c then sum + source_output ns c else sum)%Q,
     (if source_active ns c then Connection.set_active true c else c) :: cs).
Proof.
  unfold incoming_body, source_active, source_output. simpl.
  destruct (find_neuron ns (Connection.from c)) as [f|]; [|reflexivity].
  destruct (Neuron.active f); reflexivity.
Qed.

Lemma incoming_loop (ns : list Neuron.t) (id : string) (cs : list Connection.t) :
  forall idx sum,
    forEach_from (incoming_body ns) idx (refs_where (incoming id) cs) (sum, cs)
    = (fold_left (fun sum c => (sum + source_output ns c)%Q)
         (List.filter (fun c => incoming id c && source_active ns c) cs) sum,
       map (mark ns id) cs).
Proof.
  induction cs as [|c cs IH]; intros idx sum; [reflexivity|].
  rewrite refs_where_cons. cbn [List.filter map]. unfold mark at 1.
  destruct (incoming id c); cbn [andb app forEach_from].
  - rewrite incoming_body_head, (incoming_loop_shift _ _ _ _ (S idx)), IH.
    destruct (source_active ns c); reflexivity.
  - rewrite (incoming_loop_shift _ _ _ _ idx), IH. reflexivity.
Qed.

(** One unit of the first loop, in closed form. *)
Lemma sum_body_eq (i idx : nat) (ns : list Neuron.t) (cs : list Connection.t) :
  sum_body i idx (ns, cs)
  = match ns !! i with
    | None => (ns, cs)
    | Some n =>
        (<[i := Neuron.set_activation
                  (Math_max 0 (weighted_sum ns cs (Neuron.id n))) n]> ns,
         map (mark ns (Neuron.id n)) cs)
    end.
Proof.
  unfold sum_body. destruct (ns !! i) as [n|]; [|reflexivity].
  unfold forEach.
  change (fun c : Connection.t => String.eqb (Connection.to c) (Neuron.id n))
    with (incoming (Neuron.id n)).
  rewrite incoming_loop. reflexivity.
Qed.

Lemma find_neuron_same_reading (ns ns' : list Neuron.t) (id : string) :
  Forall2 same_reading ns ns' ->
  option_Forall2 same_reading (find_neuron ns id) (find_neuron ns' id).
Proof.
  induction 1 as [|n n' ns ns' (Hid & Ha & Hv) _ IH]; simpl; [constructor|].
  rewrite Hid. destruct (String.eqb (Neuron.id n) id); [|exact IH].
  constructor. repeat split; assumption.
Qed.

Lemma source_active_ext (ns ns' : list Neuron.t) (c c' : Connection.t) :
  Forall2 same_reading ns ns' -> same_wiring c c' ->
  source_active ns' c' = source_active ns c.
Proof.
  intros Hns (Hf & _ & _). unfold source_active. rewrite Hf.
  destruct (find_neuron_same_reading ns ns' (Connection.from c) Hns)
    as [n n' (_ & Ha & _)|]; [exact Ha | reflexivity].
Qed.

Lemma source_output_ext (ns ns' : list Neuron.t) (c c' : Connection.t) :
  Forall2 same_reading ns ns' -> same_wiring c c' ->
  source_active ns c = true ->
  source_output ns' c' = source_output ns c.
Proof.
  intros Hns (Hf & _ & Hw). unfold source_active, source_output.
  rewrite Hf, Hw.
  destruct (find_neuron_same_reading ns ns' (Connection.from c) Hns)
    as [n n' (_ & _ & Hv)|]; [|reflexivity].
  intros Hact. rewrite (Hv Hact). reflexivity.
Qed.

Lemma incoming_ext (id : string) (c c' : Connection.t) :
  same_wiring c c' -> incoming id c' = incoming id c.
Proof. intros (_ & Ht & _). unfold incoming. rewrite Ht. reflexivity. Qed.

Lemma weighted_sum_ext (ns ns' : list Neuron.t) (cs cs' : list Connection.t)
    (id : string) :
  Forall2 same_reading ns ns' -> Forall2 same_wiring cs cs' ->
  weighted_sum ns' cs' id = weighted_sum ns cs id.
Proof.
  intros Hns Hcs. unfold weighted_sum. generalize 0%Q.
  induction Hcs as [|c c' cs cs' Hc _ IH]; intros sum; [reflexivity|].
  cbn [List.filter].
  rewrite (incoming_ext id c c' Hc), (source_active_ext ns ns' c c' Hns Hc).
  destruct (incoming id c && source_active ns c) eqn:E; [|apply IH].
  apply andb_true_iff in E as [_ E]. cbn [fold_left].
  rewrite (source_output_ext ns ns' c c' Hns Hc E). apply IH.
Qed.

Lemma mark_ext (ns ns' : list Neuron.t) (id : string) (c : Connection.t) :
  Forall2 same_reading ns ns' -> mark ns' id c = mark ns id c.
Proof.
  intros Hns. unfold mark.
  rewrite (source_active_ext ns ns' c c Hns); [reflexivity|].
  repeat split.
Qed.

Lemma mark_same_wiring (ns : list Neuron.t) (id : string) (c : Connection.t) :
  same_wiring c (mark ns id c).
Proof.
  unfold mark. destruct (incoming id c && source_active ns c); repeat split.
Qed.

Lemma lookup_map {A B : Type} (f : A -> B) (l : list A) (i : nat) :
  map f l !! i = f <$> l !! i.
Proof. apply (list_lookup_fmap f l i). Qed.

Lemma elem_of_map {A B : Type} (f : A -> B) (l : list A) (b : B) :
  b ∈ map f l <-> exists a, b = f a /\ a ∈ l.
Proof. apply (list_elem_of_fmap f l b). Qed.

Lemma elem_of_currentLayerNeurons (ns : list Neuron.t) (layerIdx i : nat) :
  i ∈ currentLayerNeurons ns layerIdx
  <-> exists n, ns !! i = Some n /\ Neuron.layer n = layerIdx.
Proof.
  unfold currentLayerNeurons. rewrite elem_of_refs_where.
  unfold in_layer. split; intros (n & Hn & Hl); exists n; split; try assumption.
  - apply Nat.eqb_eq, Hl.
  - apply Nat.eqb_eq, Hl.
Qed.

(** The units handled so far by the first loop of a layer, and the
    connections that entered them. *)
Lemma weighted_sums_prefix (layerIdx : nat) (ns : list Neuron.t)
    (cs : list Connection.t) (current : list nat) :
  NoDup current ->
  (forall i, i ∈ current -> exists n, ns !! i = Some n /\ Neuron.active n = false) ->
  weighted_sums current (ns, cs)
  = (imap (fun i n => if bool_decide (i ∈ current)
                      then Neuron.set_activation
                             (Math_max 0 (weighted_sum ns cs (Neuron.id n))) n
                      else n) ns,
     map (fun c =>
            if existsb (fun i => match ns !! i with
                                 | Some n => incoming (Neuron.id n) c
                                 | None => false
                                 end) current
               && source_active ns c
            then Connection.set_active true c else c) cs).
Proof.
  intros Hnodup Hcur. unfold weighted_sums.
  set (raw := fun n => Neuron.set_activation
                         (Math_max 0 (weighted_sum ns cs (Neuron.id n))) n).
  set (targets := fun (pre : list nat) (c : Connection.t) =>
         existsb (fun i => match ns !! i with
                           | Some n => incoming (Neuron.id n) c
                           | None => false
                           end) pre).
  apply (forEach_invariant sum_body
           (fun pre st =>
              st = (imap (fun i n => if bool_decide (i ∈ pre) then raw n else n) ns,
                    map (fun c => if targets pre c && source_active ns c
                                  then Connection.set_active true c else c) cs))
           current (ns, cs)).
  - f_equal.
    + apply list_eq. intros i. rewrite list_lookup_imap.
      destruct (ns !! i); reflexivity.
    + symmetry. rewrite <- (map_id cs) at 2. apply map_ext. reflexivity.
  - intros pre a post st Hsplit ->. rewrite sum_body_eq.
    assert (Ha : a ∈ current)
      by (rewrite Hsplit; apply elem_of_app; right; left).
    destruct (Hcur a Ha) as (n & Hn & Hinactive).
    assert (Hfresh : a ∉ pre).
    { rewrite Hsplit in Hnodup. apply list.NoDup_app in Hnodup as (_ & Hd & _).
      intros Hin. apply (Hd a Hin). left. }
    rewrite list_lookup_imap, Hn. simpl.
    rewrite (bool_decide_eq_false_2 _ Hfresh).
    assert (Hns : Forall2 same_reading ns
              (imap (fun i n => if bool_decide (i ∈ pre) then raw n else n) ns)).
    { apply Forall2_same_length_lookup_2; [symmetry; apply length_imap|].
      intros i m m' Hm. rewrite list_lookup_imap, Hm. simpl. intros [= <-].
      destruct (bool_decide (i ∈ pre)) eqn:E; [|repeat split].
      apply bool_decide_eq_true in E.
      destruct (Hcur i) as (m0 & Hm0 & Hi0);
        [rewrite Hsplit; apply elem_of_app; left; exact E|].
      rewrite Hm in Hm0. injection Hm0 as <-.
      repeat split. simpl. rewrite Hi0. discriminate. }
    assert (Hcs : Forall2 same_wiring cs
              (map (fun c => if targets pre c && source_active ns c
                             then Connection.set_active true c else c) cs)).
    { apply Forall2_same_length_lookup_2; [symmetry; apply length_map|].
      intros i c c' Hc. rewrite lookup_map, Hc. simpl. intros [= <-].
      destruct (targets pre c && source_active ns c); repeat split. }
    rewrite (weighted_sum_ext _ _ _ _ _ Hns Hcs). f_equal.
    + apply list_eq. intros i.
      destruct (decide (a = i)) as [<-|Hne].
      * rewrite list_lookup_insert_eq
          by (rewrite length_imap; apply lookup_lt_Some in Hn; exact Hn).
        rewrite list_lookup_imap, Hn. simpl.
        rewrite bool_decide_eq_true_2
          by (apply elem_of_app; right; left).
        reflexivity.
      * rewrite list_lookup_insert_ne by assumption.
        rewrite !list_lookup_imap. destruct (ns !! i); [|reflexivity]. simpl.
        f_equal. apply (f_equal (fun b : bool => if b then raw t else t)).
        apply bool_decide_ext. rewrite elem_of_app, list_elem_of_singleton.
        intuition congruence.
    + rewrite map_map. apply map_ext. intros c.
      rewrite (mark_ext ns _ _ _ Hns). unfold mark, targets.
      rewrite existsb_app. cbn [existsb]. rewrite Hn, orb_false_r.
      set (t := existsb _ pre).
      assert (E1 : incoming (Neuron.id n)
                     (if t && source_active ns c
                      then Connection.set_active true c else c)
                   = incoming (Neuron.id n) c)
        by (destruct (t && source_active ns c); reflexivity).
      assert (E2 : source_active ns
                     (if t && source_active ns c
                      then Connection.set_active true c else c)
                   = source_active ns c)
        by (destruct (t && source_active ns c); reflexivity).
      rewrite E1, E2.
      destruct t, (incoming (Neuron.id n) c), (source_active ns c); reflexivity.
Qed.

Lemma existsb_map_compose {A B : Type} (f : B -> bool) (g : A -> B) (l : list A) :
  existsb f (map g l) = existsb (fun a => f (g a)) l.
Proof. induction l as [|a l IH]; simpl; [|rewrite IH]; reflexivity. Qed.

Lemma existsb_refs_where {A : Type} (p q : A -> bool) (l : list A) :
  existsb (fun i => match l !! i with Some a => q a | None => false end)
          (refs_where p l)
  = existsb (fun a => p a && q a) l.
Proof.
  induction l as [|a l IH]; [reflexivity|].
  rewrite refs_where_cons, existsb_app, existsb_map_compose. simpl.
  rewrite IH. destruct (p a); simpl; [rewrite orb_false_r|]; reflexivity.
Qed.

(** The first loop of a layer in closed form: every unit of the layer gets
    its rectified sum, every connection that enters the layer from an active
    source is marked, and nothing else changes.  The sums are those of the
    state before the loop as long as the layer's own units are inactive
    there. *)
Lemma weighted_sums_eq (layerIdx : nat) (ns : list Neuron.t)
    (cs : list Connection.t) :
  (forall n, n ∈ ns -> Neuron.layer n = layerIdx -> Neuron.active n = false) ->
  weighted_sums (currentLayerNeurons ns layerIdx) (ns, cs)
  = (map (summed layerIdx ns cs) ns, map (marked layerIdx ns) cs).
Proof.
  intros Hinactive.
  rewrite (weighted_sums_prefix layerIdx).
  - f_equal.
    + apply list_eq. intros i. rewrite list_lookup_imap, lookup_map.
      destruct (ns !! i) as [n|] eqn:Hn; [|reflexivity]. simpl. f_equal.
      unfold summed, in_layer.
      destruct (Nat.eqb_spec (Neuron.layer n) layerIdx) as [Hl|Hl].
      * rewrite bool_decide_eq_true_2; [reflexivity|].
        apply elem_of_currentLayerNeurons. eauto.
      * rewrite bool_decide_eq_false_2; [reflexivity|].
        rewrite elem_of_currentLayerNeurons. intros (m & Hm & Hlm). congruence.
    + apply map_ext. intros c. unfold marked, enters_layer, currentLayerNeurons.
      rewrite (existsb_refs_where (in_layer layerIdx)
                 (fun n => incoming (Neuron.id n) c)).
      reflexivity.
  - apply NoDup_refs_where.
  - intros i Hi. apply elem_of_currentLayerNeurons in Hi as (n & Hn & Hl).
    exists n. split; [assumption|]. apply Hinactive; [|assumption].
    apply list_elem_of_lookup. eauto.
Qed.

(** ** The top-k gate *)

Lemma gate_body_eq (k : Z) (i idx : nat) (ns : list Neuron.t) :
  gate_body k i idx ns
  = match ns !! i with
    | None => ns
    | Some n => <[i := gated k idx n]> ns
    end.
Proof.
  unfold gate_body, gated. destruct (ns !! i) as [n|]; [|reflexivity].
  destruct ((Z.of_nat idx <? k)%Z && gt (Neuron.activation n) (1#10));
    reflexivity.
Qed.

Lemma insert_sorted_ranks (ns : list Neuron.t) (a : nat) (l : list nat) :
  StronglySorted (ranks_before ns) l ->
  StronglySorted (ranks_before ns) (insert_sorted (by_activation ns) a l tt).1.
Proof.
  induction 1 as [|b l Hl IH Hb]; simpl.
  - constructor; constructor.
  - destruct (Qle_bool _ 0) eqn:E.
    + simpl. assert (Hab : ranks_before ns a b).
      { apply Qle_bool_iff in E. unfold ranks_before.
        apply (Qplus_le_l _ _ (- activation_of ns a)).
        rewrite Qplus_opp_r. exact E. }
      constructor; [constructor; assumption|].
      constructor; [exact Hab|].
      eapply Forall_impl; [|exact Hb]. intros c Hbc. unfold ranks_before in *.
      eapply Qle_trans; eassumption.
    + pose proof (insert_sorted_Permutation (by_activation ns) a l tt) as Hp.
      destruct (insert_sorted (by_activation ns) a l tt) as [r u]. simpl in *.
      constructor; [exact IH|]. rewrite Hp. constructor; [|exact Hb].
      unfold ranks_before. apply Qlt_le_weak, Qnot_le_lt. intros Hle.
      assert (Qle_bool (activation_of ns b - activation_of ns a) 0 = true)
        as E'; [|congruence].
      apply Qle_bool_iff. apply (Qplus_le_l _ _ (activation_of ns a)).
      ring_simplify. exact Hle.
Qed.

(** The ranking lists the layer's units by decreasing activation. *)
Lemma ranking_sorted (ns : list Neuron.t) (current : list nat) :
  StronglySorted (ranks_before ns) (ranking ns current).
Proof.
  unfold ranking. induction current as [|a l IH]; simpl; [constructor|].
  destruct (Array_sort (by_activation ns) l tt) as [sorted []]. simpl in IH.
  apply insert_sorted_ranks, IH.
Qed.

Lemma ranking_Permutation (ns : list Neuron.t) (current : list nat) :
  ranking ns current ≡ₚ current.
Proof. apply Array_sort_Permutation. Qed.

(** The gate, unit by unit: a unit outside the layer is untouched, a unit of
    the layer is gated by its rank. *)
Lemma top_k_gate_spec (sparsityLevel : Q) (current : list nat)
    (ns : list Neuron.t) :
  NoDup current ->
  (forall i, i ∈ current -> is_Some (ns !! i)) ->
  let k := top_k sparsityLevel (length current) in
  let ns' := top_k_gate sparsityLevel current ns in
  length ns' = length ns
  /\ (forall i, i ∉ current -> ns' !! i = ns !! i)
  /\ (forall idx i n, ranking ns current !! idx = Some i -> ns !! i = Some n ->
        ns' !! i = Some (gated k idx n)).
Proof.
  intros Hnodup Hvalid k ns'. subst ns'. unfold top_k_gate. fold k.
  pose proof (ranking_Permutation ns current) as Hperm.
  set (ranked := ranking ns current) in *.
  assert (Hnd : NoDup ranked) by (rewrite Hperm; exact Hnodup).
  assert (Hinv :
    (fun pre ns1 =>
       length ns1 = length ns
       /\ (forall i, i ∉ pre -> ns1 !! i = ns !! i)
       /\ (forall idx i n, pre !! idx = Some i -> ns !! i = Some n ->
             ns1 !! i = Some (gated k idx n)))
      ranked (forEach (gate_body k) ranked ns)).
  { apply forEach_invariant.
    - split; [reflexivity|]. split; [reflexivity|].
      intros idx i n Hl. rewrite lookup_nil in Hl. discriminate.
    - intros pre a post ns1 Hsplit (Hlen & Hout & Hin).
      assert (Hfresh : a ∉ pre).
      { rewrite Hsplit in Hnd. apply list.NoDup_app in Hnd as (_ & Hd & _).
        intros Ha. apply (Hd a Ha). left. }
      destruct (Hvalid a) as [n Hn].
      { rewrite <- Hperm, Hsplit. apply elem_of_app. right. left. }
      rewrite gate_body_eq, (Hout a Hfresh), Hn.
      split; [rewrite length_insert; exact Hlen|]. split.
      + intros i Hi. rewrite elem_of_app, list_elem_of_singleton in Hi.
        rewrite list_lookup_insert_ne by (intros ->; tauto).
        apply Hout. tauto.
      + intros idx i m Hl Hm.
        destruct (lookup_app_Some pre [a] idx i) as [Hcases _].
        destruct (Hcases Hl) as [Hpre | [Hge Hlast]].
        * rewrite list_lookup_insert_ne.
          -- apply (Hin idx i m Hpre Hm).
          -- intros ->. apply Hfresh.
             apply list_elem_of_lookup. eauto.
        * destruct (idx - length pre) as [|d] eqn:Hd; [|discriminate].
          simpl in Hlast. injection Hlast as <-.
          assert (idx = length pre) as -> by lia.
          rewrite Hn in Hm. injection Hm as <-.
          apply list_lookup_insert_eq. rewrite Hlen.
          apply lookup_lt_Some in Hn. exact Hn. }
  destruct Hinv as (Hlen & Hout & Hin).
  split; [exact Hlen|]. split; [|exact Hin].
  intros i Hi. apply Hout. rewrite Hperm. exact Hi.
Qed.

(** ** The input layer *)

Lemma input_body_eq (features : list N) (sparsityLevel : Q) (i idx : nat)
    (ns : list Neuron.t) (g : RandomSource) :
  input_body features sparsityLevel i idx (ns, g)
  = match ns !! i with
    | None => (ns, g)
    | Some n =>
        (<[i := fed features sparsityLevel (draws g (cursor g))
                  (draws g (S (cursor g))) idx n]> ns,
         {| draws := draws g;
            cursor := if gt (draws g (cursor g)) sparsityLevel
                      then S (S (cursor g)) else S (cursor g) |})
    end.
Proof.
  unfold input_body, fed, featureVal. destruct (ns !! i) as [n|]; [|reflexivity].
  simpl. destruct (gt (draws g (cursor g)) sparsityLevel); reflexivity.
Qed.

(** The input layer, unit by unit. *)
Lemma input_layer_spec (features : list N) (sparsityLevel : Q)
    (current : list nat) (ns : list Neuron.t) (g : RandomSource) :
  NoDup current ->
  (forall i, i ∈ current -> is_Some (ns !! i)) ->
  let r := forEach (input_body features sparsityLevel) current (ns, g) in
  let at_ := draw_position sparsityLevel g in
  draws r.2 = draws g
  /\ cursor r.2 = at_ (length current)
  /\ length r.1 = length ns
  /\ (forall i, i ∉ current -> r.1 !! i = ns !! i)
  /\ (forall idx i n, current !! idx = Some i -> ns !! i = Some n ->
        r.1 !! i = Some (fed features sparsityLevel (draws g (at_ idx))
                           (draws g (S (at_ idx))) idx n)).
Proof.
  intros Hnd Hvalid r at_. subst r.
  apply (forEach_invariant (input_body features sparsityLevel)
    (fun pre st =>
       draws st.2 = draws g
       /\ cursor st.2 = at_ (length pre)
       /\ length st.1 = length ns
       /\ (forall i, i ∉ pre -> st.1 !! i = ns !! i)
       /\ (forall idx i n, pre !! idx = Some i -> ns !! i = Some n ->
             st.1 !! i = Some (fed features sparsityLevel (draws g (at_ idx))
                                 (draws g (S (at_ idx))) idx n)))
    current (ns, g)).
  - repeat split; try reflexivity.
    intros idx i n Hl. rewrite lookup_nil in Hl. discriminate.
  - intros pre a post [ns1 g1] Hsplit (Hdraws & Hcur & Hlen & Hout & Hin).
    simpl in Hdraws, Hcur, Hlen, Hout, Hin.
    assert (Hfresh : a ∉ pre).
    { rewrite Hsplit in Hnd. apply list.NoDup_app in Hnd as (_ & Hd & _).
      intros Ha. apply (Hd a Ha). left. }
    destruct (Hvalid a) as [n Hn].
    { rewrite Hsplit. apply elem_of_app. right. left. }
    rewrite input_body_eq, (Hout a Hfresh), Hn. simpl.
    rewrite Hdraws, Hcur. split; [reflexivity|]. split.
    { rewrite length_app. simpl. rewrite Nat.add_1_r. reflexivity. }
    split; [rewrite length_insert; exact Hlen|]. split.
    + intros i Hi. rewrite elem_of_app, list_elem_of_singleton in Hi.
      rewrite list_lookup_insert_ne by (intros ->; tauto).
      apply Hout. tauto.
    + intros idx i m Hl Hm.
      destruct (lookup_app_Some pre [a] idx i) as [Hcases _].
      destruct (Hcases Hl) as [Hpre | [Hge Hlast]].
      * rewrite list_lookup_insert_ne.
        -- apply (Hin idx i m Hpre Hm).
        -- intros ->. apply Hfresh. apply list_elem_of_lookup. eauto.
      * destruct (idx - length pre) as [|d] eqn:Hd; [|discriminate].
        simpl in Hlast. injection Hlast as <-.
        assert (idx = length pre) as -> by lia.
        rewrite Hn in Hm. injection Hm as <-.
        apply list_lookup_insert_eq. rewrite Hlen.
        apply lookup_lt_Some in Hn. exact Hn.
Qed.

(** ** One layer step, unit by unit *)

Lemma currentLayerNeurons_valid (ns : list Neuron.t) (layerIdx i : nat) :
  i ∈ currentLayerNeurons ns layerIdx -> is_Some (ns !! i).
Proof.
  intros Hi. apply elem_of_currentLayerNeurons in Hi as (n & Hn & _). eauto.
Qed.

Lemma summed_same_layer (layerIdx : nat) (ns : list Neuron.t)
    (cs : list Connection.t) (n : Neuron.t) :
  Neuron.layer (summed layerIdx ns cs n) = Neuron.layer n.
Proof. unfold summed. destruct (in_layer layerIdx n); reflexivity. Qed.

Lemma currentLayerNeurons_summed (layerIdx L : nat) (ns : list Neuron.t)
    (cs : list Connection.t) :
  currentLayerNeurons (map (summed layerIdx ns cs) ns) L
  = currentLayerNeurons ns L.
Proof.
  unfold currentLayerNeurons. apply refs_where_ext.
  apply Forall2_same_length_lookup_2; [apply length_map|].
  intros i n' n Hn'. rewrite lookup_map in Hn'. intros Hn.
  rewrite Hn in Hn'. injection Hn' as <-.
  unfold in_layer. rewrite summed_same_layer. reflexivity.
Qed.

(** The step of a layer above the input layer, when the layer's own units
    are still inactive. *)
Lemma hidden_step_eq (features : list N) (sparsityLevel : Q) (layerIdx : nat)
    (ns : list Neuron.t) (cs : list Connection.t) (g : RandomSource) :
  layerIdx <> 0 -> fresh_from layerIdx ns ->
  layer_step features sparsityLevel layerIdx (ns, cs, g)
  = (top_k_gate sparsityLevel (currentLayerNeurons ns layerIdx)
       (map (summed layerIdx ns cs) ns),
     map (marked layerIdx ns) cs, g).
Proof.
  intros Hl Hfresh. unfold layer_step.
  destruct (Nat.eqb_spec layerIdx 0) as [|_]; [contradiction|].
  rewrite weighted_sums_eq; [reflexivity|].
  intros n Hn Hln. apply Hfresh; [assumption | lia].
Qed.

Lemma hidden_step_units (features : list N) (sparsityLevel : Q) (layerIdx : nat)
    (ns : list Neuron.t) (cs : list Connection.t) (g : RandomSource) :
  layerIdx <> 0 -> fresh_from layerIdx ns ->
  let current := currentLayerNeurons ns layerIdx in
  let raw := map (summed layerIdx ns cs) ns in
  let k := top_k sparsityLevel (length current) in
  let ns' := (layer_step features sparsityLevel layerIdx (ns, cs, g)).1.1 in
  length ns' = length ns
  /\ (forall i n, ns !! i = Some n -> Neuron.layer n <> layerIdx ->
        ns' !! i = Some n)
  /\ (forall idx i n, ranking raw current !! idx = Some i -> raw !! i = Some n ->
        ns' !! i = Some (gated k idx n)).
Proof.
  intros Hl Hfresh current raw k ns'. subst ns' k raw current.
  rewrite hidden_step_eq by assumption. cbn [fst].
  destruct (top_k_gate_spec sparsityLevel (currentLayerNeurons ns layerIdx)
              (map (summed layerIdx ns cs) ns)) as (Hlen & Hout & Hin).
  { apply NoDup_refs_where. }
  { intros i Hi. rewrite lookup_map.
    destruct (currentLayerNeurons_valid _ _ _ Hi) as [n ->]. simpl. eauto. }
  split; [rewrite Hlen; apply length_map|]. split; [|exact Hin].
  intros i n Hn Hln. rewrite Hout.
  - rewrite lookup_map, Hn. simpl. f_equal. unfold summed, in_layer.
    destruct (Nat.eqb_spec (Neuron.layer n) layerIdx); [contradiction|reflexivity].
  - intros Hi. apply elem_of_currentLayerNeurons in Hi as (m & Hm & Hlm).
    congruence.
Qed.

Lemma input_step_units (features : list N) (sparsityLevel : Q)
    (ns : list Neuron.t) (cs : list Connection.t) (g : RandomSource) :
  let current := currentLayerNeurons ns 0 in
  let r := layer_step features sparsityLevel 0 (ns, cs, g) in
  let at_ := draw_position sparsityLevel g in
  r.1.2 = cs
  /\ draws r.2 = draws g
  /\ length r.1.1 = length ns
  /\ (forall i n, ns !! i = Some n -> Neuron.layer n <> 0 -> r.1.1 !! i = Some n)
  /\ (forall idx i n, current !! idx = Some i -> ns !! i = Some n ->
        r.1.1 !! i = Some (fed features sparsityLevel (draws g (at_ idx))
                             (draws g (S (at_ idx))) idx n)).
Proof.
  intros current r at_. subst r at_ current. unfold layer_step.
  simpl Nat.eqb. cbv iota.
  destruct (input_layer_spec features sparsityLevel
              (currentLayerNeurons ns 0) ns g)
    as (Hd & _ & Hlen & Hout & Hin).
  { apply NoDup_refs_where. }
  { apply currentLayerNeurons_valid. }
  destruct (forEach (input_body features sparsityLevel)
              (currentLayerNeurons ns 0) (ns, g))
    as [ns1 g1]. simpl in *.
  split; [reflexivity|]. split; [exact Hd|]. split; [exact Hlen|].
  split; [|exact Hin].
  intros i n Hn Hln. rewrite Hout; [exact Hn|].
  intros Hi. apply elem_of_currentLayerNeurons in Hi as (m & Hm & Hlm).
  congruence.
Qed.

Lemma same_unit_refl (n : Neuron.t) : same_unit n n.
Proof. repeat split. Qed.

Lemma same_unit_trans (n1 n2 n3 : Neuron.t) :
  same_unit n1 n2 -> same_unit n2 n3 -> same_unit n1 n3.
Proof. unfold same_unit. intuition congruence. Qed.

Lemma same_unit_summed (layerIdx : nat) (ns : list Neuron.t)
    (cs : list Connection.t) (n : Neuron.t) :
  same_unit n (summed layerIdx ns cs n).
Proof. unfold summed. destruct (in_layer layerIdx n); repeat split. Qed.

Lemma same_unit_gated (k : Z) (idx : nat) (n : Neuron.t) :
  same_unit n (gated k idx n).
Proof. unfold gated. destruct (_ && _); repeat split. Qed.

Lemma same_unit_fed (features : list N) (s r r' : Q) (idx : nat) (n : Neuron.t) :
  same_unit n (fed features s r r' idx n).
Proof. unfold fed. destruct (gt r s); repeat split. Qed.

(** A step writes the units of its own layer only, and of those only the
    flag and the activation. *)
Lemma layer_step_frame (features : list N) (sparsityLevel : Q) (layerIdx : nat)
    (ns : list Neuron.t) (cs : list Connection.t) (g : RandomSource) :
  fresh_from layerIdx ns ->
  Forall2 (step_frame layerIdx) ns
          (layer_step features sparsityLevel layerIdx (ns, cs, g)).1.1.
Proof.
  intros Hfresh. destruct (Nat.eq_dec layerIdx 0) as [->|Hl].
  - destruct (input_step_units features sparsityLevel ns cs g)
      as (_ & _ & Hlen & Hout & Hin).
    apply Forall2_same_length_lookup_2; [symmetry; exact Hlen|].
    intros i n n' Hn Hn'. destruct (Nat.eq_dec (Neuron.layer n) 0) as [Hz|Hz].
    + assert (Hi : i ∈ currentLayerNeurons ns 0)
        by (apply elem_of_currentLayerNeurons; eauto).
      apply list_elem_of_lookup in Hi as [idx Hidx].
      rewrite (Hin idx i n Hidx Hn) in Hn'. injection Hn' as <-.
      split; [apply same_unit_fed | intros; contradiction].
    + rewrite (Hout i n Hn Hz) in Hn'. injection Hn' as <-.
      split; [apply same_unit_refl | reflexivity].
  - destruct (hidden_step_units features sparsityLevel layerIdx ns cs g Hl Hfresh)
      as (Hlen & Hout & Hin).
    apply Forall2_same_length_lookup_2; [symmetry; exact Hlen|].
    intros i n n' Hn Hn'.
    destruct (Nat.eq_dec (Neuron.layer n) layerIdx) as [Hz|Hz].
    + assert (Hi : i ∈ currentLayerNeurons ns layerIdx)
        by (apply elem_of_currentLayerNeurons; eauto).
      rewrite <- (ranking_Permutation (map (summed layerIdx ns cs) ns)) in Hi.
      apply list_elem_of_lookup in Hi as [idx Hidx].
      rewrite (Hin idx i (summed layerIdx ns cs n) Hidx) in Hn'
        by (rewrite lookup_map, Hn; reflexivity).
      injection Hn' as <-.
      split; [|intros; contradiction].
      eapply same_unit_trans; [apply same_unit_summed | apply same_unit_gated].
    + rewrite (Hout i n Hn Hz) in Hn'. injection Hn' as <-.
      split; [apply same_unit_refl | reflexivity].
Qed.

Lemma layer_step_fresh (features : list N) (sparsityLevel : Q) (layerIdx : nat)
    (ns : list Neuron.t) (cs : list Connection.t) (g : RandomSource) :
  fresh_from layerIdx ns ->
  fresh_from (S layerIdx)
             (layer_step features sparsityLevel layerIdx (ns, cs, g)).1.1.
Proof.
  intros Hfresh n' Hn' Hl.
  pose proof (layer_step_frame features sparsityLevel layerIdx ns cs g Hfresh)
    as Hframe.
  apply list_elem_of_lookup in Hn' as [i Hi].
  destruct (Forall2_lookup_r _ _ _ _ _ Hframe Hi) as (n & Hn & (_ & _ & _ & Hlay) & Hsame).
  rewrite (Hsame ltac:(lia)). apply Hfresh; [|lia].
  apply list_elem_of_lookup. eauto.
Qed.

Lemma reset_state_fresh (c : Component) : fresh_from 0 (reset_state c).1.1.
Proof.
  intros n Hn _. simpl in Hn. apply elem_of_map in Hn as (m & -> & _).
  reflexivity.
Qed.

Lemma forward_fresh (features : list N) (sparsityLevel : Q)
    (st : list Neuron.t * list Connection.t * RandomSource) (j : nat) :
  fresh_from 0 st.1.1 ->
  fresh_from j (forward features sparsityLevel j st).1.1.
Proof.
  intros H0. induction j as [|j IH]; [exact H0|]. simpl.
  destruct (forward features sparsityLevel j st) as [[ns cs] g].
  apply layer_step_fresh, IH.
Qed.

(** Between two points of the loop, a unit below the later layers keeps its
    whole state, and every unit keeps its name, place and layer. *)
Lemma forward_frame (features : list N) (sparsityLevel : Q)
    (st : list Neuron.t * list Connection.t * RandomSource) (j d : nat) :
  fresh_from 0 st.1.1 ->
  Forall2 (fun n n' => same_unit n n' /\ (Neuron.layer n < j -> n' = n))
          (forward features sparsityLevel j st).1.1
          (forward features sparsityLevel (d + j) st).1.1.
Proof.
  intros H0. induction d as [|d IH].
  - simpl. apply Forall2_same_length_lookup_2; [reflexivity|].
    intros i n n' Hn Hn'. rewrite Hn in Hn'. injection Hn' as <-.
    split; [apply same_unit_refl | reflexivity].
  - simpl.
    pose proof (forward_fresh features sparsityLevel st (d + j) H0) as Hf.
    destruct (forward features sparsityLevel (d + j) st) as [[ns cs] g].
    pose proof (layer_step_frame features sparsityLevel (d + j) ns cs g Hf)
      as Hstep.
    simpl in IH.
    apply Forall2_same_length_lookup_2.
    { apply Forall2_length in IH, Hstep. congruence. }
    intros i n n'' Hn Hn''.
    destruct (Forall2_lookup_l _ _ _ _ _ IH Hn) as (n' & Hn' & Hu1 & Hs1).
    pose proof (Forall2_lookup_lr _ _ _ _ _ _ Hstep Hn' Hn'') as [Hu2 Hs2].
    split; [eapply same_unit_trans; eassumption|].
    intros Hlt. rewrite <- (Hs1 Hlt). apply Hs2.
    destruct Hu1 as (_ & _ & _ & Hlay). rewrite Hlay. lia.
Qed.

(** ** The run as a whole *)

(** An accepted call publishes the reset state and then, timer after timer,
    the state after each of the six layers; after the seventh timer the
    component is idle again. *)
Lemma run_eq (toLowerCase : jsstring -> jsstring) (text : jsstring)
    (c : Component) :
  text <> [] -> isProcessing c = false ->
  let fs := tokenize toLowerCase text in
  let st0 := reset_state c in
  let st6 := forward fs (sparsityLevel c) 6 st0 in
  run toLowerCase text c
  = ({| neurons := st6.1.1;
        connections := st6.1.2;
        sparsityLevel := sparsityLevel c;
        isProcessing := false;
        stats := final_stats st6.1.1;
        pending := None;
        random := st6.2 |},
     {| phase := Reset; shown_neurons := st0.1.1; shown_connections := st0.1.2 |}
     :: map (snapshot_of fs (sparsityLevel c) st0) (seq 0 6)).
Proof.
  intros Htext Hidle fs st0 st6. subst st6.
  unfold run, processInput, snapshot_of.
  destruct text as [|u text]; [contradiction|]. fold fs.
  cbn [is_empty orb]. rewrite Hidle. cbv iota.
  cbn [forward map seq]. fold st0.
  unfold resumes, resume.
  cbn [pending layerIdx features task_sparsity updatedNeurons
       updatedConnections random sparsityLevel isProcessing stats
       neurons connections Nat.ltb Nat.leb].
  change (map reset_neuron (neurons c),
          map (Connection.set_active false) (connections c), random c)
    with st0.
  destruct (layer_step fs (sparsityLevel c) 0 st0) as [[ns1 cs1] g1].
  cbn [pending layerIdx features task_sparsity updatedNeurons
       updatedConnections random sparsityLevel isProcessing stats
       neurons connections Nat.ltb Nat.leb].
  destruct (layer_step fs (sparsityLevel c) 1 _) as [[ns2 cs2] g2].
  cbn [pending layerIdx features task_sparsity updatedNeurons
       updatedConnections random sparsityLevel isProcessing stats
       neurons connections Nat.ltb Nat.leb].
  destruct (layer_step fs (sparsityLevel c) 2 _) as [[ns3 cs3] g3].
  cbn [pending layerIdx features task_sparsity updatedNeurons
       updatedConnections random sparsityLevel isProcessing stats
       neurons connections Nat.ltb Nat.leb].
  destruct (layer_step fs (sparsityLevel c) 3 _) as [[ns4 cs4] g4].
  cbn [pending layerIdx features task_sparsity updatedNeurons
       updatedConnections random sparsityLevel isProcessing stats
       neurons connections Nat.ltb Nat.leb].
  destruct (layer_step fs (sparsityLevel c) 4 _) as [[ns5 cs5] g5].
  cbn [pending layerIdx features task_sparsity updatedNeurons
       updatedConnections random sparsityLevel isProcessing stats
       neurons connections Nat.ltb Nat.leb].
  destruct (layer_step fs (sparsityLevel c) 5 _) as [[ns6 cs6] g6].
  reflexivity.
Qed.

Lemma run_snapshots (toLowerCase : jsstring -> jsstring) (text : jsstring)
    (c : Component) :
  text <> [] -> isProcessing c = false ->
  snapshots (run toLowerCase text c).2
  = map (snapshot_of (tokenize toLowerCase text) (sparsityLevel c) (reset_state c))
        (seq 0 6).
Proof.
  intros Htext Hidle. rewrite (run_eq toLowerCase text c Htext Hidle).
  reflexivity.
Qed.

Lemma snapshots_lookup (toLowerCase : jsstring -> jsstring) (text : jsstring)
    (c : Component) (j : nat) (p : Published) :
  text <> [] -> isProcessing c = false ->
  snapshots (run toLowerCase text c).2 !! j = Some p ->
  j < 6
  /\ p = snapshot_of (tokenize toLowerCase text) (sparsityLevel c) (reset_state c) j.
Proof.
  intros Htext Hidle. rewrite (run_snapshots toLowerCase text c Htext Hidle).
  rewrite lookup_map. intros Hp.
  destruct (seq 0 6 !! j) as [j'|] eqn:E; [|discriminate].
  apply lookup_seq in E as [-> Hlt]. injection Hp as <-. split; [lia|reflexivity].
Qed.

Lemma sample_source_unit_interval : unit_interval sample_source.
Proof.
  intros n. unfold sample_source, Qle, Qlt. simpl.
  pose proof (Nat.mod_upper_bound (n * 37 + 11) 100 ltac:(lia)). lia.
Qed.

(** C4: a run with non-empty input, started while no run is in progress,
    yields exactly one snapshot per layer (six), in layer order: the
    snapshot at position [j] is published by the iteration of layer [j] and
    holds the state after layers [0..j]; the component is idle afterwards. *)
Theorem run_yields_one_snapshot_per_layer (toLowerCase : jsstring -> jsstring)
    (text : jsstring) (c : Component) :
  text <> [] -> isProcessing c = false ->
  let out := (run toLowerCase text c).2 in
  length (snapshots out) = length layers
  /\ map phase (snapshots out) = map Layer (seq 0 6)
  /\ (forall j p, snapshots out !! j = Some p ->
        (shown_neurons p, shown_connections p)
        = (forward (tokenize toLowerCase text) (sparsityLevel c) (S j)
             (reset_state c)).1)
  /\ isProcessing (run toLowerCase text c).1 = false
  /\ pending (run toLowerCase text c).1 = None.
Proof.
  intros Htext Hidle out. subst out.
  rewrite (run_snapshots toLowerCase text c Htext Hidle).
  split; [reflexivity|]. split; [reflexivity|]. split.
  - intros j p Hp. rewrite lookup_map in Hp.
    destruct (seq 0 6 !! j) as [j'|] eqn:E; [|discriminate].
    apply lookup_seq in E as [-> _]. injection Hp as <-.
    unfold snapshot_of. simpl.
    destruct (layer_step _ _ j _) as [[ns cs] g]. reflexivity.
  - rewrite (run_eq toLowerCase text c Htext Hidle). split; reflexivity.
Qed.

Lemma run_yields_one_snapshot_per_layer_witness :
  length (snapshots (run latin_toLowerCase sample_text sample_component).2)
  = length layers.
Proof.
  apply (run_yields_one_snapshot_per_layer latin_toLowerCase sample_text
           sample_component);
    [discriminate | reflexivity].
Defined.

Lemma resume_in_flight (c : Component) (t : Task) :
  pending c = Some t -> layerIdx t < 6 ->
  isProcessing (resume c).1 = isProcessing c
  /\ exists t', pending (resume c).1 = Some t' /\ layerIdx t' = S (layerIdx t).
Proof.
  intros Hp Hlt. unfold resume. rewrite Hp.
  destruct (Nat.ltb_spec (layerIdx t) 6) as [_|]; [|lia].
  destruct (layer_step _ _ _ _) as [[ns cs] g]. simpl. eauto.
Qed.

Lemma resumes_in_flight (n : nat) :
  forall (c : Component) (t : Task),
    pending c = Some t -> layerIdx t + n <= 6 ->
    isProcessing (resumes n c).1 = isProcessing c.
Proof.
  induction n as [|n IH]; intros c t Hp Hle; [reflexivity|].
  destruct (resume_in_flight c t Hp ltac:(lia)) as (Hproc & t' & Hp' & Hl').
  simpl. destruct (resume c) as [c1 out1]. simpl in *.
  specialize (IH c1 t' Hp' ltac:(lia)).
  destruct (resumes n c1) as [c2 out2]. simpl in *. congruence.
Qed.

Lemma in_flight_isProcessing (toLowerCase : jsstring -> jsstring) (c : Component) :
  in_flight toLowerCase c -> isProcessing c = true.
Proof.
  intros (c0 & text0 & n & Htext & Hidle & Hn & ->).
  unfold processInput. destruct text0 as [|u text0]; [contradiction|].
  cbn [is_empty orb]. rewrite Hidle. cbv iota. cbn [fst].
  erewrite resumes_in_flight; [reflexivity | reflexivity | simpl; lia].
Qed.

(** C5: a call with empty text, or a call made while a run is in flight, is
    a no-op: it publishes nothing, leaves the component (units, connections,
    flags, the suspended run and the random source) as it was, and the run
    in flight continues exactly as it would have. *)
Theorem ignored_call_is_noop (toLowerCase : jsstring -> jsstring)
    (text : jsstring) (c : Component) :
  text = [] \/ in_flight toLowerCase c ->
  processInput toLowerCase text c = (c, [])
  /\ forall n, resumes n (processInput toLowerCase text c).1 = resumes n c.
Proof.
  intros H.
  assert (E : processInput toLowerCase text c = (c, [])).
  { unfold processInput. destruct H as [-> | H]; [reflexivity|].
    rewrite (in_flight_isProcessing toLowerCase c H), orb_true_r. reflexivity. }
  split; [exact E|]. intros n. rewrite E. reflexivity.
Qed.

Lemma ignored_call_is_noop_witness :
  let c := (resumes 3 (processInput latin_toLowerCase sample_text
                         sample_component).1).1 in
  processInput latin_toLowerCase sample_text c = (c, []).
Proof.
  intros c.
  refine (proj1 (ignored_call_is_noop latin_toLowerCase sample_text c _)).
  right. exists sample_component, sample_text, 3.
  split; [discriminate|]. split; [reflexivity|].
  split; [apply le_S, le_S, le_S, le_n | reflexivity].
Defined.

(** C10: within a run, the step of a layer writes the units of that layer
    only; so once the snapshot of layer [j] is out, every unit of layers
    [0..j] has the same flag and activation (the same state altogether) in
    every later snapshot, the final one included. *)
Theorem earlier_layers_are_frozen (toLowerCase : jsstring -> jsstring)
    (text : jsstring) (c : Component) :
  text <> [] -> isProcessing c = false ->
  let snaps := snapshots (run toLowerCase text c).2 in
  (forall j prev p i n,
     snaps !! j = Some prev -> snaps !! (S j) = Some p ->
     shown_neurons prev !! i = Some n -> Neuron.layer n <> S j ->
     shown_neurons p !! i = Some n)
  /\ (forall j j' pj pj' i n,
        j <= j' -> snaps !! j = Some pj -> snaps !! j' = Some pj' ->
        shown_neurons pj !! i = Some n -> Neuron.layer n <= j ->
        shown_neurons pj' !! i = Some n).
Proof.
  intros Htext Hidle snaps. subst snaps.
  set (fs := tokenize toLowerCase text). set (s := sparsityLevel c).
  assert (Hlater : forall j j' pj pj' i n,
    j <= j' ->
    snapshots (run toLowerCase text c).2 !! j = Some pj ->
    snapshots (run toLowerCase text c).2 !! j' = Some pj' ->
    shown_neurons pj !! i = Some n ->
    shown_neurons pj' !! i
    = Some n \/ S j <= Neuron.layer n).
  { intros j j' pj pj' i n Hle Hj Hj' Hn.
    apply (snapshots_lookup _ _ _ _ _ Htext Hidle) in Hj as [_ ->].
    apply (snapshots_lookup _ _ _ _ _ Htext Hidle) in Hj' as [_ ->].
    unfold snapshot_of in *. cbn [shown_neurons] in *. fold fs s in Hn |- *.
    pose proof (forward_frame fs s (reset_state c) (S j) (j' - j)
                  (reset_state_fresh c)) as Hframe.
    replace (j' - j + S j) with (S j') in Hframe by lia.
    destruct (Forall2_lookup_l _ _ _ _ _ Hframe Hn) as (n' & Hn' & _ & Hsame).
    destruct (le_lt_dec (S j) (Neuron.layer n)) as [Hge|Hlt]; [right; exact Hge|].
    left. rewrite Hn'. f_equal. apply Hsame. exact Hlt. }
  split.
  - intros j prev p i n Hprev Hp Hn Hlay.
    apply (snapshots_lookup _ _ _ _ _ Htext Hidle) in Hprev as [_ ->].
    apply (snapshots_lookup _ _ _ _ _ Htext Hidle) in Hp as [_ ->].
    unfold snapshot_of in *. cbn [shown_neurons] in *. fold fs s in Hn |- *.
    pose proof (forward_fresh fs s (reset_state c) (S j) (reset_state_fresh c))
      as Hfresh.
    cbn [forward] in Hn, Hfresh |- *.
    destruct (layer_step fs s j _) as [[ns cs] g]. cbn [fst] in *.
    pose proof (layer_step_frame fs s (S j) ns cs g Hfresh) as Hframe.
    destruct (Forall2_lookup_l _ _ _ _ _ Hframe Hn) as (n' & Hn' & _ & Hsame).
    rewrite Hn'. f_equal. apply Hsame. exact Hlay.
  - intros j j' pj pj' i n Hle Hj Hj' Hn Hlay.
    destruct (Hlater j j' pj pj' i n Hle Hj Hj' Hn) as [H|H]; [exact H | lia].
Qed.


Lemma earlier_layers_are_frozen_witness :
  shown_neurons (sample_snapshot 5) !! 1 = Some (sample_unit 0 1).
Proof.
  refine (proj2 (earlier_layers_are_frozen latin_toLowerCase sample_text
                   sample_component _ _)
            0 5 (sample_snapshot 0) (sample_snapshot 5) 1 (sample_unit 0 1)
            _ _ _ _ _).
  - discriminate.
  - reflexivity.
  - apply Nat.le_0_l.
  - vm_compute. reflexivity.
  - vm_compute. reflexivity.
  - vm_compute. reflexivity.
  - vm_compute. apply Nat.le_0_l.
Defined.

(** ** Activations of active units *)

Lemma gt_true (a b : Q) : gt a b = true <-> (b < a)%Q.
Proof.
  unfold gt. rewrite negb_true_iff. split.
  - intros E. apply Qnot_le_lt. intros Hle.
    apply Qle_bool_iff in Hle. congruence.
  - intros Hlt. destruct (Qle_bool a b) eqn:E; [|reflexivity].
    apply Qle_bool_iff in E. exfalso. exact (Qlt_not_le _ _ Hlt E).
Qed.

Lemma gt_false (a b : Q) : gt a b = false <-> (a <= b)%Q.
Proof.
  unfold gt. rewrite negb_false_iff. apply Qle_bool_iff.
Qed.

Lemma featureVal_nonneg (features : list N) (idx : nat) :
  (0 <= featureVal features idx)%Q.
Proof.
  unfold featureVal, of_N, Qdiv, Qle. simpl. lia.
Qed.

Lemma fed_clamped (features : list N) (s r r' : Q) (idx : nat) (n : Neuron.t) :
  (0 <= r')%Q ->
  Neuron.active (fed features s r r' idx n) = true ->
  (0 <= Neuron.activation (fed features s r r' idx n))%Q
  /\ (Neuron.activation (fed features s r r' idx n) <= 1)%Q.
Proof.
  intros Hr. unfold fed. destruct (gt r s); [|discriminate]. intros _. simpl.
  unfold Math_min. split; [|apply Q.le_min_l].
  apply Q.min_glb; [discriminate|].
  apply Qmult_le_0_compat; [apply featureVal_nonneg|].
  apply (Qle_trans _ (1 + 0)); [discriminate|].
  apply Qplus_le_r. apply Qmult_le_0_compat; [exact Hr | discriminate].
Qed.

Lemma gated_active (k : Z) (idx : nat) (n : Neuron.t) :
  Neuron.active (gated k idx n) = true ->
  (Z.of_nat idx < k)%Z /\ (1#10 < Neuron.activation n)%Q
  /\ Neuron.activation (gated k idx n) = Math_min 1 (Neuron.activation n).
Proof.
  unfold gated.
  destruct ((Z.of_nat idx <? k)%Z && gt (Neuron.activation n) (1#10)) eqn:E;
    [|discriminate].
  apply andb_true_iff in E as [Hk Hg]. intros _.
  split; [apply Z.ltb_lt, Hk|]. split; [apply gt_true, Hg | reflexivity].
Qed.

Lemma gated_clamped (k : Z) (idx : nat) (n : Neuron.t) :
  Neuron.active (gated k idx n) = true ->
  (0 <= Neuron.activation (gated k idx n))%Q
  /\ (Neuron.activation (gated k idx n) <= 1)%Q.
Proof.
  intros H. destruct (gated_active k idx n H) as (_ & Hfloor & ->).
  unfold Math_min. split; [|apply Q.le_min_l].
  apply Q.min_glb; [discriminate|].
  apply Qlt_le_weak, (Qlt_trans _ (1#10)); [reflexivity | exact Hfloor].
Qed.

Lemma layer_step_clamped (features : list N) (sparsityLevel : Q) (layerIdx : nat)
    (ns : list Neuron.t) (cs : list Connection.t) (g : RandomSource) :
  fresh_from layerIdx ns -> unit_interval g -> clamped ns ->
  let r := layer_step features sparsityLevel layerIdx (ns, cs, g) in
  clamped r.1.1 /\ unit_interval r.2.
Proof.
  intros Hfresh Hg Hc r. subst r. destruct (Nat.eq_dec layerIdx 0) as [->|Hl].
  - destruct (input_step_units features sparsityLevel ns cs g)
      as (_ & Hd & Hlen & Hout & Hin).
    split; [|intros m; rewrite Hd; apply Hg].
    intros n' Hn' Ha. apply list_elem_of_lookup in Hn' as [i Hi].
    destruct (ns !! i) as [n|] eqn:Hn.
    2:{ apply lookup_lt_Some in Hi. apply lookup_ge_None in Hn. lia. }
    destruct (Nat.eq_dec (Neuron.layer n) 0) as [Hz|Hz].
    + assert (Hcur : i ∈ currentLayerNeurons ns 0)
        by (apply elem_of_currentLayerNeurons; eauto).
      apply list_elem_of_lookup in Hcur as [idx Hidx].
      rewrite (Hin idx i n Hidx Hn) in Hi. injection Hi as <-.
      apply fed_clamped; [apply Hg | exact Ha].
    + rewrite (Hout i n Hn Hz) in Hi. injection Hi as <-.
      apply Hc; [apply list_elem_of_lookup; eauto | exact Ha].
  - destruct (hidden_step_units features sparsityLevel layerIdx ns cs g Hl Hfresh)
      as (Hlen & Hout & Hin).
    rewrite hidden_step_eq in * by assumption. cbn [fst snd] in *.
    split; [|exact Hg].
    intros n' Hn' Ha. apply list_elem_of_lookup in Hn' as [i Hi].
    destruct (ns !! i) as [n|] eqn:Hn.
    2:{ apply lookup_lt_Some in Hi. apply lookup_ge_None in Hn. lia. }
    destruct (Nat.eq_dec (Neuron.layer n) layerIdx) as [Hz|Hz].
    + assert (Hcur : i ∈ currentLayerNeurons ns layerIdx)
        by (apply elem_of_currentLayerNeurons; eauto).
      rewrite <- (ranking_Permutation (map (summed layerIdx ns cs) ns)) in Hcur.
      apply list_elem_of_lookup in Hcur as [idx Hidx].
      rewrite (Hin idx i (summed layerIdx ns cs n) Hidx) in Hi
        by (rewrite lookup_map, Hn; reflexivity).
      injection Hi as <-. apply gated_clamped, Ha.
    + rewrite (Hout i n Hn Hz) in Hi. injection Hi as <-.
      apply Hc; [apply list_elem_of_lookup; eauto | exact Ha].
Qed.

Lemma forward_clamped (features : list N) (sparsityLevel : Q)
    (st : list Neuron.t * list Connection.t * RandomSource) (j : nat) :
  fresh_from 0 st.1.1 -> unit_interval st.2 ->
  clamped (forward features sparsityLevel j st).1.1
  /\ unit_interval (forward features sparsityLevel j st).2.
Proof.
  intros H0 Hg. induction j as [|j [IHc IHg]].
  - split; [|exact Hg]. intros n Hn Ha. rewrite (H0 n Hn) in Ha by lia.
    discriminate.
  - pose proof (forward_fresh features sparsityLevel st j H0) as Hf.
    simpl. destruct (forward features sparsityLevel j st) as [[ns cs] g].
    apply layer_step_clamped; assumption.
Qed.

(** C9: in everything a run publishes (the reset state and the six
    snapshots), a unit whose flag is set has its activation in [[0, 1]]. *)
Theorem active_units_are_clamped (toLowerCase : jsstring -> jsstring)
    (text : jsstring) (c : Component) :
  text <> [] -> isProcessing c = false -> unit_interval (random c) ->
  forall p n,
    p ∈ (run toLowerCase text c).2 -> n ∈ shown_neurons p ->
    Neuron.active n = true ->
    (0 <= Neuron.activation n)%Q /\ (Neuron.activation n <= 1)%Q.
Proof.
  intros Htext Hidle Hg p n Hp Hn Ha.
  rewrite (run_eq toLowerCase text c Htext Hidle) in Hp. cbn [snd] in Hp.
  set (fs := tokenize toLowerCase text) in *.
  apply elem_of_cons in Hp as [-> | Hp].
  - destruct (forward_clamped fs (sparsityLevel c) (reset_state c) 0
                (reset_state_fresh c) Hg) as [Hc _].
    apply (Hc n Hn Ha).
  - apply elem_of_map in Hp as (j & -> & _).
    destruct (forward_clamped fs (sparsityLevel c) (reset_state c) (S j)
                (reset_state_fresh c) Hg) as [Hc _].
    apply (Hc n Hn Ha).
Qed.

Lemma active_units_are_clamped_witness :
  (0 <= Neuron.activation (sample_unit 1 2))%Q
  /\ (Neuron.activation (sample_unit 1 2) <= 1)%Q.
Proof.
  refine (active_units_are_clamped latin_toLowerCase sample_text
            sample_component _ _ _ (sample_snapshot 1) (sample_unit 1 2) _ _ _).
  - discriminate.
  - reflexivity.
  - intros n. vm_compute draws. apply sample_source_unit_interval.
  - vm_compute. right. right. left.
  - vm_compute. do 2 right. left.
  - vm_compute. reflexivity.
Defined.

(** ** The snapshots of the layers above the input layer *)

(** The iteration of layer [S j], from the snapshot of layer [j]. *)
Lemma hidden_snapshot (fs : list N) (s : Q)
    (st0 : list Neuron.t * list Connection.t * RandomSource) (j : nat) :
  fresh_from 0 st0.1.1 ->
  let prev := forward fs s (S j) st0 in
  let next := forward fs s (S (S j)) st0 in
  let current := currentLayerNeurons prev.1.1 (S j) in
  let raw := (weighted_sums current (prev.1.1, prev.1.2)).1 in
  let k := top_k s (length current) in
  raw = map (summed (S j) prev.1.1 prev.1.2) prev.1.1
  /\ length next.1.1 = length prev.1.1
  /\ (forall i n, prev.1.1 !! i = Some n -> Neuron.layer n <> S j ->
        next.1.1 !! i = Some n)
  /\ (forall idx i n, ranking raw current !! idx = Some i -> raw !! i = Some n ->
        next.1.1 !! i = Some (gated k idx n))
  /\ next.1.2 = map (marked (S j) prev.1.1) prev.1.2
  /\ fresh_from (S j) prev.1.1
  /\ next.1.1 = top_k_gate s current raw.
Proof.
  intros H0 prev next current raw k.
  pose proof (forward_fresh fs s st0 (S j) H0) as Hfresh. fold prev in Hfresh.
  assert (Hnext : next = layer_step fs s (S j) prev) by reflexivity.
  clearbody prev next. subst next.
  assert (Hraw : raw = map (summed (S j) prev.1.1 prev.1.2) prev.1.1).
  { subst raw current. destruct prev as [[ns cs] g]. cbn [fst snd] in *.
    rewrite weighted_sums_eq; [reflexivity|].
    intros n Hn Hl. apply Hfresh; [exact Hn | lia]. }
  split; [exact Hraw|].
  rewrite Hraw. subst k current. clear Hraw raw.
  destruct prev as [[ns cs] g]. cbn [fst snd] in *.
  destruct (hidden_step_units fs s (S j) ns cs g ltac:(lia) Hfresh)
    as (Hlen & Hout & Hin).
  split; [exact Hlen|]. split; [exact Hout|]. split; [exact Hin|].
  rewrite hidden_step_eq by (lia || assumption).
  split; [reflexivity|]. split; [exact Hfresh | reflexivity].
Qed.

Lemma top_k_nonneg (s : Q) (size : nat) : (s <= 1)%Q -> (0 <= top_k s size)%Z.
Proof.
  intros Hs. unfold top_k, Math_ceil.
  change 0%Z with (Qceiling 0). apply Qceiling_resp_le.
  apply Qmult_le_0_compat.
  - unfold of_nat, Qle. simpl. lia.
  - apply (Qplus_le_l _ _ s). ring_simplify. exact Hs.
Qed.

Lemma gated_inactive (k : Z) (idx : nat) (n : Neuron.t) :
  Neuron.active (gated k idx n) = false ->
  Neuron.activation (gated k idx n) = Neuron.activation n.
Proof.
  unfold gated. destruct (_ && _); [discriminate | reflexivity].
Qed.

Lemma gated_rejects (k : Z) (idx : nat) (n : Neuron.t) :
  (k <= Z.of_nat idx)%Z \/ (Neuron.activation n <= 1#10)%Q ->
  Neuron.active (gated k idx n) = false.
Proof.
  intros H. destruct (Neuron.active (gated k idx n)) eqn:E; [|reflexivity].
  apply gated_active in E as (Hk & Hfloor & _). destruct H as [H|H].
  - lia.
  - exfalso. exact (Qlt_not_le _ _ Hfloor H).
Qed.

(** C1: in the snapshot of a layer above the input layer, with [raw] the
    state of the layer after its sums and before the gate, [ranked] the
    layer's units by decreasing raw activation and
    [k = ceil(layerSize * (1 - sparsityLevel))]: at most [k] units of the
    layer are active; an active unit has a raw activation above [0.1] (and
    holds it clamped to [1]); a unit ranked at [k] or beyond, or with raw
    activation at most [0.1], is inactive; an inactive unit holds its raw
    activation. *)
Theorem top_k_gate_bounds (toLowerCase : jsstring -> jsstring)
    (text : jsstring) (c : Component) :
  text <> [] -> isProcessing c = false -> (sparsityLevel c <= 1)%Q ->
  forall j prev p,
    snapshots (run toLowerCase text c).2 !! j = Some prev ->
    snapshots (run toLowerCase text c).2 !! (S j) = Some p ->
    let current := currentLayerNeurons (shown_neurons prev) (S j) in
    let raw := (weighted_sums current
                  (shown_neurons prev, shown_connections prev)).1 in
    let ranked := ranking raw current in
    let k := top_k (sparsityLevel c) (length current) in
    ranked ≡ₚ current
    /\ StronglySorted (ranks_before raw) ranked
    /\ (Z.of_nat (length (List.filter
                            (fun n => in_layer (S j) n && Neuron.active n)
                            (shown_neurons p))) <= k)%Z
    /\ (forall idx i n, ranked !! idx = Some i -> raw !! i = Some n ->
          exists n', shown_neurons p !! i = Some n'
            /\ (Neuron.active n' = true ->
                  (Z.of_nat idx < k)%Z /\ (1#10 < Neuron.activation n)%Q
                  /\ Neuron.activation n' = Math_min 1 (Neuron.activation n))
            /\ ((k <= Z.of_nat idx)%Z \/ (Neuron.activation n <= 1#10)%Q ->
                  Neuron.active n' = false)
            /\ (Neuron.active n' = false ->
                  Neuron.activation n' = Neuron.activation n)).
Proof.
  intros Htext Hidle Hs j prev p Hprev Hp.
  apply (snapshots_lookup _ _ _ _ _ Htext Hidle) in Hprev as [_ ->].
  apply (snapshots_lookup _ _ _ _ _ Htext Hidle) in Hp as [_ ->].
  set (fs := tokenize toLowerCase text). set (s := sparsityLevel c) in *.
  unfold snapshot_of. cbv zeta. cbn [shown_neurons shown_connections].
  destruct (hidden_snapshot fs s (reset_state c) j (reset_state_fresh c))
    as (Hraw & Hlen & Hout & Hin & _ & _).
  set (prev := forward fs s (S j) (reset_state c)) in *.
  set (next := forward fs s (S (S j)) (reset_state c)) in *.
  set (current := currentLayerNeurons prev.1.1 (S j)) in *.
  set (raw := (weighted_sums current (prev.1.1, prev.1.2)).1) in *.
  set (k := top_k s (length current)) in *.
  split; [apply ranking_Permutation|]. split; [apply ranking_sorted|].
  split.
  - rewrite <- length_refs_where.
    assert (Hk : (0 <= k)%Z) by (apply top_k_nonneg, Hs).
    transitivity (Z.of_nat (length (take (Z.to_nat k) (ranking raw current)))).
    2:{ rewrite length_take. lia. }
    apply inj_le, submseteq_length, NoDup_submseteq; [apply NoDup_refs_where|].
    intros i Hi. apply elem_of_refs_where in Hi as (n' & Hn' & Hact).
    apply andb_true_iff in Hact as [Hlay Hact].
    apply Nat.eqb_eq in Hlay.
    destruct (prev.1.1 !! i) as [n|] eqn:Hn.
    2:{ apply lookup_lt_Some in Hn'. apply lookup_ge_None in Hn. lia. }
    destruct (Nat.eq_dec (Neuron.layer n) (S j)) as [Hz|Hz].
    2:{ rewrite (Hout i n Hn Hz) in Hn'. congruence. }
    assert (Hcur : i ∈ current) by (apply elem_of_currentLayerNeurons; eauto).
    rewrite <- (ranking_Permutation raw) in Hcur.
    apply list_elem_of_lookup in Hcur as [idx Hidx].
    assert (Hr : raw !! i = Some (summed (S j) prev.1.1 prev.1.2 n))
      by (rewrite Hraw, lookup_map, Hn; reflexivity).
    rewrite (Hin idx i _ Hidx Hr) in Hn'. injection Hn' as <-.
    apply gated_active in Hact as (Hlt & _ & _).
    apply elem_of_take. exists idx. split; [exact Hidx | lia].
  - intros idx i n Hidx Hr. exists (gated k idx n).
    split; [apply (Hin idx i n Hidx Hr)|].
    split; [apply gated_active|]. split; [apply gated_rejects|].
    apply gated_inactive.
Qed.

Lemma top_k_gate_bounds_witness :
  (Z.of_nat (length (List.filter
                       (fun n => in_layer 2 n && Neuron.active n)
                       (shown_neurons (sample_snapshot 2))))
   <= top_k (sparsityLevel sample_component)
        (length (currentLayerNeurons (shown_neurons (sample_snapshot 1)) 2)))%Z.
Proof.
  refine (proj1 (proj2 (proj2
            (top_k_gate_bounds latin_toLowerCase sample_text sample_component
               _ _ _ 1 (sample_snapshot 1) (sample_snapshot 2) _ _)))).
  - discriminate.
  - reflexivity.
  - discriminate.
  - vm_compute. reflexivity.
  - vm_compute. reflexivity.
Defined.

(** C7: in the iteration of a layer above the input layer, the first loop
    stores in every unit of the layer the value [max(0, sum)], where [sum]
    adds [source.activation * weight] over exactly the incoming connections
    of the unit whose source is active in the preceding snapshot, with the
    source read from that snapshot; the gate is applied afterwards, to the
    state that holds these raw values.  A raw value can exceed [1]: in the
    run of the second sample the unit of layer 1 gets [1.8]. *)
Theorem raw_activation_is_rectified_sum :
  (forall (toLowerCase : jsstring -> jsstring) (text : jsstring) (c : Component),
     text <> [] -> isProcessing c = false ->
     forall j prev p,
       snapshots (run toLowerCase text c).2 !! j = Some prev ->
       snapshots (run toLowerCase text c).2 !! (S j) = Some p ->
       let current := currentLayerNeurons (shown_neurons prev) (S j) in
       let raw := (weighted_sums current
                     (shown_neurons prev, shown_connections prev)).1 in
       (forall i n,
          shown_neurons prev !! i = Some n -> Neuron.layer n = S j ->
          raw !! i
          = Some (Neuron.set_activation
                    (Math_max 0 (weighted_sum (shown_neurons prev)
                                   (shown_connections prev) (Neuron.id n))) n))
       /\ shown_neurons p = top_k_gate (sparsityLevel c) current raw)
  /\ (exists n,
        let prev := snapshot_of (tokenize latin_toLowerCase [97%N])
                      (sparsityLevel dense_component)
                      (reset_state dense_component) 0 in
        (weighted_sums (currentLayerNeurons (shown_neurons prev) 1)
           (shown_neurons prev, shown_connections prev)).1 !! 2 = Some n
        /\ (1 < Neuron.activation n)%Q).
Proof.
  split.
  - intros toLowerCase text c Htext Hidle j prev p Hprev Hp.
    apply (snapshots_lookup _ _ _ _ _ Htext Hidle) in Hprev as [_ ->].
    apply (snapshots_lookup _ _ _ _ _ Htext Hidle) in Hp as [_ ->].
    set (fs := tokenize toLowerCase text). set (s := sparsityLevel c) in *.
    unfold snapshot_of. cbv zeta. cbn [shown_neurons shown_connections].
    destruct (hidden_snapshot fs s (reset_state c) j (reset_state_fresh c))
      as (Hraw & _ & _ & _ & _ & _ & Hgate).
    split; [|exact Hgate].
    intros i n Hn Hl. rewrite Hraw, lookup_map, Hn. simpl. f_equal.
    unfold summed, in_layer. rewrite Hl, Nat.eqb_refl. reflexivity.
  - eexists. split; [vm_compute; reflexivity|]. reflexivity.
Qed.

Lemma raw_activation_is_rectified_sum_witness :
  shown_neurons (sample_snapshot 2)
  = top_k_gate (sparsityLevel sample_component)
      (currentLayerNeurons (shown_neurons (sample_snapshot 1)) 2)
      (weighted_sums (currentLayerNeurons (shown_neurons (sample_snapshot 1)) 2)
         (shown_neurons (sample_snapshot 1),
          shown_connections (sample_snapshot 1))).1.
Proof.
  refine (proj2 (proj1 raw_activation_is_rectified_sum
                   latin_toLowerCase sample_text sample_component _ _
                   1 (sample_snapshot 1) (sample_snapshot 2) _ _)).
  - discriminate.
  - reflexivity.
  - vm_compute. reflexivity.
  - vm_compute. reflexivity.
Defined.

(** ** The snapshot of the input layer *)

Lemma currentLayerNeurons_reset (ns : list Neuron.t) (layerIdx : nat) :
  currentLayerNeurons (map reset_neuron ns) layerIdx
  = currentLayerNeurons ns layerIdx.
Proof.
  unfold currentLayerNeurons. apply refs_where_ext.
  apply Forall2_same_length_lookup_2; [apply length_map|].
  intros i n' n Hn' Hn. rewrite lookup_map, Hn in Hn'. injection Hn' as <-.
  reflexivity.
Qed.

(** The draws of one unit come before the draws of every later unit. *)
Lemma draw_position_fresh (s : Q) (g : RandomSource) (idx idx' : nat) :
  idx < idx' ->
  (if gt (draws g (draw_position s g idx)) s
   then S (draw_position s g idx) else draw_position s g idx)
  < draw_position s g idx'.
Proof.
  induction idx' as [|idx' IH]; [lia|]. intros Hlt.
  assert (Hmono : draw_position s g idx' < draw_position s g (S idx')).
  { cbn [draw_position].
    destruct (gt (draws g (draw_position s g idx')) s); lia. }
  destruct (Nat.eq_dec idx idx') as [->|Hne].
  - cbn [draw_position].
    destruct (gt (draws g (draw_position s g idx')) s); lia.
  - specialize (IH ltac:(lia)). lia.
Qed.

Lemma length_tokenize (toLowerCase : jsstring -> jsstring) (text : jsstring) :
  length (tokenize toLowerCase text) = length (toLowerCase text).
Proof. unfold tokenize, split_chars. rewrite !length_map. reflexivity. Qed.

(** C2: in the snapshot of the input layer, the unit at position [idx] of
    the layer has [featureVal = features[idx mod len(features)] / 128]; it is
    active iff its gate draw [r] exceeds [sparsityLevel]; if active its
    activation is [min(1, featureVal * (1 + r' * 0.5))] for the next draw
    [r'], otherwise [featureVal].  Each unit reads its own draws: those of a
    unit precede those of every later unit in the random source. *)
Theorem input_layer_step (toLowerCase : jsstring -> jsstring)
    (text : jsstring) (c : Component) :
  (forall s, s <> [] -> toLowerCase s <> []) ->
  text <> [] -> isProcessing c = false ->
  forall p, snapshots (run toLowerCase text c).2 !! 0 = Some p ->
  let features := tokenize toLowerCase text in
  let at_ := draw_position (sparsityLevel c) (random c) in
  (forall idx i,
     currentLayerNeurons (neurons c) 0 !! idx = Some i ->
     exists f n',
       features !! (idx mod length features) = Some f
       /\ shown_neurons p !! i = Some n'
       /\ let featureVal := (of_N f / 128)%Q in
          let r := draws (random c) (at_ idx) in
          let r' := draws (random c) (S (at_ idx)) in
          Neuron.active n' = gt r (sparsityLevel c)
          /\ (Neuron.active n' = true ->
                Neuron.activation n'
                = Math_min 1 (featureVal * (1 + r' * (1#2)))%Q)
          /\ (Neuron.active n' = false -> Neuron.activation n' = featureVal))
  /\ (forall idx idx', idx < idx' ->
        (if gt (draws (random c) (at_ idx)) (sparsityLevel c)
         then S (at_ idx) else at_ idx) < at_ idx').
Proof.
  intros Hlower Htext Hidle p Hp features at_.
  apply (snapshots_lookup _ _ _ _ _ Htext Hidle) in Hp as [_ ->].
  split; [|intros idx idx'; apply draw_position_fresh].
  intros idx i Hidx.
  assert (Hlen : length features <> 0).
  { subst features. rewrite length_tokenize. intros Hz.
    apply (Hlower text Htext). apply length_zero_iff_nil, Hz. }
  destruct (features !! (idx mod length features)) as [f|] eqn:Hf.
  2:{ apply lookup_ge_None in Hf.
      pose proof (Nat.mod_upper_bound idx (length features) Hlen). lia. }
  destruct (input_step_units features (sparsityLevel c)
              (map reset_neuron (neurons c))
              (map (Connection.set_active false) (connections c)) (random c))
    as (_ & _ & _ & _ & Hin).
  rewrite currentLayerNeurons_reset in Hin.
  assert (Hi : i ∈ currentLayerNeurons (neurons c) 0)
    by (apply list_elem_of_lookup; eauto).
  apply elem_of_currentLayerNeurons in Hi as (n & Hn & _).
  specialize (Hin idx i (reset_neuron n) Hidx).
  rewrite lookup_map, Hn in Hin. specialize (Hin eq_refl).
  exists f. eexists. split; [reflexivity|].
  split; [unfold snapshot_of; cbn [shown_neurons forward]; exact Hin|].
  fold at_. unfold fed, featureVal, feature_at. rewrite Hf. simpl.
  destruct (gt (draws (random c) (at_ idx)) (sparsityLevel c)); simpl.
  - split; [reflexivity|]. split; [reflexivity | discriminate].
  - split; [reflexivity|]. split; [discriminate | reflexivity].
Qed.

Lemma latin_toLowerCase_nonempty (s : jsstring) :
  s <> [] -> latin_toLowerCase s <> [].
Proof. destruct s; [contradiction | discriminate]. Qed.

Lemma input_layer_step_witness :
  exists f n',
    tokenize latin_toLowerCase sample_text !! 1 = Some f
    /\ shown_neurons (sample_snapshot 0) !! 1 = Some n'
    /\ Neuron.active n'
       = gt (draws (random sample_component)
               (draw_position (sparsityLevel sample_component)
                  (random sample_component) 1))
            (sparsityLevel sample_component).
Proof.
  destruct (proj1 (input_layer_step latin_toLowerCase sample_text
                     sample_component latin_toLowerCase_nonempty
                     ltac:(discriminate) eq_refl
                     (sample_snapshot 0) ltac:(vm_compute; reflexivity))
              1 1 ltac:(vm_compute; reflexivity))
    as (f & n' & Hf & Hn' & Hact & _).
  exists f, n'. split; [exact Hf|]. split; [exact Hn' | exact Hact].
Defined.

(** ** Connections and their sources *)

Lemma distinct_NoDup (ids : list string) : distinct ids = true -> NoDup ids.
Proof.
  induction ids as [|a ids IH]; simpl; [constructor|].
  intros H. apply andb_true_iff in H as [Ha Hd].
  constructor; [|apply IH, Hd].
  intros Hin. apply negb_true_iff in Ha.
  assert (existsb (String.eqb a) ids = true); [|congruence].
  apply existsb_exists. exists a. split; [apply list_elem_of_In, Hin|].
  apply String.eqb_refl.
Qed.

Lemma find_neuron_Some (ns : list Neuron.t) (id : string) (n : Neuron.t) :
  find_neuron ns id = Some n -> n ∈ ns /\ Neuron.id n = id.
Proof.
  intros H. apply find_some in H as [Hin Hid].
  split; [apply list_elem_of_In, Hin | apply String.eqb_eq, Hid].
Qed.

Lemma unique_by_id (ns : list Neuron.t) (n m : Neuron.t) :
  NoDup (map Neuron.id ns) -> n ∈ ns -> m ∈ ns ->
  Neuron.id n = Neuron.id m -> n = m.
Proof.
  intros Hnd Hn Hm Hid.
  apply list_elem_of_lookup in Hn as [i Hi].
  apply list_elem_of_lookup in Hm as [j Hj].
  assert (i = j) as ->; [|congruence].
  apply (NoDup_lookup (map Neuron.id ns) i j (Neuron.id n) Hnd).
  - rewrite lookup_map, Hi. reflexivity.
  - rewrite lookup_map, Hj, Hid. reflexivity.
Qed.

Lemma find_neuron_Forall2 (R : Neuron.t -> Neuron.t -> Prop)
    (ns ns' : list Neuron.t) (id : string) :
  (forall n n', R n n' -> Neuron.id n' = Neuron.id n) ->
  Forall2 R ns ns' ->
  option_Forall2 R (find_neuron ns id) (find_neuron ns' id).
Proof.
  intros Hid. induction 1 as [|n n' ns ns' Hn _ IH]; simpl; [constructor|].
  rewrite (Hid n n' Hn). destruct (String.eqb (Neuron.id n) id); [|exact IH].
  constructor. exact Hn.
Qed.

Lemma ids_same_unit (ns ns' : list Neuron.t) :
  Forall2 same_unit ns ns' -> map Neuron.id ns' = map Neuron.id ns.
Proof.
  induction 1 as [|n n' ns ns' (Hid & _) _ IH]; simpl; [reflexivity|].
  rewrite Hid, IH. reflexivity.
Qed.

Lemma wired_same (ns ns' : list Neuron.t) (c c' : Connection.t) :
  Forall2 same_unit ns ns' -> same_wiring c c' ->
  wired ns c = true -> wired ns' c' = true.
Proof.
  intros Hns (Hf & Ht & _). unfold wired. rewrite Hf, Ht.
  destruct (find_neuron_Forall2 same_unit ns ns' (Connection.from c)
              ltac:(intros ? ? (? & _); assumption) Hns)
    as [s s' (_ & _ & _ & Hls)|]; [|discriminate].
  destruct (find_neuron_Forall2 same_unit ns ns' (Connection.to c)
              ltac:(intros ? ? (? & _); assumption) Hns)
    as [t t' (_ & _ & _ & Hlt)|]; [|discriminate].
  rewrite Hls, Hlt. trivial.
Qed.

Lemma enters_layer_spec (ns : list Neuron.t) (layerIdx : nat)
    (c : Connection.t) (t : Neuron.t) :
  NoDup (map Neuron.id ns) -> find_neuron ns (Connection.to c) = Some t ->
  enters_layer ns layerIdx c = (Neuron.layer t =? layerIdx).
Proof.
  intros Hnd Ht. apply find_neuron_Some in Ht as [Hin Hid].
  unfold enters_layer.
  destruct (Nat.eqb_spec (Neuron.layer t) layerIdx) as [Hl|Hl].
  - apply existsb_exists. exists t. split; [apply list_elem_of_In, Hin|].
    unfold in_layer, incoming. rewrite Hl, Nat.eqb_refl, Hid.
    apply String.eqb_refl.
  - destruct (existsb _ ns) eqn:E; [|reflexivity]. exfalso.
    apply existsb_exists in E as (n & Hn & Hb).
    apply andb_true_iff in Hb as [Hlay Hinc].
    apply Nat.eqb_eq in Hlay. apply String.eqb_eq in Hinc.
    apply list_elem_of_In in Hn.
    assert (n = t) by (apply (unique_by_id ns); congruence). congruence.
Qed.

Lemma forward_same_unit (fs : list N) (s : Q)
    (st0 : list Neuron.t * list Connection.t * RandomSource) (j : nat) :
  fresh_from 0 st0.1.1 ->
  Forall2 same_unit st0.1.1 (forward fs s j st0).1.1.
Proof.
  intros H0. pose proof (forward_frame fs s st0 0 j H0) as H.
  rewrite Nat.add_0_r in H. simpl in H.
  eapply Forall2_impl; [|exact H]. intros n n' [Hu _]. exact Hu.
Qed.

Lemma marked_same_wiring (layerIdx : nat) (ns : list Neuron.t) (c : Connection.t) :
  same_wiring c (marked layerIdx ns c).
Proof. unfold marked. destruct (_ && _); repeat split. Qed.

Lemma forward_same_wiring (fs : list N) (s : Q)
    (st0 : list Neuron.t * list Connection.t * RandomSource) (j : nat) :
  fresh_from 0 st0.1.1 ->
  Forall2 same_wiring st0.1.2 (forward fs s j st0).1.2.
Proof.
  intros H0. induction j as [|j IH].
  - simpl. apply Forall2_same_length_lookup_2; [reflexivity|].
    intros i c c' Hc Hc'. rewrite Hc in Hc'. injection Hc' as <-. repeat split.
  - pose proof (forward_fresh fs s st0 j H0) as Hf. simpl.
    destruct (forward fs s j st0) as [[ns cs] g]. cbn [fst snd] in *.
    destruct (Nat.eq_dec j 0) as [->|Hj].
    + destruct (input_step_units fs s ns cs g) as (-> & _). exact IH.
    + rewrite hidden_step_eq by assumption. cbn [fst snd].
      apply Forall2_same_length_lookup_2.
      { rewrite length_map. apply Forall2_length in IH. exact IH. }
      intros i c0 c' Hc0 Hc'. rewrite lookup_map in Hc'.
      destruct (Forall2_lookup_l _ _ _ _ _ IH Hc0) as (c1 & Hc1 & Hw1).
      rewrite Hc1 in Hc'. injection Hc' as <-.
      destruct Hw1 as (? & ? & ?).
      destruct (marked_same_wiring j ns c1) as (? & ? & ?).
      repeat split; congruence.
Qed.

Lemma reset_same_unit (ns : list Neuron.t) :
  Forall2 same_unit ns (map reset_neuron ns).
Proof.
  apply Forall2_same_length_lookup_2; [symmetry; apply length_map|].
  intros i n n' Hn Hn'. rewrite lookup_map, Hn in Hn'. injection Hn' as <-.
  repeat split.
Qed.

Lemma Forall2_same_unit_trans (l1 l2 l3 : list Neuron.t) :
  Forall2 same_unit l1 l2 -> Forall2 same_unit l2 l3 -> Forall2 same_unit l1 l3.
Proof.
  intros H12. revert l3.
  induction H12 as [|a b l1 l2 Hab _ IH]; intros l3 H23; inversion H23; subst;
    constructor; [eapply same_unit_trans; eassumption | apply IH; assumption].
Qed.

Lemma forward_distinct (fs : list N) (s : Q) (c : Component) (m : nat) :
  well_formed (neurons c) (connections c) = true ->
  NoDup (map Neuron.id (forward fs s m (reset_state c)).1.1).
Proof.
  intros Hwf. apply andb_true_iff in Hwf as [Hdist _].
  rewrite (ids_same_unit _ _ (forward_same_unit fs s (reset_state c) m
                                (reset_state_fresh c))).
  simpl. rewrite (ids_same_unit _ _ (reset_same_unit (neurons c))).
  apply distinct_NoDup, Hdist.
Qed.

(** In every state of a run over a well-formed topology, each connection
    joins a unit to a unit of the next layer. *)
Lemma forward_wired (fs : list N) (s : Q) (c : Component) (m m' : nat)
    (c' : Connection.t) :
  well_formed (neurons c) (connections c) = true ->
  c' ∈ (forward fs s m (reset_state c)).1.2 ->
  wired (forward fs s m' (reset_state c)).1.1 c' = true.
Proof.
  intros Hwf Hc'. apply andb_true_iff in Hwf as [_ Hwired].
  set (st0 := reset_state c) in *.
  assert (H0 : fresh_from 0 st0.1.1) by apply reset_state_fresh.
  apply list_elem_of_lookup in Hc' as [i Hi].
  destruct (Forall2_lookup_r _ _ _ _ _ (forward_same_wiring fs s st0 m H0) Hi)
    as (c0 & Hc0 & Hsw).
  simpl in Hc0. rewrite lookup_map in Hc0.
  destruct (connections c !! i) as [c00|] eqn:E; [|discriminate].
  injection Hc0 as <-.
  apply (wired_same (neurons c) _ c00).
  - apply (Forall2_same_unit_trans _ _ _ (reset_same_unit (neurons c))
             (forward_same_unit fs s st0 m' H0)).
  - destruct Hsw as (? & ? & ?). repeat split; assumption.
  - rewrite forallb_forall in Hwired. apply Hwired.
    apply list_elem_of_In, list_elem_of_lookup. eauto.
Qed.

(** After every iteration, a connection is marked iff its source was active
    before the iteration. *)
Lemma edges_follow_sources (fs : list N) (s : Q) (c : Component) (j : nat) :
  well_formed (neurons c) (connections c) = true ->
  Forall (fun c' => Connection.active c'
                    = source_active (forward fs s j (reset_state c)).1.1 c')
         (forward fs s (S j) (reset_state c)).1.2.
Proof.
  intros Hwf.
  pose proof (fun m => forward_distinct fs s c m Hwf) as Hids.
  pose proof (fun m c' => forward_wired fs s c m m c' Hwf) as Hw.
  set (st0 := reset_state c) in *.
  assert (H0 : fresh_from 0 st0.1.1) by apply reset_state_fresh.
  induction j as [|j IH].
  - cbn [forward].
    destruct (input_step_units fs s st0.1.1 st0.1.2 st0.2) as (Hcs & _).
    replace (st0.1.1, st0.1.2, st0.2) with st0 in Hcs by reflexivity.
    rewrite Hcs. apply Forall_forall. intros c' Hc'.
    apply list_elem_of_In in Hc'. simpl in Hc'. apply elem_of_map in Hc' as (c0 & -> & _).
    unfold source_active. simpl.
    destruct (find_neuron _ _) as [n|] eqn:E; [|reflexivity].
    apply find_neuron_Some in E as [Hn _].
    symmetry. apply (H0 n Hn). lia.
  - pose proof (forward_fresh fs s st0 j H0) as Hfj.
    pose proof (forward_fresh fs s st0 (S j) H0) as Hfj1.
    pose proof (Hids (S j)) as Hnd. pose proof (Hw (S j)) as Hwj.
    assert (Hframe : Forall2 (step_frame j) (forward fs s j st0).1.1
                             (forward fs s (S j) st0).1.1).
    { cbn [forward]. destruct (forward fs s j st0) as [[ns cs] g].
      apply layer_step_frame, Hfj. }
    change (forward fs s (S (S j)) st0)
      with (layer_step fs s (S j) (forward fs s (S j) st0)).
    destruct (forward fs s (S j) st0) as [[ns1 cs1] g1]. cbn [fst snd] in *.
    rewrite hidden_step_eq by (lia || assumption). cbn [fst snd].
    rewrite Forall_forall in IH. apply Forall_forall. intros c' Hc'.
    apply list_elem_of_In, elem_of_map in Hc' as (c1 & -> & Hc1).
    specialize (IH c1 ltac:(apply list_elem_of_In; exact Hc1)).
    specialize (Hwj c1 Hc1).
    unfold wired in Hwj.
    destruct (find_neuron ns1 (Connection.from c1)) as [s1|] eqn:Es;
      [|discriminate].
    destruct (find_neuron ns1 (Connection.to c1)) as [t1|] eqn:Et;
      [|discriminate].
    apply Nat.eqb_eq in Hwj.
    assert (Hsrc : source_active ns1 (marked (S j) ns1 c1) = Neuron.active s1).
    { unfold source_active.
      destruct (marked_same_wiring (S j) ns1 c1) as (-> & _).
      rewrite Es. reflexivity. }
    rewrite Hsrc. unfold marked.
    rewrite (enters_layer_spec ns1 (S j) c1 t1 Hnd Et).
    unfold source_active at 1. rewrite Es.
    pose proof (find_neuron_Forall2 (step_frame j) _ _ (Connection.from c1)
                  ltac:(intros ? ? ((? & _) & _); assumption) Hframe) as Hopt.
    rewrite Es in Hopt.
    inversion Hopt as [sj s1' [(_ & _ & _ & Hlay) Hsame] Hsj Hs1 | ]; subst s1'.
    symmetry in Hsj.
    destruct (Nat.eqb_spec (Neuron.layer t1) (S j)) as [Hl|Hl].
    + destruct (Neuron.active s1) eqn:Ea; [reflexivity|]. simpl.
      rewrite IH. unfold source_active. rewrite Hsj.
      apply Hfj; [|lia]. apply find_neuron_Some in Hsj as [? _]. assumption.
    + simpl. rewrite IH. unfold source_active. rewrite Hsj.
      rewrite Hsame; [reflexivity | lia].
Qed.

Lemma publications_lookup (toLowerCase : jsstring -> jsstring) (text : jsstring)
    (c : Component) (j : nat) (p : Published) :
  text <> [] -> isProcessing c = false ->
  (run toLowerCase text c).2 !! j = Some p ->
  let st := forward (tokenize toLowerCase text) (sparsityLevel c) j
              (reset_state c) in
  j <= 6 /\ shown_neurons p = st.1.1 /\ shown_connections p = st.1.2.
Proof.
  intros Htext Hidle. rewrite (run_eq toLowerCase text c Htext Hidle).
  cbn [snd]. destruct j as [|j].
  - intros [= <-]. split; [lia|]. split; reflexivity.
  - rewrite lookup_cons, lookup_map. intros Hp.
    destruct (seq 0 6 !! j) as [j'|] eqn:E; [|discriminate].
    apply lookup_seq in E as [-> Hlt]. injection Hp as <-.
    split; [lia|]. split; reflexivity.
Qed.

(** C3: over a well-formed topology (the builder's), in every snapshot of a
    run every connection has its source unit, and its flag equals the flag
    that this unit had in what the run published just before (the snapshot
    of the layer before; the reset state for the first snapshot). *)
Theorem edge_active_iff_source_was_active (toLowerCase : jsstring -> jsstring)
    (text : jsstring) (c : Component) :
  well_formed (neurons c) (connections c) = true ->
  text <> [] -> isProcessing c = false ->
  forall j before p c',
    (run toLowerCase text c).2 !! j = Some before ->
    (run toLowerCase text c).2 !! (S j) = Some p ->
    c' ∈ shown_connections p ->
    exists src,
      find_neuron (shown_neurons before) (Connection.from c') = Some src
      /\ Connection.active c' = Neuron.active src.
Proof.
  intros Hwf Htext Hidle j before p c' Hbefore Hp Hc'.
  destruct (publications_lookup _ _ _ _ _ Htext Hidle Hbefore) as (_ & -> & _).
  destruct (publications_lookup _ _ _ _ _ Htext Hidle Hp) as (_ & _ & Hcs).
  rewrite Hcs in Hc'.
  set (fs := tokenize toLowerCase text) in *. set (s := sparsityLevel c) in *.
  pose proof (forward_wired fs s c (S j) j c' Hwf Hc') as Hwired.
  pose proof (edges_follow_sources fs s c j Hwf) as Hall.
  rewrite Forall_forall in Hall.
  specialize (Hall c' ltac:(apply list_elem_of_In; exact Hc')).
  unfold source_active in Hall. unfold wired in Hwired.
  destruct (find_neuron _ (Connection.from c')) as [src|]; [|discriminate].
  exists src. split; [reflexivity | exact Hall].
Qed.

Lemma edge_active_iff_source_was_active_witness :
  exists src,
    find_neuron (shown_neurons (sample_snapshot 1))
      (Connection.from (nth 6 (shown_connections (sample_snapshot 2))
                          (Connection.mk "" "" 0 false)))
    = Some src
    /\ Connection.active (nth 6 (shown_connections (sample_snapshot 2))
                            (Connection.mk "" "" 0 false))
       = Neuron.active src.
Proof.
  refine (edge_active_iff_source_was_active latin_toLowerCase sample_text
            sample_component _ _ _ 2 (sample_snapshot 1) (sample_snapshot 2)
            _ _ _ _).
  - vm_compute. reflexivity.
  - discriminate.
  - reflexivity.
  - vm_compute. reflexivity.
  - vm_compute. reflexivity.
  - vm_compute. do 6 right. left.
Defined.

(** ** Names of units *)

Lemma pretty_N_char_dashless (x : N) : pretty_N_char x <> "-"%char.
Proof. unfold pretty_N_char. repeat case_match; discriminate. Qed.

Lemma pretty_N_go_dashless (x : N) :
  forall s, dashless s -> dashless (pretty_N_go x s).
Proof.
  induction (N.lt_wf_0 x) as [x _ IH]. intros s Hs.
  destruct (decide (x = 0)%N) as [->|Hx]; [rewrite pretty_N_go_0; exact Hs|].
  rewrite pretty_N_go_step by lia. apply IH.
  - apply N.div_lt; lia.
  - split; [apply pretty_N_char_dashless | exact Hs].
Qed.

Lemma pretty_nat_dashless (n : nat) : dashless (pretty n).
Proof.
  unfold pretty, pretty_nat, pretty, pretty_N.
  destruct (decide (N.of_nat n = 0)%N); [simpl; split; [discriminate|exact I]|].
  apply pretty_N_go_dashless. exact I.
Qed.

Lemma split_at_dash (a a' r r' : string) :
  dashless a -> dashless a' ->
  a +:+ String "-" r = a' +:+ String "-" r' -> a = a' /\ r = r'.
Proof.
  revert a'. induction a as [|x a IH]; intros [|x' a'] Ha Ha' H; simpl in *.
  - injection H as <-. split; reflexivity.
  - injection H as <- _. destruct Ha' as [Hx _]. contradiction.
  - injection H as -> _. destruct Ha as [Hx _]. contradiction.
  - injection H as <- H. destruct Ha as [_ Ha], Ha' as [_ Ha'].
    destruct (IH a' Ha Ha' H) as [<- <-]. split; reflexivity.
Qed.

(** Different units get different names. *)
Lemma neuron_id_inj (layerIdx i layerIdx' i' : nat) :
  neuron_id layerIdx i = neuron_id layerIdx' i' ->
  layerIdx = layerIdx' /\ i = i'.
Proof.
  unfold neuron_id. intros H. simpl in H. injection H as H.
  change ("-N" +:+ pretty i) with (String "-" ("N" +:+ pretty i)) in H.
  change ("-N" +:+ pretty i') with (String "-" ("N" +:+ pretty i')) in H.
  apply split_at_dash in H as [Hl Hi]; try apply pretty_nat_dashless.
  injection Hi as Hi.
  split; [apply (inj pretty), Hl | apply (inj pretty), Hi].
Qed.

(** ** The units the builder creates *)

Lemma filter_layer_block (sp : Q) (count L L' : nat) (l : list nat) :
  List.filter (in_layer L') (map (new_neuron sp count L) l)
  = if L =? L' then map (new_neuron sp count L) l else [].
Proof.
  induction l as [|i l IH]; simpl.
  - destruct (L =? L'); reflexivity.
  - rewrite IH. unfold in_layer at 1. simpl. destruct (L =? L'); reflexivity.
Qed.

(** The units of one layer are the block created for it. *)
Lemma filter_layer_create_neurons (sp : Q) (ls : list nat) :
  forall off L,
    List.filter (in_layer L) (create_neurons sp off ls)
    = match (if off <=? L then ls !! (L - off) else None) with
      | Some count => map (new_neuron sp count L) (seq 0 count)
      | None => []
      end.
Proof.
  induction ls as [|count ls IH]; intros off L; cbn [create_neurons].
  - rewrite lookup_nil. destruct (off <=? L); reflexivity.
  - rewrite filter_app, filter_layer_block, IH.
    destruct (Nat.leb_spec (S off) L) as [Hlt|Hge];
      destruct (Nat.leb_spec off L) as [Hle|Hgt]; try lia;
      destruct (Nat.eqb_spec off L) as [Heq|Hne]; try lia.
    + replace (L - off) with (S (L - S off)) by lia. reflexivity.
    + subst off. rewrite Nat.sub_diag. apply app_nil_r.
    + reflexivity.
Qed.

Lemma elem_of_create_neurons (sp : Q) (ls : list nat) :
  forall off n,
    n ∈ create_neurons sp off ls ->
    exists k count i,
      ls !! k = Some count /\ i < count /\ n = new_neuron sp count (off + k) i.
Proof.
  induction ls as [|count ls IH]; intros off n Hn; simpl in Hn.
  - apply elem_of_nil in Hn. contradiction.
  - apply elem_of_app in Hn as [Hn|Hn].
    + apply elem_of_map in Hn as (i & -> & Hi). apply elem_of_seq in Hi.
      exists 0, count, i. rewrite Nat.add_0_r. split; [reflexivity|].
      split; [lia | reflexivity].
    + destruct (IH (S off) n Hn) as (k & count' & i & Hk & Hi & ->).
      exists (S k), count', i. split; [exact Hk|]. split; [exact Hi|].
      f_equal. lia.
Qed.

(** The builder gives every unit its own name. *)
Lemma create_neurons_distinct (sp : Q) (ls : list nat) :
  forall off, NoDup (map Neuron.id (create_neurons sp off ls)).
Proof.
  induction ls as [|count ls IH]; intros off; simpl; [constructor|].
  rewrite map_app. apply list.NoDup_app. split; [|split; [|apply IH]].
  - rewrite map_map. simpl.
    apply (NoDup_fmap_2_strong (neuron_id off) (seq 0 count)); [|apply NoDup_seq].
    intros i i' _ _ H. apply neuron_id_inj in H as [_ H]. exact H.
  - intros id Hid Hid'.
    apply elem_of_map in Hid as (n & -> & Hn).
    apply elem_of_map in Hn as (i & -> & _).
    apply elem_of_map in Hid' as (n' & Heq & Hn').
    apply elem_of_create_neurons in Hn' as (k & count' & i' & _ & _ & ->).
    simpl in Heq. apply neuron_id_inj in Heq as [Heq _]. lia.
Qed.

(** ** The connections the builder creates *)

Lemma insert_random_draws (a : Neuron.t) (l : list Neuron.t) (g : RandomSource) :
  draws (insert_sorted random_order a l g).2 = draws g.
Proof.
  revert g. induction l as [|b l IH]; intros g; simpl; [reflexivity|].
  destruct (Qle_bool _ 0); [reflexivity|].
  specialize (IH {| draws := draws g; cursor := S (cursor g) |}).
  destruct (insert_sorted random_order a l _) as [r g2]. exact IH.
Qed.

Lemma sort_random_draws (l : list Neuron.t) (g : RandomSource) :
  draws (Array_sort random_order l g).2 = draws g.
Proof.
  induction l as [|a l IH]; simpl; [reflexivity|].
  destruct (Array_sort random_order l g) as [sorted g1]. simpl in IH.
  rewrite insert_random_draws. exact IH.
Qed.

Lemma weight_in_range (r : Q) :
  (0 <= r)%Q /\ (r < 1)%Q -> (-1 <= r * 2 - 1)%Q /\ (r * 2 - 1 <= 1)%Q.
Proof.
  intros [H0 H1]. split.
  - apply (Qplus_le_l _ _ 1). ring_simplify.
    apply (Qmult_le_0_compat 2 r); [discriminate | exact H0].
  - apply (Qplus_le_l _ _ 1). ring_simplify.
    apply Qlt_le_weak in H1.
    apply (Qmult_le_l r 1 2) in H1; [|reflexivity].
    ring_simplify in H1. exact H1.
Qed.

Lemma connect_targets_spec (from : Neuron.t) (targets : list Neuron.t)
    (g : RandomSource) :
  let r := connect_targets from targets g in
  map Connection.to r.1 = map Neuron.id targets
  /\ Forall (fun c => Connection.from c = Neuron.id from
                      /\ Connection.active c = false
                      /\ exists n, Connection.weight c = (draws g n * 2 - 1)%Q) r.1
  /\ draws r.2 = draws g.
Proof.
  revert g. induction targets as [|t targets IH]; intros g; simpl.
  - split; [reflexivity|]. split; [constructor | reflexivity].
  - specialize (IH {| draws := draws g; cursor := S (cursor g) |}).
    destruct (connect_targets from targets _) as [cs g2].
    simpl in *. destruct IH as (Hto & Hall & Hd).
    split; [rewrite Hto; reflexivity|]. split; [|exact Hd].
    constructor; [|exact Hall]. simpl. split; [reflexivity|].
    split; [reflexivity | eauto].
Qed.

(** What one unit gets: [min(8, |nextLayer|)] connections from it, to
    different units of the next layer. *)
Lemma connect_neuron_spec (nextLayer : list Neuron.t) (from : Neuron.t)
    (g : RandomSource) :
  let r := connect_neuron nextLayer from g in
  length r.1 = Nat.min 8 (length nextLayer)
  /\ (NoDup (map Neuron.id nextLayer) -> NoDup (map Connection.to r.1))
  /\ (forall c, c ∈ r.1 -> exists t, t ∈ nextLayer /\ Connection.to c = Neuron.id t)
  /\ Forall (fun c => Connection.from c = Neuron.id from
                      /\ Connection.active c = false
                      /\ exists n, Connection.weight c = (draws g n * 2 - 1)%Q) r.1
  /\ draws r.2 = draws g.
Proof.
  unfold connect_neuron.
  pose proof (Array_sort_Permutation random_order nextLayer g) as Hperm.
  pose proof (sort_random_draws nextLayer g) as Hd.
  destruct (Array_sort random_order nextLayer g) as [shuffled g1].
  cbn [fst snd] in Hperm, Hd.
  set (targets := take (Nat.min 8 (length nextLayer)) shuffled).
  destruct (connect_targets_spec from targets g1) as (Hto & Hall & Hd2).
  destruct (connect_targets from targets g1) as [cs g2]. cbn [fst snd] in *.
  assert (Hsub : targets `sublist_of` shuffled) by apply sublist_take.
  split.
  { rewrite <- (length_map Connection.to), Hto, length_map.
    subst targets. rewrite length_take, (Permutation_length Hperm). lia. }
  split.
  { intros Hnd. rewrite Hto.
    apply (sublist_NoDup _ (map Neuron.id shuffled)).
    - rewrite Hperm. exact Hnd.
    - apply (fmap_sublist Neuron.id), Hsub. }
  split.
  { intros c Hc. apply (list_elem_of_fmap_2 Connection.to) in Hc.
    change (Connection.to <$> cs) with (map Connection.to cs) in Hc.
    rewrite Hto in Hc. apply elem_of_map in Hc as (t & -> & Ht).
    exists t. split; [|reflexivity]. rewrite <- Hperm.
    eapply elem_of_sublist; eassumption. }
  split; [|congruence].
  eapply Forall_impl; [|exact Hall]. intros c (Hf & Ha & n & Hw).
  split; [exact Hf|]. split; [exact Ha|]. exists n. rewrite Hw, Hd. reflexivity.
Qed.

Lemma outgoing_all (id : string) (cs : list Connection.t) :
  Forall (fun c => Connection.from c = id) cs -> outgoing id cs = cs.
Proof.
  induction 1 as [|c cs Hc _ IH]; [reflexivity|].
  unfold outgoing in *. simpl. rewrite Hc, String.eqb_refl, IH. reflexivity.
Qed.

Lemma outgoing_none (id : string) (cs : list Connection.t) :
  Forall (fun c => Connection.from c <> id) cs -> outgoing id cs = [].
Proof.
  induction 1 as [|c cs Hc _ IH]; [reflexivity|].
  unfold outgoing in *. simpl.
  destruct (String.eqb_spec (Connection.from c) id); [contradiction | exact IH].
Qed.

Lemma NoDup_map_filter {A B : Type} (f : A -> B) (p : A -> bool) (l : list A) :
  NoDup (map f l) -> NoDup (map f (List.filter p l)).
Proof.
  induction l as [|a l IH]; simpl; [trivial|].
  intros Hnd. apply list.NoDup_cons in Hnd as [Ha Hnd].
  destruct (p a); [|apply IH, Hnd]. simpl. constructor; [|apply IH, Hnd].
  intros Hin. apply Ha. apply elem_of_map in Hin as (b & -> & Hb).
  apply elem_of_map. exists b. split; [reflexivity|].
  apply list_elem_of_In. apply list_elem_of_In, filter_In in Hb. tauto.
Qed.

(** What one layer gets. *)
Lemma connect_layer_spec (nextLayer currentLayer : list Neuron.t)
    (g : RandomSource) :
  NoDup (map Neuron.id nextLayer) -> NoDup (map Neuron.id currentLayer) ->
  let r := connect_layer nextLayer currentLayer g in
  (forall c, c ∈ r.1 ->
     (exists s, s ∈ currentLayer /\ Connection.from c = Neuron.id s)
     /\ (exists t, t ∈ nextLayer /\ Connection.to c = Neuron.id t)
     /\ fresh_connection g c)
  /\ (forall u, u ∈ currentLayer -> fan_out nextLayer (outgoing (Neuron.id u) r.1))
  /\ draws r.2 = draws g.
Proof.
  intros Hnext. revert g.
  induction currentLayer as [|f rest IH]; intros g Hcur; cbn [connect_layer].
  - split; [intros c Hc; apply elem_of_nil in Hc; contradiction|].
    split; [intros u Hu; apply elem_of_nil in Hu; contradiction | reflexivity].
  - simpl in Hcur. apply list.NoDup_cons in Hcur as [Hf Hrest].
    destruct (connect_neuron_spec nextLayer f g) as (Hlen & Hnd & Hto & Hall & Hd).
    destruct (connect_neuron nextLayer f g) as [cs1 g1]. cbn [fst snd] in *.
    specialize (IH g1 Hrest).
    destruct (connect_layer nextLayer rest g1) as [cs2 g2]. cbn [fst snd] in *.
    destruct IH as (Hcs2 & Hfan & Hd2).
    assert (Hfrom2 : forall id, id ∉ map Neuron.id rest ->
                                Forall (fun c => Connection.from c <> id) cs2).
    { intros id Hid. apply Forall_forall. intros c Hc Heq.
      destruct (Hcs2 c ltac:(apply list_elem_of_In; exact Hc))
        as ((s & Hs & Hfs) & _).
      apply Hid. apply elem_of_map. exists s. split; [congruence | exact Hs]. }
    split; [|split; [|congruence]].
    + intros c Hc. apply elem_of_app in Hc as [Hc|Hc].
      * rewrite Forall_forall in Hall.
        destruct (Hall c ltac:(apply list_elem_of_In; exact Hc)) as (Hfc & Hfresh).
        split; [exists f; split; [left | exact Hfc]|].
        split; [apply Hto, Hc | exact Hfresh].
      * destruct (Hcs2 c Hc) as ((s & Hs & Hfs) & Ht & Ha & n & Hw).
        split; [exists s; split; [right; exact Hs | exact Hfs]|].
        split; [exact Ht|]. split; [exact Ha|]. exists n. rewrite Hw, Hd.
        reflexivity.
    + intros u Hu. unfold outgoing. rewrite filter_app. fold (outgoing (Neuron.id u) cs1).
      fold (outgoing (Neuron.id u) cs2).
      apply elem_of_cons in Hu as [-> | Hu].
      * rewrite outgoing_all, (outgoing_none _ cs2), app_nil_r.
        -- split; [exact Hlen|]. split; [apply Hnd, Hnext | exact Hto].
        -- apply Hfrom2, Hf.
        -- eapply Forall_impl; [|exact Hall]. intros c (Hc & _). exact Hc.
      * rewrite (outgoing_none _ cs1); [apply Hfan, Hu|].
        eapply Forall_impl; [|exact Hall]. intros c (Hc & _) Heq.
        apply Hf. apply elem_of_map. exists u. split; [congruence | exact Hu].
Qed.

Lemma elem_of_filter_layer (ns : list Neuron.t) (L : nat) (n : Neuron.t) :
  n ∈ List.filter (in_layer L) ns <-> n ∈ ns /\ Neuron.layer n = L.
Proof.
  rewrite !list_elem_of_In, filter_In. unfold in_layer.
  rewrite Nat.eqb_eq. reflexivity.
Qed.

(** What the whole topology gets: every connection joins a unit of a
    non-terminal layer to a unit of the next layer, and every unit of a
    non-terminal layer has its fan-out into the next layer. *)
Lemma create_connections_spec (neuronList : list Neuron.t) (nlayers : nat)
    (ls : list nat) :
  NoDup (map Neuron.id neuronList) ->
  forall off g,
    let r := create_connections neuronList nlayers off ls g in
    (forall c, c ∈ r.1 ->
       exists s t,
         s ∈ neuronList /\ t ∈ neuronList
         /\ off <= Neuron.layer s < off + length ls
         /\ Neuron.layer s < nlayers - 1
         /\ Neuron.layer t = S (Neuron.layer s)
         /\ Connection.from c = Neuron.id s /\ Connection.to c = Neuron.id t
         /\ fresh_connection g c)
    /\ (forall u, u ∈ neuronList ->
          off <= Neuron.layer u < off + length ls ->
          Neuron.layer u < nlayers - 1 ->
          fan_out (List.filter (in_layer (S (Neuron.layer u))) neuronList)
                  (outgoing (Neuron.id u) r.1))
    /\ draws r.2 = draws g.
Proof.
  intros Hnd. induction ls as [|count ls IH]; intros off g;
    cbn [create_connections].
  - split; [intros c Hc; apply elem_of_nil in Hc; contradiction|].
    split; [simpl; intros; lia | reflexivity].
  - destruct (Nat.ltb_spec off (nlayers - 1)) as [Hlt|Hge].
    + rewrite Nat.add_1_r.
      destruct (connect_layer_spec
                  (List.filter (in_layer (S off)) neuronList)
                  (List.filter (in_layer off) neuronList) g)
        as (Hcs1 & Hfan1 & Hd1); try (apply NoDup_map_filter, Hnd).
      destruct (connect_layer _ _ g) as [cs1 g1]. cbn [fst snd] in *.
      specialize (IH (S off) g1).
      destruct (create_connections neuronList nlayers (S off) ls g1)
        as [cs2 g2]. cbn [fst snd] in *.
      destruct IH as (Hcs2 & Hfan2 & Hd2).
      split; [|split; [|congruence]].
      * intros c Hc. apply elem_of_app in Hc as [Hc|Hc].
        -- destruct (Hcs1 c Hc) as ((s & Hs & Hfs) & (t & Ht & Hft) & Ha & Hw).
           apply elem_of_filter_layer in Hs as [Hs Hls].
           apply elem_of_filter_layer in Ht as [Ht Hlt'].
           exists s, t. simpl. repeat split; try assumption; try lia.
        -- destruct (Hcs2 c Hc)
             as (s & t & Hs & Ht & Hrange & Hl & Hlt' & Hfs & Hft & Ha & n & Hw).
           exists s, t. simpl in *. repeat split; try assumption; try lia.
           exists n. rewrite Hw, Hd1. reflexivity.
      * intros u Hu Hrange Hlast. unfold outgoing. rewrite filter_app.
        fold (outgoing (Neuron.id u) cs1). fold (outgoing (Neuron.id u) cs2).
        destruct (Nat.eq_dec (Neuron.layer u) off) as [Hlu|Hlu].
        -- rewrite (outgoing_none _ cs2), app_nil_r.
           ++ rewrite Hlu. apply Hfan1. apply elem_of_filter_layer. auto.
           ++ apply Forall_forall. intros c Hc Heq.
              destruct (Hcs2 c ltac:(apply list_elem_of_In; exact Hc))
                as (s & _ & Hs & _ & Hrange' & _ & _ & Hfs & _).
              assert (s = u) by (apply (unique_by_id neuronList); congruence).
              subst s. lia.
        -- rewrite (outgoing_none _ cs1).
           ++ apply Hfan2; [exact Hu | simpl in Hrange; lia | exact Hlast].
           ++ apply Forall_forall. intros c Hc Heq.
              destruct (Hcs1 c ltac:(apply list_elem_of_In; exact Hc))
                as ((s & Hs & Hfs) & _).
              apply elem_of_filter_layer in Hs as [Hs Hls].
              assert (s = u) by (apply (unique_by_id neuronList); congruence).
              subst s. contradiction.
    + specialize (IH (S off) g).
      destruct (create_connections neuronList nlayers (S off) ls g)
        as [cs2 g2]. cbn [fst snd] in *.
      destruct IH as (Hcs2 & Hfan2 & Hd2).
      split; [|split; [|exact Hd2]].
      * intros c Hc.
        destruct (Hcs2 c Hc)
          as (s & t & Hs & Ht & Hrange & Hl & Hlt' & Hfs & Hft & Ha & Hw).
        exists s, t. simpl. repeat split; try assumption; try lia.
      * intros u Hu Hrange Hlast. lia.
Qed.

Lemma build_eq (ls : list nat) (g : RandomSource) :
  let neuronList :=
    create_neurons (width / (of_nat (length ls) + 1))%Q 0 ls in
  build ls g
  = (neuronList,
     (create_connections neuronList (length ls) 0 ls g).1,
     (create_connections neuronList (length ls) 0 ls g).2).
Proof.
  intros neuronList. unfold build. fold neuronList.
  destruct (create_connections neuronList (length ls) 0 ls g). reflexivity.
Qed.

Lemma layer_in_range (sp : Q) (ls : list nat) (n : Neuron.t) :
  n ∈ create_neurons sp 0 ls -> Neuron.layer n < length ls.
Proof.
  intros Hn. apply elem_of_create_neurons in Hn as (k & count & i & Hk & _ & ->).
  simpl. apply lookup_lt_Some in Hk. exact Hk.
Qed.

(** The size of a layer is the size it was built with. *)
Lemma layer_size (sp : Q) (ls : list nat) (L : nat) :
  length (List.filter (in_layer L) (create_neurons sp 0 ls)) = nth L ls 0.
Proof.
  rewrite filter_layer_create_neurons, nth_lookup. simpl. rewrite Nat.sub_0_r.
  destruct (ls !! L) as [count|]; simpl; [|reflexivity].
  rewrite length_map, length_seq. reflexivity.
Qed.

(** C6: in every topology the builder produces, a unit of a non-terminal
    layer [i] has exactly [min(8, size(layer i+1))] outgoing connections,
    to different units, all of layer [i+1]; every connection joins a unit
    of a non-terminal layer to a unit of the next layer (none skips or
    reverses, none leaves the last layer); every weight lies in [[-1, 1]]. *)
Theorem build_topology (ls : list nat) (g : RandomSource) :
  unit_interval g ->
  let ns := (build ls g).1.1 in
  let cs := (build ls g).1.2 in
  (forall u, u ∈ ns -> S (Neuron.layer u) < length ls ->
     let out := outgoing (Neuron.id u) cs in
     let size := length (List.filter (in_layer (S (Neuron.layer u))) ns) in
     size = nth (S (Neuron.layer u)) ls 0
     /\ length out = Nat.min 8 size
     /\ NoDup (map Connection.to out)
     /\ forall c, c ∈ out ->
          exists t, t ∈ ns /\ Neuron.layer t = S (Neuron.layer u)
                    /\ Connection.to c = Neuron.id t)
  /\ (forall c, c ∈ cs ->
        exists s t,
          s ∈ ns /\ t ∈ ns
          /\ Connection.from c = Neuron.id s /\ Connection.to c = Neuron.id t
          /\ Neuron.layer t = S (Neuron.layer s)
          /\ S (Neuron.layer s) < length ls
          /\ (-1 <= Connection.weight c)%Q /\ (Connection.weight c <= 1)%Q)
  /\ (forall u, u ∈ ns -> S (Neuron.layer u) = length ls ->
        outgoing (Neuron.id u) cs = []).
Proof.
  intros Hg ns cs. subst ns cs. rewrite build_eq. cbn [fst snd].
  set (sp := (width / (of_nat (length ls) + 1))%Q).
  set (NL := create_neurons sp 0 ls).
  pose proof (create_neurons_distinct sp ls 0) as Hnd. fold NL in Hnd.
  destruct (create_connections_spec NL (length ls) ls Hnd 0 g)
    as (Hcs & Hfan & _).
  set (CS := (create_connections NL (length ls) 0 ls g).1) in *.
  assert (Hall : forall c, c ∈ CS ->
    exists s t,
      s ∈ NL /\ t ∈ NL
      /\ Connection.from c = Neuron.id s /\ Connection.to c = Neuron.id t
      /\ Neuron.layer t = S (Neuron.layer s)
      /\ S (Neuron.layer s) < length ls
      /\ (-1 <= Connection.weight c)%Q /\ (Connection.weight c <= 1)%Q).
  { intros c Hc.
    destruct (Hcs c Hc)
      as (s & t & Hs & Ht & _ & Hl & Hlt & Hfs & Hft & _ & n & Hw).
    exists s, t. rewrite Hw.
    destruct (weight_in_range (draws g n) (Hg n)) as [Hlo Hhi].
    repeat split; try assumption. lia. }
  split; [|split; [exact Hall|]].
  - intros u Hu Hlast.
    destruct (Hfan u Hu) as (Hlen & Hdist & Hto); [simpl; lia | lia|].
    split; [apply layer_size|]. split; [exact Hlen|]. split; [exact Hdist|].
    intros c Hc. destruct (Hto c Hc) as (t & Ht & Hft).
    apply elem_of_filter_layer in Ht as [Ht Hlt].
    exists t. repeat split; assumption.
  - intros u Hu Hlast. apply outgoing_none, Forall_forall. intros c Hc Heq.
    destruct (Hall c ltac:(apply list_elem_of_In; exact Hc))
      as (s & _ & Hs & _ & Hfs & _ & _ & Hl & _).
    assert (s = u) by (apply (unique_by_id NL); congruence). subst s. lia.
Qed.

Lemma build_topology_witness :
  length (outgoing "L0-N1" (build sample_layers sample_source).1.2)
  = Nat.min 8 (length (List.filter (in_layer 1)
                         (build sample_layers sample_source).1.1)).
Proof.
  refine (proj1 (proj2 (proj1 (build_topology sample_layers sample_source
                                 sample_source_unit_interval)
                          (nth 1 (build sample_layers sample_source).1.1
                             (Neuron.mk "" 0 0 false 0 0)) _ _))).
  - vm_compute. right. left.
  - vm_compute. lia.
Defined.

(** ** Tokenization *)

Lemma code_points_no_surrogate (s : jsstring) :
  forallb (fun u => negb (is_surrogate u)) s = true -> code_points s = s.
Proof.
  induction s as [|u s IH]; [reflexivity|]. cbn [forallb].
  intros H. apply andb_true_iff in H as [Hu Hs].
  cbn [code_points]. destruct s as [|v s]; [reflexivity|].
  unfold is_surrogate in Hu. apply negb_true_iff, orb_false_iff in Hu as [Hu _].
  rewrite Hu. cbn [andb]. rewrite (IH Hs). reflexivity.
Qed.

(** C8, as the code has it: the features are the UTF-16 code units of the
    lowercased text, one feature per code unit and in the same order; they
    are the code points of its characters when the lowercased text has no
    surrogate code unit. *)
Theorem tokenize_code_units (toLowerCase : jsstring -> jsstring)
    (text : jsstring) :
  tokenize toLowerCase text = toLowerCase text
  /\ length (tokenize toLowerCase text) = length (toLowerCase text)
  /\ (forallb (fun u => negb (is_surrogate u)) (toLowerCase text) = true ->
      tokenize toLowerCase text = code_points (toLowerCase text)).
Proof.
  assert (E : tokenize toLowerCase text = toLowerCase text).
  { unfold tokenize, split_chars. rewrite map_map. simpl. apply map_id. }
  split; [exact E|]. split; [rewrite E; reflexivity|].
  intros H. rewrite (code_points_no_surrogate _ H). exact E.
Qed.

Lemma tokenize_code_units_witness :
  tokenize latin_toLowerCase sample_text
  = code_points (latin_toLowerCase sample_text).
Proof.
  apply (proj2 (proj2 (tokenize_code_units latin_toLowerCase sample_text))).
  reflexivity.
Defined.

(** C8 as stated fails on a character outside the Basic Multilingual Plane:
    the text of the single character U+1F600 gives two features, its two
    surrogate code units, and neither is the code point 128512. *)
Lemma tokenize_splits_surrogate_pair :
  code_points grinning_face = [128512%N]
  /\ latin_toLowerCase grinning_face = grinning_face
  /\ tokenize latin_toLowerCase grinning_face = [55357%N; 56832%N]
  /\ length (tokenize latin_toLowerCase grinning_face)
     <> length (code_points grinning_face)
  /\ tokenize latin_toLowerCase grinning_face
     <> code_points (latin_toLowerCase grinning_face).
Proof.
  repeat split; try reflexivity; discriminate.
Qed.

(** ** More on the builder *)

Lemma NoDup_distinct (ids : list string) : NoDup ids -> distinct ids = true.
Proof.
  induction 1 as [|a ids Ha _ IH]; [reflexivity|]. simpl.
  rewrite IH, andb_true_r. apply negb_true_iff.
  destruct (existsb (String.eqb a) ids) eqn:E; [|reflexivity].
  apply existsb_exists in E as (b & Hb & Hab).
  apply String.eqb_eq in Hab. subst b. apply list_elem_of_In in Hb.
  contradiction.
Qed.

Lemma find_neuron_unique (ns : list Neuron.t) (n : Neuron.t) :
  NoDup (map Neuron.id ns) -> n ∈ ns -> find_neuron ns (Neuron.id n) = Some n.
Proof.
  intros Hnd Hn. unfold find_neuron.
  destruct (List.find _ ns) as [m|] eqn:E.
  - apply find_some in E as [Hm Hid]. apply String.eqb_eq in Hid.
    f_equal. apply (unique_by_id ns); [assumption | | assumption | assumption].
    apply list_elem_of_In, Hm.
  - apply list_elem_of_In in Hn. apply (find_none _ _ E n) in Hn.
    rewrite String.eqb_refl in Hn. discriminate.
Qed.

(** X1: the builder produces a well-formed topology, whatever the layer sizes
    and the random draws: units have different names and every connection
    joins an existing unit to an existing unit of the next layer. *)
Theorem build_is_well_formed (ls : list nat) (g : RandomSource) :
  well_formed (build ls g).1.1 (build ls g).1.2 = true.
Proof.
  rewrite build_eq. cbn [fst snd].
  set (sp := (width / (of_nat (length ls) + 1))%Q).
  set (NL := create_neurons sp 0 ls).
  pose proof (create_neurons_distinct sp ls 0) as Hnd. fold NL in Hnd.
  unfold well_formed. apply andb_true_iff. split; [apply NoDup_distinct, Hnd|].
  apply forallb_forall. intros c Hc. apply list_elem_of_In in Hc.
  destruct (create_connections_spec NL (length ls) ls Hnd 0 g) as (Hcs & _).
  destruct (Hcs c Hc) as (s & t & Hs & Ht & _ & _ & Hl & Hfs & Hft & _).
  unfold wired.
  rewrite Hfs, Hft, (find_neuron_unique NL s Hnd Hs),
    (find_neuron_unique NL t Hnd Ht).
  apply Nat.eqb_eq, Hl.
Qed.

Lemma connect_layer_length (nextLayer currentLayer : list Neuron.t)
    (g : RandomSource) :
  length (connect_layer nextLayer currentLayer g).1
  = length currentLayer * Nat.min 8 (length nextLayer).
Proof.
  revert g. induction currentLayer as [|f rest IH]; intros g; [reflexivity|].
  cbn [connect_layer].
  destruct (connect_neuron_spec nextLayer f g) as (Hlen & _).
  destruct (connect_neuron nextLayer f g) as [cs1 g1]. cbn [fst] in Hlen.
  specialize (IH g1). destruct (connect_layer nextLayer rest g1) as [cs2 g2].
  cbn [fst length] in *. rewrite length_app, Hlen, IH. lia.
Qed.

Lemma create_connections_length (neuronList : list Neuron.t) (nlayers : nat)
    (ls : list nat) :
  forall off g,
    length (create_connections neuronList nlayers off ls g).1
    = sum_list (map (fun L =>
                       if L <? nlayers - 1
                       then length (List.filter (in_layer L) neuronList)
                            * Nat.min 8 (length (List.filter (in_layer (S L))
                                                   neuronList))
                       else 0)
                    (seq off (length ls))).
Proof.
  induction ls as [|count ls IH]; intros off g; [reflexivity|].
  cbn [create_connections length seq map sum_list sum_list_with].
  destruct (off <? nlayers - 1).
  - rewrite Nat.add_1_r.
    pose proof (connect_layer_length
                  (List.filter (in_layer (S off)) neuronList)
                  (List.filter (in_layer off) neuronList) g) as Hlen.
    destruct (connect_layer _ _ g) as [cs1 g1]. cbn [fst] in Hlen.
    specialize (IH (S off) g1).
    destruct (create_connections neuronList nlayers (S off) ls g1) as [cs2 g2].
    cbn [fst] in *. rewrite length_app, Hlen, IH. reflexivity.
  - rewrite IH. reflexivity.
Qed.

Lemma connection_count_sum (pre rest : list nat) :
  sum_list (map (fun L =>
                   if L <? length (pre ++ rest) - 1
                   then nth L (pre ++ rest) 0
                        * Nat.min 8 (nth (S L) (pre ++ rest) 0)
                   else 0)
                (seq (length pre) (length rest)))
  = connection_count rest.
Proof.
  revert pre. induction rest as [|a rest IH]; intros pre; [reflexivity|].
  cbn [length seq map sum_list sum_list_with connection_count].
  specialize (IH (pre ++ [a])).
  rewrite <- app_assoc in IH. cbn [app] in IH.
  replace (length (pre ++ [a])) with (S (length pre)) in IH
    by (rewrite length_app; simpl; lia).
  rewrite IH.
  assert (Ha : nth (length pre) (pre ++ a :: rest) 0 = a)
    by (rewrite app_nth2, Nat.sub_diag by lia; reflexivity).
  destruct rest as [|b rest].
  - rewrite length_app. cbn [length].
    destruct (Nat.ltb_spec (length pre) (length pre + 1 - 1)); [lia|reflexivity].
  - assert (Hb : nth (S (length pre)) (pre ++ a :: b :: rest) 0 = b).
    { rewrite app_nth2 by lia.
      replace (S (length pre) - length pre) with 1 by lia. reflexivity. }
    rewrite Ha, Hb, length_app. cbn [length].
    destruct (Nat.ltb_spec (length pre) (length pre + S (S (length rest)) - 1));
      [reflexivity | lia].
Qed.

Lemma create_neurons_length (sp : Q) (ls : list nat) :
  forall off, length (create_neurons sp off ls) = sum_list ls.
Proof.
  induction ls as [|count ls IH]; intros off; [reflexivity|].
  cbn [create_neurons]. rewrite length_app, length_map, length_seq, IH.
  reflexivity.
Qed.

(** X2: the size of a built topology does not depend on the random draws: it
    has one unit per unit of layer size, and [min(8, next)] connections per
    unit of every layer but the last.  For the component's layer sizes that
    is 416 units and 3200 connections. *)
Theorem build_counts (ls : list nat) (g : RandomSource) :
  (length (build ls g).1.1 = sum_list ls
   /\ length (build ls g).1.2 = connection_count ls)
  /\ (length (build layers g).1.1 = 416
      /\ length (build layers g).1.2 = 3200).
Proof.
  assert (H : forall ls, length (build ls g).1.1 = sum_list ls
                         /\ length (build ls g).1.2 = connection_count ls).
  { clear ls. intros ls. rewrite build_eq. cbn [fst snd].
    split; [apply create_neurons_length|].
    rewrite create_connections_length.
    rewrite <- (connection_count_sum [] ls). cbn [app length].
    apply (f_equal sum_list), map_ext. intros L.
    rewrite !layer_size. reflexivity. }
  split; [apply H|]. destruct (H layers) as [-> ->]. split; reflexivity.
Qed.

Lemma of_nat_pos (a : nat) : (0 < of_nat a + 1)%Q.
Proof. unfold of_nat, Qlt. simpl. lia. Qed.

Lemma of_nat_lt (a b : nat) : a < b -> (of_nat a + 1 < of_nat b + 1)%Q.
Proof. intros H. unfold of_nat, Qlt. simpl. lia. Qed.

Lemma strictly_inside (w n d : Q) :
  (0 < w)%Q -> (0 < n)%Q -> (n < d)%Q ->
  (0 < w / d * n)%Q /\ (w / d * n < w)%Q.
Proof.
  intros Hw Hn Hd.
  assert (Hd0 : (0 < d)%Q) by (eapply Qlt_trans; eassumption).
  split.
  - apply Qmult_lt_0_compat; [|exact Hn].
    apply Qlt_shift_div_l; [exact Hd0|]. rewrite Qmult_0_l. exact Hw.
  - assert (E : (w / d * n == (w * n) / d)%Q)
      by (field; intros E; rewrite E in Hd0; discriminate).
    rewrite E. apply Qlt_shift_div_r; [exact Hd0|].
    apply Qmult_lt_l; assumption.
Qed.

(** X3: every unit the builder creates starts inactive with activation 0, is
    named after its layer and its position in the layer, and is placed
    strictly inside the 1000 x 600 canvas, in the column of its layer; every
    connection starts inactive. *)
Theorem built_units_are_laid_out (ls : list nat) (g : RandomSource) :
  (forall n, n ∈ (build ls g).1.1 ->
     Neuron.active n = false /\ Neuron.activation n = 0%Q
     /\ Neuron.layer n < length ls
     /\ (exists i, i < nth (Neuron.layer n) ls 0
                   /\ Neuron.id n = neuron_id (Neuron.layer n) i)
     /\ Neuron.x n
        = (width / (of_nat (length ls) + 1) * (of_nat (Neuron.layer n) + 1))%Q
     /\ (0 < Neuron.x n)%Q /\ (Neuron.x n < width)%Q
     /\ (0 < Neuron.y n)%Q /\ (Neuron.y n < height)%Q)
  /\ (forall c, c ∈ (build ls g).1.2 -> Connection.active c = false).
Proof.
  rewrite build_eq. cbn [fst snd].
  set (sp := (width / (of_nat (length ls) + 1))%Q).
  set (NL := create_neurons sp 0 ls). split.
  - intros n Hn. apply elem_of_create_neurons in Hn as (k & count & i & Hk & Hi & ->).
    cbn [Nat.add new_neuron Neuron.active Neuron.activation Neuron.layer
         Neuron.id Neuron.x Neuron.y].
    pose proof (lookup_lt_Some _ _ _ Hk) as Hlt.
    split; [reflexivity|]. split; [reflexivity|]. split; [exact Hlt|].
    split.
    { exists i. rewrite nth_lookup, Hk. split; [exact Hi | reflexivity]. }
    split; [reflexivity|].
    destruct (strictly_inside width (of_nat k + 1) (of_nat (length ls) + 1))
      as [Hx0 Hx1]; [reflexivity | apply of_nat_pos | apply of_nat_lt, Hlt|].
    destruct (strictly_inside height (of_nat i + 1) (of_nat count + 1))
      as [Hy0 Hy1]; [reflexivity | apply of_nat_pos | apply of_nat_lt, Hi|].
    repeat split; assumption.
  - intros c Hc.
    destruct (create_connections_spec NL (length ls) ls
                (create_neurons_distinct sp ls 0) 0 g) as (Hcs & _).
    destruct (Hcs c Hc) as (_ & _ & _ & _ & _ & _ & _ & _ & _ & Ha & _).
    exact Ha.
Qed.

(** ** More on runs *)

Lemma well_formed_same (ns ns' : list Neuron.t) (cs cs' : list Connection.t) :
  Forall2 same_unit ns ns' -> Forall2 same_wiring cs cs' ->
  well_formed ns cs = true -> well_formed ns' cs' = true.
Proof.
  intros Hns Hcs Hwf. apply andb_true_iff in Hwf as [Hd Hw].
  unfold well_formed. rewrite (ids_same_unit _ _ Hns), Hd. simpl.
  apply forallb_forall. intros c' Hc'.
  apply list_elem_of_In, list_elem_of_lookup in Hc' as [i Hi].
  destruct (Forall2_lookup_r _ _ _ _ _ Hcs Hi) as (c & Hc & Hsw).
  apply (wired_same ns ns' c c' Hns Hsw).
  rewrite forallb_forall in Hw. apply Hw.
  apply list_elem_of_In, list_elem_of_lookup. eauto.
Qed.

Lemma reset_same_wiring (cs : list Connection.t) :
  Forall2 same_wiring cs (map (Connection.set_active false) cs).
Proof.
  apply Forall2_same_length_lookup_2; [symmetry; apply length_map|].
  intros i c c' Hc Hc'. rewrite lookup_map, Hc in Hc'. injection Hc' as <-.
  repeat split.
Qed.

Lemma Forall2_same_wiring_trans (l1 l2 l3 : list Connection.t) :
  Forall2 same_wiring l1 l2 -> Forall2 same_wiring l2 l3 ->
  Forall2 same_wiring l1 l3.
Proof.
  intros H12. revert l3.
  induction H12 as [|a b l1 l2 (? & ? & ?) _ IH]; intros l3 H23;
    inversion H23 as [|? c ? ? (? & ? & ?)]; subst; constructor;
    [repeat split; congruence | apply IH; assumption].
Qed.

Lemma forward_same_topology (fs : list N) (s : Q) (c : Component) (j : nat) :
  Forall2 same_unit (neurons c) (forward fs s j (reset_state c)).1.1
  /\ Forall2 same_wiring (connections c) (forward fs s j (reset_state c)).1.2.
Proof.
  split.
  - apply (Forall2_same_unit_trans _ _ _ (reset_same_unit (neurons c))).
    apply (forward_same_unit fs s (reset_state c) j), reset_state_fresh.
  - apply (Forall2_same_wiring_trans _ _ _ (reset_same_wiring (connections c))).
    apply (forward_same_wiring fs s (reset_state c) j), reset_state_fresh.
Qed.

(** X4: a run never changes the topology: in everything it publishes, and in
    the component it leaves, every unit keeps its name, place and layer and
    every connection its endpoints and weight; a well-formed topology stays
    well-formed. *)
Theorem run_keeps_topology (toLowerCase : jsstring -> jsstring)
    (text : jsstring) (c : Component) :
  text <> [] -> isProcessing c = false ->
  let c' := (run toLowerCase text c).1 in
  (forall p, p ∈ (run toLowerCase text c).2 ->
     Forall2 same_unit (neurons c) (shown_neurons p)
     /\ Forall2 same_wiring (connections c) (shown_connections p))
  /\ Forall2 same_unit (neurons c) (neurons c')
  /\ Forall2 same_wiring (connections c) (connections c')
  /\ sparsityLevel c' = sparsityLevel c
  /\ (well_formed (neurons c) (connections c) = true ->
      well_formed (neurons c') (connections c') = true).
Proof.
  intros Htext Hidle c'. subst c'.
  set (fs := tokenize toLowerCase text). set (s := sparsityLevel c).
  pose proof (forward_same_topology fs s c) as H.
  split.
  { intros p Hp. apply list_elem_of_lookup in Hp as [j Hj].
    destruct (publications_lookup _ _ _ _ _ Htext Hidle Hj) as (_ & -> & ->).
    apply H. }
  rewrite (run_eq toLowerCase text c Htext Hidle). cbn [fst neurons connections
    sparsityLevel].
  destruct (H 6) as [Hns Hcs].
  split; [exact Hns|]. split; [exact Hcs|]. split; [reflexivity|].
  apply well_formed_same; assumption.
Qed.

Lemma run_keeps_topology_witness :
  well_formed (neurons (run latin_toLowerCase sample_text sample_component).1)
              (connections (run latin_toLowerCase sample_text sample_component).1)
  = true.
Proof.
  refine (proj2 (proj2 (proj2 (proj2
            (run_keeps_topology latin_toLowerCase sample_text sample_component
               _ _)))) _).
  - discriminate.
  - reflexivity.
  - vm_compute. reflexivity.
Defined.

Lemma reset_neuron_same_unit (n n' : Neuron.t) :
  same_unit n n' -> reset_neuron n' = reset_neuron n.
Proof.
  destruct n, n'. unfold same_unit. simpl. intros (-> & -> & -> & ->).
  reflexivity.
Qed.

Lemma reset_connection_same_wiring (c c' : Connection.t) :
  same_wiring c c' ->
  Connection.set_active false c' = Connection.set_active false c.
Proof.
  destruct c, c'. unfold same_wiring. simpl. intros (-> & -> & ->).
  reflexivity.
Qed.

Lemma map_Forall2_eq {A B : Type} (R : A -> A -> Prop) (f : A -> B)
    (l l' : list A) :
  (forall a a', R a a' -> f a' = f a) -> Forall2 R l l' -> map f l' = map f l.
Proof.
  intros Hf. induction 1 as [|a a' l l' Ha _ IH]; simpl; [reflexivity|].
  rewrite (Hf a a' Ha), IH. reflexivity.
Qed.

(** X5: a run starts from a clean slate: what it publishes does not depend on
    the flags and activations an earlier run left in the component, only on
    the topology, the sparsity level, the text and the random source. *)
Theorem run_forgets_earlier_run (toLowerCase : jsstring -> jsstring)
    (text text' : jsstring) (c : Component) (g : RandomSource) :
  text <> [] -> text' <> [] -> isProcessing c = false ->
  (run toLowerCase text' (with_random g (run toLowerCase text c).1)).2
  = (run toLowerCase text' (with_random g c)).2.
Proof.
  intros Htext Htext' Hidle.
  assert (Hrun : Forall2 same_unit (neurons c) (neurons (run toLowerCase text c).1)
                 /\ Forall2 same_wiring (connections c)
                            (connections (run toLowerCase text c).1)
                 /\ sparsityLevel (run toLowerCase text c).1 = sparsityLevel c
                 /\ isProcessing (run toLowerCase text c).1 = false).
  { rewrite (run_eq toLowerCase text c Htext Hidle).
    cbn [fst neurons connections sparsityLevel isProcessing].
    destruct (forward_same_topology (tokenize toLowerCase text)
                (sparsityLevel c) c 6) as [Hns Hcs].
    repeat split; assumption. }
  destruct Hrun as (Hns & Hcs & Hs & Hidle').
  set (c1 := (run toLowerCase text c).1) in *. clearbody c1.
  rewrite (run_eq toLowerCase text' (with_random g c1) Htext' Hidle'),
    (run_eq toLowerCase text' (with_random g c) Htext' Hidle).
  cbn [snd].
  assert (E : reset_state (with_random g c1) = reset_state (with_random g c)).
  { unfold reset_state, with_random. cbn [neurons connections random].
    rewrite (map_Forall2_eq same_unit reset_neuron _ _
               reset_neuron_same_unit Hns).
    rewrite (map_Forall2_eq same_wiring (Connection.set_active false) _ _
               reset_connection_same_wiring Hcs).
    reflexivity. }
  rewrite E. unfold with_random at 1 3. cbn [sparsityLevel]. rewrite Hs.
  reflexivity.
Qed.

Lemma run_forgets_earlier_run_witness :
  (run latin_toLowerCase grinning_face
     (with_random sample_source
        (run latin_toLowerCase sample_text sample_component).1)).2
  = (run latin_toLowerCase grinning_face
       (with_random sample_source sample_component)).2.
Proof.
  refine (run_forgets_earlier_run latin_toLowerCase sample_text grinning_face
            sample_component sample_source _ _ _).
  - discriminate.
  - discriminate.
  - reflexivity.
Defined.

Lemma forward_untouched (fs : list N) (s : Q)
    (st : list Neuron.t * list Connection.t * RandomSource) (j : nat) :
  untouched_from 0 st.1.1 ->
  untouched_from j (forward fs s j st).1.1.
Proof.
  intros H0.
  assert (Hf0 : fresh_from 0 st.1.1) by (intros n Hn Hl; apply (H0 n Hn Hl)).
  induction j as [|j IH]; [exact H0|].
  pose proof (forward_fresh fs s st j Hf0) as Hfresh. cbn [forward].
  destruct (forward fs s j st) as [[ns cs] g]. cbn [fst] in *.
  pose proof (layer_step_frame fs s j ns cs g Hfresh) as Hframe.
  intros n' Hn' Hl. apply list_elem_of_lookup in Hn' as [i Hi].
  destruct (Forall2_lookup_r _ _ _ _ _ Hframe Hi)
    as (n & Hn & (_ & _ & _ & Hlay) & Hsame).
  rewrite (Hsame ltac:(lia)). apply IH; [|lia].
  apply list_elem_of_lookup. eauto.
Qed.

(** X6: in the snapshot of layer [j], the deeper layers are still as the reset
    left them: every unit of a layer above [j] is inactive with activation
    0. *)
Theorem deeper_layers_are_untouched (toLowerCase : jsstring -> jsstring)
    (text : jsstring) (c : Component) :
  text <> [] -> isProcessing c = false ->
  forall j p n,
    snapshots (run toLowerCase text c).2 !! j = Some p ->
    n ∈ shown_neurons p -> j < Neuron.layer n ->
    Neuron.active n = false /\ Neuron.activation n = 0%Q.
Proof.
  intros Htext Hidle j p n Hp Hn Hl.
  apply (snapshots_lookup _ _ _ _ _ Htext Hidle) in Hp as [_ ->].
  unfold snapshot_of in Hn. cbn [shown_neurons] in Hn.
  refine (forward_untouched _ _ (reset_state c) (S j) _ n Hn Hl).
  intros m Hm _. simpl in Hm. apply elem_of_map in Hm as (m0 & -> & _).
  split; reflexivity.
Qed.

Lemma deeper_layers_are_untouched_witness :
  Neuron.active (sample_unit 1 6) = false
  /\ Neuron.activation (sample_unit 1 6) = 0%Q.
Proof.
  refine (deeper_layers_are_untouched latin_toLowerCase sample_text
            sample_component _ _ 1 (sample_snapshot 1) (sample_unit 1 6) _ _ _).
  - discriminate.
  - reflexivity.
  - vm_compute. reflexivity.
  - vm_compute. do 6 right. left.
  - vm_compute. apply le_n.
Defined.

Lemma layer_step_keeps_marks (fs : list N) (s : Q) (layerIdx : nat)
    (ns : list Neuron.t) (cs : list Connection.t) (g : RandomSource) :
  fresh_from layerIdx ns ->
  Forall2 (fun c c' => same_wiring c c'
                       /\ (Connection.active c = true ->
                           Connection.active c' = true))
          cs (layer_step fs s layerIdx (ns, cs, g)).1.2.
Proof.
  intros Hfresh. destruct (Nat.eq_dec layerIdx 0) as [->|Hl].
  - destruct (input_step_units fs s ns cs g) as (-> & _).
    apply Forall2_same_length_lookup_2; [reflexivity|].
    intros i c c' Hc Hc'. rewrite Hc in Hc'. injection Hc' as <-.
    split; [repeat split | trivial].
  - rewrite hidden_step_eq by assumption. cbn [fst snd].
    apply Forall2_same_length_lookup_2; [symmetry; apply length_map|].
    intros i c c' Hc Hc'. rewrite lookup_map, Hc in Hc'. injection Hc' as <-.
    split; [apply marked_same_wiring|].
    unfold marked. destruct (_ && _); [reflexivity | trivial].
Qed.

(** X7: during a run a connection that has been marked active stays marked:
    the flag is cleared by the reset only, so it is monotone over what the
    run publishes. *)
Theorem connection_flags_are_monotone (toLowerCase : jsstring -> jsstring)
    (text : jsstring) (c : Component) :
  text <> [] -> isProcessing c = false ->
  forall j j' p p' i e e',
    j <= j' ->
    (run toLowerCase text c).2 !! j = Some p ->
    (run toLowerCase text c).2 !! j' = Some p' ->
    shown_connections p !! i = Some e ->
    shown_connections p' !! i = Some e' ->
    Connection.active e = true -> Connection.active e' = true.
Proof.
  intros Htext Hidle j j' p p' i e e' Hle Hp Hp'.
  destruct (publications_lookup _ _ _ _ _ Htext Hidle Hp) as (_ & _ & ->).
  destruct (publications_lookup _ _ _ _ _ Htext Hidle Hp') as (_ & _ & ->).
  set (fs := tokenize toLowerCase text). set (s := sparsityLevel c).
  replace j' with ((j' - j) + j) by lia. generalize (j' - j) as d.
  clear Hle Hp Hp' j' p p'. intros d. revert e'.
  induction d as [|d IH]; intros e' He He' Ha.
  - simpl in He'. rewrite He in He'. injection He' as <-. exact Ha.
  - cbn [Nat.add forward] in He'.
    pose proof (forward_fresh fs s (reset_state c) (d + j)
                  (reset_state_fresh c)) as Hfresh.
    destruct (forward fs s (d + j) (reset_state c)) as [[ns1 cs1] g1].
    cbn [fst snd] in *.
    pose proof (layer_step_keeps_marks fs s (d + j) ns1 cs1 g1 Hfresh) as Hk.
    destruct (Forall2_lookup_r _ _ _ _ _ Hk He') as (e1 & He1 & _ & Hmono).
    apply Hmono. apply (IH e1 He He1 Ha).
Qed.

Lemma connection_flags_are_monotone_witness :
  Connection.active (nth 3 (shown_connections (sample_snapshot 5))
                       (Connection.mk "" "" 0 false)) = true.
Proof.
  refine (connection_flags_are_monotone latin_toLowerCase sample_text
            sample_component _ _ 2 6 (sample_snapshot 1) (sample_snapshot 5) 3
            (nth 3 (shown_connections (sample_snapshot 1))
               (Connection.mk "" "" 0 false))
            _ _ _ _ _ _ _).
  - discriminate.
  - reflexivity.
  - do 4 apply le_S. apply le_n.
  - vm_compute. reflexivity.
  - vm_compute. reflexivity.
  - vm_compute. reflexivity.
  - vm_compute. reflexivity.
  - vm_compute. reflexivity.
Defined.

(** ** Sparsity *)

Lemma one_minus_le (s : Q) : (0 <= s)%Q -> (1 - s <= 1)%Q.
Proof. destruct s. unfold Qle, Qminus, Qplus, Qopp. simpl. lia. Qed.

Lemma one_minus_nonpos (s : Q) : (1 <= s)%Q -> (1 - s <= 0)%Q.
Proof. destruct s. unfold Qle, Qminus, Qplus, Qopp. simpl. lia. Qed.

Lemma of_nat_nonneg (n : nat) : (0 <= of_nat n)%Q.
Proof. unfold of_nat, Qle. simpl. lia. Qed.

Lemma Qmult_le_l_compat (x y z : Q) :
  (x <= y)%Q -> (0 <= z)%Q -> (z * x <= z * y)%Q.
Proof.
  intros Hxy Hz. rewrite (Qmult_comm z x), (Qmult_comm z y).
  apply Qmult_le_compat_r; assumption.
Qed.

(** X8: the number of units the gate may keep is between 0 and the size of the
    layer when the sparsity level is in [[0, 1]]; it is 0 at level 1 and the
    whole layer at level 0. *)
Theorem top_k_range (s : Q) (size : nat) :
  ((0 <= s)%Q -> (s <= 1)%Q ->
   (0 <= top_k s size)%Z /\ (top_k s size <= Z.of_nat size)%Z)
  /\ (s == 1 -> top_k s size = 0%Z)
  /\ (s == 0 -> top_k s size = Z.of_nat size).
Proof.
  split; [|split].
  - intros H0 H1. split; [apply top_k_nonneg, H1|].
    unfold top_k, Math_ceil. rewrite <- (Qceiling_Z (Z.of_nat size)).
    apply Qceiling_resp_le. fold (of_nat size).
    rewrite <- (Qmult_1_r (of_nat size)) at 2.
    apply Qmult_le_l_compat; [apply one_minus_le, H0 | apply of_nat_nonneg].
  - intros E. unfold top_k, Math_ceil.
    rewrite (Qceiling_comp _ 0); [reflexivity|]. rewrite E. ring.
  - intros E. unfold top_k, Math_ceil.
    rewrite (Qceiling_comp _ (of_nat size)); [apply Qceiling_Z|].
    rewrite E. ring.
Qed.

Lemma top_k_range_witness :
  (0 <= top_k (85#100) 64)%Z /\ (top_k (85#100) 64 <= Z.of_nat 64)%Z.
Proof.
  refine (proj1 (top_k_range (85#100) 64) _ _); discriminate.
Defined.

(** The three ways a step can leave a unit: untouched (another layer), fed
    (input layer) or gated (a layer above). *)
Lemma layer_step_cases (fs : list N) (s : Q) (layerIdx : nat)
    (ns : list Neuron.t) (cs : list Connection.t) (g : RandomSource)
    (i : nat) (n' : Neuron.t) :
  fresh_from layerIdx ns ->
  (layer_step fs s layerIdx (ns, cs, g)).1.1 !! i = Some n' ->
  exists n,
    ns !! i = Some n
    /\ ((Neuron.layer n <> layerIdx /\ n' = n)
        \/ (Neuron.layer n = layerIdx /\ layerIdx = 0
            /\ exists idx,
                 n' = fed fs s (draws g (draw_position s g idx))
                        (draws g (S (draw_position s g idx))) idx n)
        \/ (Neuron.layer n = layerIdx /\ layerIdx <> 0
            /\ exists idx,
                 idx < length (currentLayerNeurons ns layerIdx)
                 /\ n' = gated (top_k s (length (currentLayerNeurons ns layerIdx)))
                           idx (summed layerIdx ns cs n))).
Proof.
  intros Hfresh Hi.
  pose proof (layer_step_frame fs s layerIdx ns cs g Hfresh) as Hframe.
  destruct (Forall2_lookup_r _ _ _ _ _ Hframe Hi) as (n & Hn & _ & Hsame).
  exists n. split; [exact Hn|].
  destruct (Nat.eq_dec (Neuron.layer n) layerIdx) as [Hl|Hl];
    [|left; split; [exact Hl | apply Hsame, Hl]].
  right.
  assert (Hcur : i ∈ currentLayerNeurons ns layerIdx)
    by (apply elem_of_currentLayerNeurons; eauto).
  destruct (Nat.eq_dec layerIdx 0) as [Hz|Hz].
  - left. split; [exact Hl|]. split; [exact Hz|]. rewrite Hz in Hi, Hcur.
    destruct (input_step_units fs s ns cs g) as (_ & _ & _ & _ & Hin).
    apply list_elem_of_lookup in Hcur as [idx Hidx].
    rewrite (Hin idx i n Hidx Hn) in Hi. injection Hi as <-. eauto.
  - right. split; [exact Hl|]. split; [exact Hz|].
    destruct (hidden_step_units fs s layerIdx ns cs g Hz Hfresh)
      as (_ & _ & Hin).
    pose proof (ranking_Permutation (map (summed layerIdx ns cs) ns)
                  (currentLayerNeurons ns layerIdx)) as Hperm.
    rewrite <- Hperm in Hcur.
    apply list_elem_of_lookup in Hcur as [idx Hidx].
    rewrite (Hin idx i (summed layerIdx ns cs n) Hidx) in Hi
      by (rewrite lookup_map, Hn; reflexivity).
    injection Hi as <-. exists idx. split; [|reflexivity].
    apply lookup_lt_Some in Hidx. rewrite (Permutation_length Hperm) in Hidx.
    exact Hidx.
Qed.

Lemma forward_draws (fs : list N) (s : Q)
    (st : list Neuron.t * list Connection.t * RandomSource) (j : nat) :
  fresh_from 0 st.1.1 -> draws (forward fs s j st).2 = draws st.2.
Proof.
  intros H0. induction j as [|j IH]; [reflexivity|].
  pose proof (forward_fresh fs s st j H0) as Hf. cbn [forward].
  destruct (forward fs s j st) as [[ns cs] g]. cbn [fst snd] in *.
  destruct (Nat.eq_dec j 0) as [->|Hj].
  - destruct (input_step_units fs s ns cs g) as (_ & Hd & _). congruence.
  - rewrite hidden_step_eq by assumption. exact IH.
Qed.

(** X9: at sparsity level 1 (or above) nothing fires: in everything a run
    publishes every unit is inactive, and the statistics report 0 active
    units. *)
Theorem full_sparsity_is_silent (toLowerCase : jsstring -> jsstring)
    (text : jsstring) (c : Component) :
  text <> [] -> isProcessing c = false -> unit_interval (random c) ->
  (1 <= sparsityLevel c)%Q ->
  (forall p n, p ∈ (run toLowerCase text c).2 -> n ∈ shown_neurons p ->
     Neuron.active n = false)
  /\ stat_active (stats (run toLowerCase text c).1) = 0.
Proof.
  intros Htext Hidle Hg Hs.
  set (fs := tokenize toLowerCase text). set (s := sparsityLevel c) in *.
  assert (H : forall j n, n ∈ (forward fs s j (reset_state c)).1.1 ->
                          Neuron.active n = false).
  { induction j as [|j IH]; intros n' Hn'.
    - simpl in Hn'. apply elem_of_map in Hn' as (m & -> & _). reflexivity.
    - pose proof (forward_fresh fs s (reset_state c) j (reset_state_fresh c))
        as Hfresh.
      pose proof (forward_draws fs s (reset_state c) j (reset_state_fresh c))
        as Hd.
      cbn [forward] in Hn'.
      destruct (forward fs s j (reset_state c)) as [[ns cs] g].
      cbn [fst snd] in *.
      apply list_elem_of_lookup in Hn' as [i Hi].
      destruct (layer_step_cases fs s j ns cs g i n' Hfresh Hi)
        as (n & Hn & [[_ ->] | [(_ & _ & idx & ->) | (_ & _ & idx & _ & ->)]]).
      + apply IH. apply list_elem_of_lookup. eauto.
      + unfold fed.
        destruct (gt (draws g (draw_position s g idx)) s) eqn:E; [|reflexivity].
        apply gt_true in E. rewrite Hd in E.
        destruct (Hg (draw_position s g idx)) as [_ Hlt]. exfalso.
        apply (Qlt_irrefl 1).
        eapply Qle_lt_trans; [exact Hs|]. eapply Qlt_trans; eassumption.
      + apply gated_rejects. left.
        assert ((top_k s (length (currentLayerNeurons ns j)) <= 0)%Z); [|lia].
        unfold top_k, Math_ceil. change 0%Z with (Qceiling 0).
        apply Qceiling_resp_le.
        rewrite <- (Qmult_0_r (of_nat (length (currentLayerNeurons ns j)))).
        apply Qmult_le_l_compat; [apply one_minus_nonpos, Hs|].
        apply of_nat_nonneg. }
  split.
  - intros p n Hp Hn. apply list_elem_of_lookup in Hp as [j Hj].
    destruct (publications_lookup _ _ _ _ _ Htext Hidle Hj) as (_ & Hns & _).
    rewrite Hns in Hn. apply (H j n Hn).
  - rewrite (run_eq toLowerCase text c Htext Hidle).
    cbn [fst stats final_stats stat_active]. fold fs s.
    assert (E : List.filter Neuron.active (forward fs s 6 (reset_state c)).1.1
                = []); [|rewrite E; reflexivity].
    specialize (H 6).
    induction ((forward fs s 6 (reset_state c)).1.1) as [|n l IHl];
      [reflexivity|].
    simpl. rewrite (H n ltac:(left)). apply IHl. intros m Hm. apply H. right.
    exact Hm.
Qed.

Lemma full_sparsity_is_silent_witness :
  stat_active
    (stats (run latin_toLowerCase sample_text
              (with_sparsity 1 sample_component)).1) = 0.
Proof.
  refine (proj2 (full_sparsity_is_silent latin_toLowerCase sample_text
                   (with_sparsity 1 sample_component) _ _ _ _)).
  - discriminate.
  - reflexivity.
  - intros n. vm_compute draws. apply sample_source_unit_interval.
  - discriminate.
Defined.

(** X10: at sparsity level 0 (or below) the gate keeps the whole layer: in the
    snapshot of a layer above the input layer a unit is active exactly when
    its raw activation exceeds the floor 0.1. *)
Theorem zero_sparsity_keeps_the_layer (toLowerCase : jsstring -> jsstring)
    (text : jsstring) (c : Component) :
  text <> [] -> isProcessing c = false -> (sparsityLevel c <= 0)%Q ->
  forall j prev p i n,
    snapshots (run toLowerCase text c).2 !! j = Some prev ->
    snapshots (run toLowerCase text c).2 !! (S j) = Some p ->
    Neuron.layer n = S j ->
    (weighted_sums (currentLayerNeurons (shown_neurons prev) (S j))
       (shown_neurons prev, shown_connections prev)).1 !! i = Some n ->
    exists n', shown_neurons p !! i = Some n'
               /\ Neuron.active n' = gt (Neuron.activation n) (1#10).
Proof.
  intros Htext Hidle Hs j prev p i n Hprev Hp Hl Hn.
  apply (snapshots_lookup _ _ _ _ _ Htext Hidle) in Hprev as [_ ->].
  apply (snapshots_lookup _ _ _ _ _ Htext Hidle) in Hp as [_ ->].
  set (fs := tokenize toLowerCase text) in *. set (s := sparsityLevel c) in *.
  unfold snapshot_of in *. cbn [shown_neurons shown_connections] in *.
  destruct (hidden_snapshot fs s (reset_state c) j (reset_state_fresh c))
    as (Hraw & _ & _ & Hin & _ & _ & _).
  set (prev := forward fs s (S j) (reset_state c)) in *.
  set (current := currentLayerNeurons prev.1.1 (S j)) in *.
  set (raw := (weighted_sums current (prev.1.1, prev.1.2)).1) in *.
  assert (Hcur : i ∈ current).
  { rewrite Hraw, lookup_map in Hn.
    destruct (prev.1.1 !! i) as [m|] eqn:Hm; [|discriminate].
    injection Hn as <-. rewrite summed_same_layer in Hl.
    apply elem_of_currentLayerNeurons. eauto. }
  pose proof (ranking_Permutation raw current) as Hperm.
  rewrite <- Hperm in Hcur. apply list_elem_of_lookup in Hcur as [idx Hidx].
  eexists. split; [apply (Hin idx i n Hidx Hn)|].
  unfold gated.
  assert (Hk : (Z.of_nat idx < top_k s (length current))%Z).
  { apply lookup_lt_Some in Hidx. rewrite (Permutation_length Hperm) in Hidx.
    assert ((Z.of_nat (length current) <= top_k s (length current))%Z); [|lia].
    unfold top_k, Math_ceil.
    rewrite <- (Qceiling_Z (Z.of_nat (length current))) at 1.
    apply Qceiling_resp_le. fold (of_nat (length current)).
    rewrite <- (Qmult_1_r (of_nat (length current))) at 1.
    apply Qmult_le_l_compat; [|apply of_nat_nonneg].
    destruct s as [sn sd]. unfold Qle, Qminus, Qplus, Qopp in *. simpl in *.
    lia. }
  apply Z.ltb_lt in Hk. rewrite Hk. cbn [andb].
  destruct (gt (Neuron.activation n) (1#10)); reflexivity.
Qed.

Lemma zero_sparsity_keeps_the_layer_witness :
  exists n',
    shown_neurons
      (snapshot_of (tokenize latin_toLowerCase sample_text) 0
         (reset_state (with_sparsity 0 sample_component)) 1) !! 2 = Some n'
    /\ Neuron.active n'
       = gt (Neuron.activation
               (nth 2 (weighted_sums
                         (currentLayerNeurons
                            (shown_neurons
                               (snapshot_of (tokenize latin_toLowerCase sample_text) 0
                                  (reset_state (with_sparsity 0 sample_component)) 0))
                            1)
                         (shown_neurons
                            (snapshot_of (tokenize latin_toLowerCase sample_text) 0
                               (reset_state (with_sparsity 0 sample_component)) 0),
                          shown_connections
                            (snapshot_of (tokenize latin_toLowerCase sample_text) 0
                               (reset_state (with_sparsity 0 sample_component)) 0))).1
                  (Neuron.mk "" 0 0 false 0 0)))
            (1#10).
Proof.
  refine (zero_sparsity_keeps_the_layer latin_toLowerCase sample_text
            (with_sparsity 0 sample_component) _ _ _ 0
            (snapshot_of (tokenize latin_toLowerCase sample_text) 0
               (reset_state (with_sparsity 0 sample_component)) 0)
            (snapshot_of (tokenize latin_toLowerCase sample_text) 0
               (reset_state (with_sparsity 0 sample_component)) 1)
            2 _ _ _ _ _).
  - discriminate.
  - reflexivity.
  - discriminate.
  - vm_compute. reflexivity.
  - vm_compute. reflexivity.
  - vm_compute. reflexivity.
  - vm_compute. reflexivity.
Defined.

Lemma filter_none {A : Type} (f : A -> bool) (l : list A) :
  (forall a, a ∈ l -> f a = false) -> List.filter f l = [].
Proof.
  induction l as [|a l IH]; intros H; [reflexivity|]. simpl.
  rewrite (H a ltac:(left)). apply IH. intros b Hb. apply H. right. exact Hb.
Qed.

(** X11: over a well-formed topology, silence propagates: if no unit of layer
    [j] is active in the snapshot of layer [j], then no unit of layer [j] or
    of a deeper layer is active in that snapshot or in any later one. *)
Theorem silence_propagates (toLowerCase : jsstring -> jsstring)
    (text : jsstring) (c : Component) :
  well_formed (neurons c) (connections c) = true ->
  text <> [] -> isProcessing c = false ->
  forall j p,
    snapshots (run toLowerCase text c).2 !! j = Some p ->
    (forall n, n ∈ shown_neurons p -> Neuron.layer n = j ->
               Neuron.active n = false) ->
    forall j' p' n,
      j <= j' -> snapshots (run toLowerCase text c).2 !! j' = Some p' ->
      n ∈ shown_neurons p' -> j <= Neuron.layer n ->
      Neuron.active n = false.
Proof.
  intros Hwf Htext Hidle j p Hp Hsilent j' p' n Hle Hp' Hn Hl.
  apply (snapshots_lookup _ _ _ _ _ Htext Hidle) in Hp as [_ ->].
  apply (snapshots_lookup _ _ _ _ _ Htext Hidle) in Hp' as [_ ->].
  set (fs := tokenize toLowerCase text) in *. set (s := sparsityLevel c) in *.
  unfold snapshot_of in *. cbn [shown_neurons] in *.
  revert n Hn Hl. replace j' with ((j' - j) + j) by lia.
  generalize (j' - j) as d. clear Hle j'. intros d.
  induction d as [|d IH]; intros n' Hn' Hl.
  - cbn [Nat.add] in Hn'.
    destruct (Nat.eq_dec (Neuron.layer n') j) as [E|E]; [apply Hsilent; assumption|].
    apply (forward_fresh fs s (reset_state c) (S j) (reset_state_fresh c) n' Hn').
    lia.
  - cbn [Nat.add] in Hn'.
    change (forward fs s (S (S (d + j))) (reset_state c))
      with (layer_step fs s (S (d + j)) (forward fs s (S (d + j)) (reset_state c)))
      in Hn'.
    pose proof (forward_fresh fs s (reset_state c) (S (d + j))
                  (reset_state_fresh c)) as Hfresh.
    pose proof (forward_distinct fs s c (S (d + j)) Hwf) as Hnd.
    pose proof (fun e => forward_wired fs s c (S (d + j)) (S (d + j)) e Hwf)
      as Hwired.
    cbn [Nat.add] in IH.
    destruct (forward fs s (S (d + j)) (reset_state c)) as [[ns cs] g].
    cbn [fst snd] in *.
    apply list_elem_of_lookup in Hn' as [i Hi].
    destruct (layer_step_cases fs s (S (d + j)) ns cs g i n' Hfresh Hi)
      as (n & Hn & [[_ ->] | [(_ & Hz & _) | (Hlay & _ & idx & _ & ->)]]).
    + apply IH; [apply list_elem_of_lookup; eauto | exact Hl].
    + discriminate.
    + apply gated_rejects. right. unfold summed, in_layer.
      rewrite Hlay, Nat.eqb_refl. cbn [Neuron.activation Neuron.set_activation].
      assert (E : weighted_sum ns cs (Neuron.id n) = 0%Q);
        [|rewrite E; discriminate].
      unfold weighted_sum. rewrite filter_none; [reflexivity|].
      intros e He.
      destruct (incoming (Neuron.id n) e) eqn:Einc; [|reflexivity]. cbn [andb].
      specialize (Hwired e He). unfold wired in Hwired.
      unfold source_active.
      destruct (find_neuron ns (Connection.from e)) as [src|] eqn:Es;
        [|reflexivity].
      destruct (find_neuron ns (Connection.to e)) as [tgt|] eqn:Et;
        [|discriminate].
      apply Nat.eqb_eq in Hwired.
      apply find_neuron_Some in Es as [Hsrc _].
      apply find_neuron_Some in Et as [Htgt Hid].
      apply String.eqb_eq in Einc.
      assert (tgt = n).
      { apply (unique_by_id ns); [assumption | assumption | | congruence].
        apply list_elem_of_lookup. eauto. }
      subst tgt. apply IH; [exact Hsrc | lia].
Qed.

Lemma silence_propagates_witness :
  Neuron.active
    (nth 5 (shown_neurons
              (snapshot_of (tokenize latin_toLowerCase sample_text) 1
                 (reset_state (with_sparsity 1 sample_component)) 3))
       (Neuron.mk "" 0 0 false 0 0)) = false.
Proof.
  refine (silence_propagates latin_toLowerCase sample_text
            (with_sparsity 1 sample_component) _ _ _ 0
            (snapshot_of (tokenize latin_toLowerCase sample_text) 1
               (reset_state (with_sparsity 1 sample_component)) 0) _ _
            3 (snapshot_of (tokenize latin_toLowerCase sample_text) 1
                 (reset_state (with_sparsity 1 sample_component)) 3) _ _ _ _ _).
  - vm_compute. reflexivity.
  - discriminate.
  - reflexivity.
  - vm_compute. reflexivity.
  - intros n Hn _. vm_compute in Hn.
    repeat (apply elem_of_cons in Hn as [-> | Hn]; [reflexivity|]).
    apply elem_of_nil in Hn. contradiction.
  - apply Nat.le_0_l.
  - vm_compute. reflexivity.
  - vm_compute. do 5 right. left.
  - apply Nat.le_0_l.
Defined.

(** ** Ranking and statistics *)

Lemma refs_where_ascending {A : Type} (p : A -> bool) (l : list A) :
  StronglySorted lt (refs_where p l).
Proof.
  induction l as [|a l IH]; [constructor|]. rewrite refs_where_cons.
  assert (Hs : StronglySorted lt (map S (refs_where p l))).
  { induction IH as [|i r _ IHr Hi]; simpl; constructor; [exact IHr|].
    apply Forall_forall. intros j Hj. apply in_map_iff in Hj as (j0 & <- & Hj0).
    rewrite Forall_forall in Hi. specialize (Hi j0 Hj0). lia. }
  destruct (p a); [|exact Hs]. simpl. constructor; [exact Hs|].
  apply Forall_forall. intros j Hj. apply in_map_iff in Hj as (j0 & <- & _). lia.
Qed.

Lemma insert_sorted_stable (ns : list Neuron.t) (a : nat) (l : list nat) :
  StronglySorted (outranks ns) l -> Forall (lt a) l ->
  StronglySorted (outranks ns) (insert_sorted (by_activation ns) a l tt).1.
Proof.
  induction 1 as [|b l Hl IH Hb]; intros Ha; simpl.
  - constructor; constructor.
  - inversion Ha as [|b0 l0 Hab Ha']; subst b0 l0. clear Ha. rename Ha' into Ha.
    unfold by_activation at 1. cbn [fst snd].
    destruct (Qle_bool _ 0) eqn:E.
    + simpl. assert (Hle : (activation_of ns b <= activation_of ns a)%Q).
      { apply Qle_bool_iff in E.
        apply (Qplus_le_l _ _ (- activation_of ns a)).
        rewrite Qplus_opp_r. exact E. }
      constructor; [constructor; assumption|].
      assert (Hfirst : outranks ns a b).
      { apply Qle_lteq in Hle as [Hlt|Heq]; [left; exact Hlt | right; auto]. }
      constructor; [exact Hfirst|].
      rewrite Forall_forall in Hb, Ha. apply Forall_forall. intros x Hx.
      specialize (Hb x Hx). specialize (Ha x Hx).
      destruct Hb as [Hlt | [Heq _]].
      * left. eapply Qlt_le_trans; eassumption.
      * apply Qle_lteq in Hle as [Hlt|Heq'].
        -- left. rewrite Heq. exact Hlt.
        -- right. split; [rewrite Heq; exact Heq' | exact Ha].
    + pose proof (insert_sorted_Permutation (by_activation ns) a l tt) as Hp.
      specialize (IH Ha). fold (by_activation ns).
      destruct (insert_sorted (by_activation ns) a l tt) as [r u].
      cbn [fst snd] in *.
      constructor; [exact IH|]. rewrite Hp. constructor; [|exact Hb].
      left. apply Qnot_le_lt. intros Hle.
      assert (Qle_bool (activation_of ns b - activation_of ns a) 0 = true)
        as E'; [|congruence].
      apply Qle_bool_iff. apply (Qplus_le_l _ _ (activation_of ns a)).
      ring_simplify. exact Hle.
Qed.

(** X12: the ranking is the stable one: units are listed by decreasing
    activation, and units with equal activation in the order of the array
    (the order of creation within the layer). *)
Theorem ranking_is_stable (ns : list Neuron.t) (layerIdx : nat) :
  StronglySorted (outranks ns)
                 (ranking ns (currentLayerNeurons ns layerIdx))
  /\ ranking ns (currentLayerNeurons ns layerIdx)
     ≡ₚ currentLayerNeurons ns layerIdx.
Proof.
  split; [|apply ranking_Permutation].
  unfold currentLayerNeurons.
  pose proof (refs_where_ascending (in_layer layerIdx) ns) as Hasc.
  unfold ranking.
  induction Hasc as [|a l _ IH Ha]; simpl; [constructor|].
  pose proof (Array_sort_Permutation (by_activation ns) l tt) as Hp.
  destruct (Array_sort (by_activation ns) l tt) as [sorted []]. simpl in *.
  apply insert_sorted_stable; [exact IH|]. rewrite Hp. exact Ha.
Qed.

Lemma filter_length_le {A : Type} (f : A -> bool) (l : list A) :
  length (List.filter f l) <= length l.
Proof.
  induction l as [|a l IH]; simpl; [lia|]. destruct (f a); simpl; lia.
Qed.

Lemma percentage_in_range (a t : nat) :
  a <= t -> 0 < t ->
  (0 <= Math_round ((1 - of_nat a / of_nat t) * 100))%Z
  /\ (Math_round ((1 - of_nat a / of_nat t) * 100) <= 100)%Z.
Proof.
  intros Hle Ht. unfold Math_round.
  assert (H0 : (0 <= of_nat a / of_nat t)%Q).
  { apply Qle_shift_div_l; [unfold of_nat, Qlt; simpl; lia|].
    rewrite Qmult_0_l. apply of_nat_nonneg. }
  assert (H1 : (of_nat a / of_nat t <= 1)%Q).
  { apply Qle_shift_div_r; [unfold of_nat, Qlt; simpl; lia|].
    rewrite Qmult_1_l. unfold of_nat, Qle. simpl. lia. }
  set (q := (of_nat a / of_nat t)%Q) in *. split.
  - change 0%Z with (Qfloor (1#2)). apply Qfloor_resp_le.
    rewrite <- (Qplus_0_l (1#2)) at 1. apply Qplus_le_l.
    apply Qmult_le_0_compat; [|discriminate].
    destruct q as [qn qd]. unfold Qle, Qminus, Qplus, Qopp in *. simpl in *. lia.
  - change 100%Z with (Qfloor (100 + (1#2))). apply Qfloor_resp_le.
    apply Qplus_le_l.
    rewrite <- (Qmult_1_l 100) at 2. apply Qmult_le_compat_r; [|discriminate].
    apply one_minus_le, H0.
Qed.

(** X13: when a run ends, the statistics describe its last snapshot: the total
    is the number of units, the active count is the number of units whose
    flag is set there (at most the total), and the sparsity shown is a
    percentage between 0 and 100. *)
Theorem final_statistics (toLowerCase : jsstring -> jsstring)
    (text : jsstring) (c : Component) :
  text <> [] -> isProcessing c = false -> neurons c <> [] ->
  let st := stats (run toLowerCase text c).1 in
  stat_total st = length (neurons c)
  /\ (forall p, snapshots (run toLowerCase text c).2 !! 5 = Some p ->
        stat_active st = length (List.filter Neuron.active (shown_neurons p)))
  /\ stat_active st <= stat_total st
  /\ stat_sparsity st
     = Math_round ((1 - of_nat (stat_active st) / of_nat (stat_total st)) * 100)
  /\ (0 <= stat_sparsity st)%Z /\ (stat_sparsity st <= 100)%Z.
Proof.
  intros Htext Hidle Hne st. subst st.
  set (fs := tokenize toLowerCase text). set (s := sparsityLevel c).
  assert (Hlen : length (forward fs s 6 (reset_state c)).1.1 = length (neurons c)).
  { pose proof (forward_same_unit fs s (reset_state c) 6 (reset_state_fresh c))
      as H. apply Forall2_length in H. rewrite <- H. simpl. apply length_map. }
  assert (Hpos : 0 < length (neurons c))
    by (destruct (neurons c); [contradiction | simpl; lia]).
  split.
  { rewrite (run_eq toLowerCase text c Htext Hidle). exact Hlen. }
  split.
  { intros p Hp.
    apply (snapshots_lookup _ _ _ _ _ Htext Hidle) in Hp as [_ ->].
    rewrite (run_eq toLowerCase text c Htext Hidle). reflexivity. }
  rewrite (run_eq toLowerCase text c Htext Hidle).
  cbn [fst stats final_stats stat_active stat_total stat_sparsity]. fold fs s.
  pose proof (filter_length_le Neuron.active (forward fs s 6 (reset_state c)).1.1)
    as Hle.
  split; [exact Hle|]. split; [reflexivity|].
  apply percentage_in_range; [exact Hle | rewrite Hlen; exact Hpos].
Qed.

Lemma final_statistics_witness :
  stat_total (stats (run latin_toLowerCase sample_text sample_component).1)
  = length (neurons sample_component).
Proof.
  refine (proj1 (final_statistics latin_toLowerCase sample_text
                   sample_component _ _ _)).
  - discriminate.
  - reflexivity.
  - vm_compute. discriminate.
Defined.

(** ** The drawing *)

Lemma forEach_from_log {A Op : Type} (body : A -> nat -> list Op -> list Op)
    (f : A -> list Op) :
  (forall a i s, body a i s = s ++ f a) ->
  forall l idx s, forEach_from body idx l s = s ++ concat (map f l).
Proof.
  intros Hb. induction l as [|a l IH]; intros idx s; simpl.
  - rewrite app_nil_r. reflexivity.
  - rewrite IH, Hb, <- app_assoc. reflexivity.
Qed.

Lemma forEach_from_log_idx {A Op : Type}
    (body : A -> nat -> list Op -> list Op) :
  (forall a i s, body a i s = s ++ body a i []) ->
  forall l idx s, forEach_from body idx l s = s ++ forEach_from body idx l [].
Proof.
  intros Hb. induction l as [|a l IH]; intros idx s; simpl.
  - rewrite app_nil_r. reflexivity.
  - rewrite IH, (IH (S idx) (body a idx [])), (Hb a idx s), <- app_assoc.
    reflexivity.
Qed.

Lemma draw_connection_eq (ns : list Neuron.t) (conn : Connection.t) (idx : nat)
    (ctx : list CanvasOp) :
  draw_connection ns conn idx ctx = ctx ++ segment ns conn.
Proof.
  unfold segment, draw_connection.
  destruct (find_neuron ns (Connection.from conn));
    [|rewrite app_nil_r; reflexivity].
  destruct (find_neuron ns (Connection.to conn));
    [reflexivity | rewrite app_nil_r; reflexivity].
Qed.

Lemma draw_neuron_eq (n : Neuron.t) (idx : nat) (ctx : list CanvasOp) :
  draw_neuron n idx ctx = ctx ++ disc n.
Proof. reflexivity. Qed.

(** The drawing, part by part. *)
Lemma draw_eq (cv : Canvas) (ns : list Neuron.t) (cs : list Connection.t) :
  context2d cv = true ->
  draw (Some cv) ns cs
  = [set_fillStyle (css "#0a0a0a");
     fillRect 0 0 (canvas_width cv) (canvas_height cv)]
    ++ concat (map (segment ns) cs)
    ++ concat (map disc ns)
    ++ [set_fillStyle (css "#888"); set_font "12px monospace"]
    ++ labels cv.
Proof.
  intros Hctx. unfold draw. rewrite Hctx. cbn [negb]. unfold forEach at 1.
  rewrite (forEach_from_log_idx (draw_label cv)) by reflexivity.
  fold (forEach (draw_label cv) layers []). fold (labels cv).
  unfold forEach.
  rewrite (forEach_from_log draw_neuron disc draw_neuron_eq).
  rewrite (forEach_from_log (draw_connection ns) (segment ns)
             (draw_connection_eq ns)).
  rewrite <- !app_assoc. reflexivity.
Qed.

Lemma segment_wired (ns : list Neuron.t) (k : Connection.t) :
  wired ns k = true ->
  exists s t,
    find_neuron ns (Connection.from k) = Some s
    /\ find_neuron ns (Connection.to k) = Some t
    /\ Neuron.layer t = S (Neuron.layer s)
    /\ segment ns k
       = [beginPath;
          moveTo (Neuron.x s) (Neuron.y s);
          lineTo (Neuron.x t) (Neuron.y t);
          set_strokeStyle
            (if Connection.active k
             then rgba 0 255 150 (Math_abs (Connection.weight k) * (6#10))%Q
             else rgba 60 60 70 (15#100));
          set_lineWidth (if Connection.active k then 2 else 1#2)%Q;
          stroke].
Proof.
  unfold wired, segment, draw_connection. intros H.
  destruct (find_neuron ns (Connection.from k)) as [s|]; [|discriminate].
  destruct (find_neuron ns (Connection.to k)) as [t|]; [|discriminate].
  exists s, t. apply Nat.eqb_eq in H.
  repeat split; [exact H|]. destruct (Connection.active k); reflexivity.
Qed.

Lemma count_app (p : CanvasOp -> bool) (l1 l2 : list CanvasOp) :
  count p (l1 ++ l2) = count p l1 + count p l2.
Proof. unfold count. rewrite List.filter_app, length_app. reflexivity. Qed.

Lemma count_concat {A : Type} (p : CanvasOp -> bool) (f : A -> list CanvasOp)
    (n : nat) (l : list A) :
  (forall a, a ∈ l -> count p (f a) = n) ->
  count p (concat (map f l)) = n * length l.
Proof.
  induction l as [|a l IH]; intros H; simpl; [rewrite Nat.mul_0_r; reflexivity|].
  rewrite count_app, IH, (H a) by (intros; try apply H; constructor; assumption).
  lia.
Qed.

(** X14: over a well-formed topology the effect strokes one path per connection
    and fills one disc per unit: no connection is skipped, and nothing else
    is stroked or filled. *)
Theorem draw_paints_every_part (cv : Canvas) (ns : list Neuron.t)
    (cs : list Connection.t) :
  context2d cv = true -> well_formed ns cs = true ->
  count is_stroke (draw (Some cv) ns cs) = length cs
  /\ count is_fill (draw (Some cv) ns cs) = length ns.
Proof.
  intros Hctx Hwf. apply andb_true_iff in Hwf as [_ Hw].
  rewrite forallb_forall in Hw. rewrite (draw_eq cv ns cs Hctx).
  rewrite !count_app.
  rewrite (count_concat is_stroke (segment ns) 1 cs),
          (count_concat is_stroke disc 0 ns),
          (count_concat is_fill (segment ns) 0 cs),
          (count_concat is_fill disc 1 ns).
  - split; cbn; lia.
  - intros n _. unfold disc, draw_neuron. destruct (Neuron.active n); reflexivity.
  - intros k Hk. apply list_elem_of_In, Hw in Hk.
    destruct (segment_wired ns k Hk) as (s & t & _ & _ & _ & ->). reflexivity.
  - intros n _. unfold disc, draw_neuron. destruct (Neuron.active n); reflexivity.
  - intros k Hk. apply list_elem_of_In, Hw in Hk.
    destruct (segment_wired ns k Hk) as (s & t & _ & _ & _ & ->). reflexivity.
Qed.

Lemma draw_paints_every_part_witness :
  count is_stroke
        (draw (Some page_canvas) (neurons sample_component)
              (connections sample_component))
  = length (connections sample_component).
Proof.
  refine (proj1 (draw_paints_every_part page_canvas (neurons sample_component)
                   (connections sample_component) _ _)).
  - reflexivity.
  - vm_compute. reflexivity.
Defined.

(** X15: over a well-formed topology every connection is drawn as one path, from
    the place of the unit it leaves to the place of the unit it enters, which
    lies one layer further; the stroke is green, as opaque as 0.6 times the
    size of the weight and 2 wide if the connection is active, grey and 0.5
    wide otherwise. *)
Theorem connection_is_drawn_between_its_ends (cv : Canvas)
    (ns : list Neuron.t) (cs : list Connection.t) (k : Connection.t) :
  context2d cv = true -> well_formed ns cs = true -> k ∈ cs ->
  exists s t pre post,
    s ∈ ns /\ t ∈ ns
    /\ Neuron.id s = Connection.from k /\ Neuron.id t = Connection.to k
    /\ Neuron.layer t = S (Neuron.layer s)
    /\ draw (Some cv) ns cs
       = pre
         ++ [beginPath;
             moveTo (Neuron.x s) (Neuron.y s);
             lineTo (Neuron.x t) (Neuron.y t);
             set_strokeStyle
               (if Connection.active k
                then rgba 0 255 150 (Math_abs (Connection.weight k) * (6#10))%Q
                else rgba 60 60 70 (15#100));
             set_lineWidth (if Connection.active k then 2 else 1#2)%Q;
             stroke]
         ++ post.
Proof.
  intros Hctx Hwf Hk. apply andb_true_iff in Hwf as [_ Hw].
  rewrite forallb_forall in Hw.
  pose proof (Hw k (proj1 (list_elem_of_In _ _) Hk)) as Hwk.
  destruct (segment_wired ns k Hwk) as (s & t & Hs & Ht & Hl & Hseg).
  apply find_neuron_Some in Hs as [Hs Hids].
  apply find_neuron_Some in Ht as [Ht Hidt].
  apply list_elem_of_split in Hk as (l1 & l2 & ->).
  exists s, t.
  exists ([set_fillStyle (css "#0a0a0a");
           fillRect 0 0 (canvas_width cv) (canvas_height cv)]
          ++ concat (map (segment ns) l1)).
  exists (concat (map (segment ns) l2)
          ++ concat (map disc ns)
          ++ [set_fillStyle (css "#888"); set_font "12px monospace"]
          ++ labels cv).
  repeat (split; [assumption|]).
  rewrite (draw_eq cv ns _ Hctx), map_app, concat_app. cbn [map concat].
  rewrite Hseg, <- !app_assoc. reflexivity.
Qed.

Lemma connection_is_drawn_between_its_ends_witness :
  exists s t,
    s ∈ neurons sample_component /\ t ∈ neurons sample_component
    /\ Neuron.layer t = S (Neuron.layer s).
Proof.
  destruct (connection_is_drawn_between_its_ends page_canvas
              (neurons sample_component) (connections sample_component)
              (nth 0 (connections sample_component)
                   (Connection.mk "" "" 0 false)))
    as (s & t & _ & _ & Hs & Ht & _ & _ & Hl & _).
  - reflexivity.
  - vm_compute. reflexivity.
  - vm_compute. constructor.
  - exists s, t. split; [exact Hs|]. split; [exact Ht | exact Hl].
Defined.

Lemma elem_of_concat_map {A B : Type} (f : A -> list B) (l : list A) (b : B) :
  b ∈ concat (map f l) -> exists a, a ∈ l /\ b ∈ f a.
Proof.
  induction l as [|a l IH]; simpl; intros H.
  - apply elem_of_nil in H. contradiction.
  - apply elem_of_app in H as [H|H].
    + exists a. split; [constructor | exact H].
    + destruct (IH H) as (a' & Ha' & Hb). exists a'.
      split; [constructor; exact Ha' | exact Hb].
Qed.

Lemma stroke_alpha (w : Q) :
  (-1 <= w)%Q -> (w <= 1)%Q ->
  (0 <= Math_abs w * (6#10))%Q /\ (Math_abs w * (6#10) <= 1)%Q.
Proof.
  intros Hl Hu. unfold Math_abs. split.
  - apply Qmult_le_0_compat; [apply Qabs_nonneg | discriminate].
  - apply Qle_trans with (1 * (6#10))%Q; [|discriminate].
    apply Qmult_le_compat_r; [|discriminate].
    apply Qabs_Qle_condition. split; assumption.
Qed.

Lemma draw_alpha (cv : Canvas) (ns : list Neuron.t) (cs : list Connection.t)
    (op : CanvasOp) (a : Q) :
  clamped ns -> bounded_weights cs ->
  op ∈ draw (Some cv) ns cs -> alpha_of op = Some a ->
  (0 <= a)%Q /\ (a <= 1)%Q.
Proof.
  intros Hcl Hbw Hop Ha.
  destruct (context2d cv) eqn:Hctx.
  2:{ unfold draw in Hop. rewrite Hctx in Hop. apply elem_of_nil in Hop.
      contradiction. }
  rewrite (draw_eq cv ns cs Hctx) in Hop.
  remember (labels cv) as ls eqn:Els.
  apply elem_of_app in Hop as [Hop|Hop];
    [|apply elem_of_app in Hop as [Hop|Hop];
      [|apply elem_of_app in Hop as [Hop|Hop];
        [|apply elem_of_app in Hop as [Hop|Hop]]]]; subst ls.
  - repeat (apply elem_of_cons in Hop as [-> | Hop]; [discriminate Ha|]).
    apply elem_of_nil in Hop. contradiction.
  - apply elem_of_concat_map in Hop as (k & Hk & Hop).
    unfold segment, draw_connection in Hop.
    destruct (find_neuron ns (Connection.from k));
      [|apply elem_of_nil in Hop; contradiction].
    destruct (find_neuron ns (Connection.to k));
      [|apply elem_of_nil in Hop; contradiction].
    destruct (Hbw k Hk) as [Hl Hu].
    destruct (Connection.active k); cbn [app] in Hop;
      repeat (apply elem_of_cons in Hop as [-> | Hop];
              [first [discriminate Ha
                     | injection Ha as <-;
                       first [apply stroke_alpha; assumption
                             | split; discriminate]]|]);
      apply elem_of_nil in Hop; contradiction.
  - apply elem_of_concat_map in Hop as (n & Hn & Hop).
    unfold disc, draw_neuron in Hop.
    destruct (Neuron.active n) eqn:Hact; cbn [app] in Hop;
      repeat (apply elem_of_cons in Hop as [-> | Hop];
              [first [discriminate Ha
                     | injection Ha as <-;
                       first [apply (Hcl n Hn Hact) | split; discriminate]]|]);
      apply elem_of_nil in Hop; contradiction.
  - repeat (apply elem_of_cons in Hop as [-> | Hop]; [discriminate Ha|]).
    apply elem_of_nil in Hop. contradiction.
  - unfold labels, forEach in Hop. cbn [forEach_from layers draw_label app] in Hop.
    repeat (apply elem_of_cons in Hop as [-> | Hop]; [discriminate Ha|]).
    apply elem_of_nil in Hop. contradiction.
Qed.

Lemma built_weights_bounded (ls : list nat) (g : RandomSource) :
  unit_interval g -> bounded_weights (build ls g).1.2.
Proof.
  intros Hg k Hk. rewrite build_eq in Hk. cbn [fst snd] in Hk.
  set (sp := (width / (of_nat (length ls) + 1))%Q) in *.
  destruct (create_connections_spec (create_neurons sp 0 ls) (length ls) ls
              (create_neurons_distinct sp ls 0) 0 g) as (Hcs & _).
  destruct (Hcs k Hk) as (s & t & _ & _ & _ & _ & _ & _ & _ & (_ & n & Hw)).
  rewrite Hw. apply weight_in_range, Hg.
Qed.

(** X16: whatever a run publishes is drawn with valid opacities: when the weights
    lie in [[-1, 1]], every [rgba] colour the effect sets for a published
    state has its alpha in [[0, 1]] (at most 0.6 on connections, the clamped
    activation on active units). *)
Theorem drawn_opacities_are_valid (toLowerCase : jsstring -> jsstring)
    (text : jsstring) (c : Component) (cv : Canvas) :
  text <> [] -> isProcessing c = false -> unit_interval (random c) ->
  bounded_weights (connections c) ->
  forall p op a,
    p ∈ (run toLowerCase text c).2 ->
    op ∈ draw (Some cv) (shown_neurons p) (shown_connections p) ->
    alpha_of op = Some a ->
    (0 <= a)%Q /\ (a <= 1)%Q.
Proof.
  intros Htext Hidle Hg Hbw p op a Hp Hop Ha.
  apply list_elem_of_lookup in Hp as [j Hj].
  destruct (publications_lookup toLowerCase text c j p Htext Hidle Hj)
    as (_ & Hns & Hcs).
  set (fs := tokenize toLowerCase text) in *.
  set (st0 := reset_state c) in *.
  assert (H0 : fresh_from 0 st0.1.1) by apply reset_state_fresh.
  apply (draw_alpha cv (shown_neurons p) (shown_connections p) op a);
    [| |exact Hop|exact Ha].
  - rewrite Hns.
    apply (forward_clamped fs (sparsityLevel c) st0 j H0 Hg).
  - rewrite Hcs. intros k Hk.
    apply list_elem_of_lookup in Hk as [i Hi].
    destruct (Forall2_lookup_r _ _ _ _ _
                (forward_same_wiring fs (sparsityLevel c) st0 j H0) Hi)
      as (k0 & Hk0 & (_ & _ & Hw)).
    simpl in Hk0. rewrite lookup_map in Hk0.
    destruct (connections c !! i) as [k00|] eqn:E; [|discriminate].
    injection Hk0 as <-. rewrite Hw.
    apply (Hbw k00). apply list_elem_of_lookup. eauto.
Qed.

Lemma drawn_opacities_are_valid_witness :
  (0 <= Math_abs (Connection.weight
                    (nth 0 (shown_connections (sample_snapshot 1))
                         (Connection.mk "" "" 0 false))) * (6#10))%Q
  /\ (Math_abs (Connection.weight
                  (nth 0 (shown_connections (sample_snapshot 1))
                       (Connection.mk "" "" 0 false))) * (6#10) <= 1)%Q.
Proof.
  refine (drawn_opacities_are_valid latin_toLowerCase sample_text
            sample_component page_canvas _ _ _ _ (sample_snapshot 1)
            (set_strokeStyle
               (rgba 0 255 150
                  (Math_abs (Connection.weight
                               (nth 0 (shown_connections (sample_snapshot 1))
                                    (Connection.mk "" "" 0 false)))
                   * (6#10))%Q)) _ _ _ _).
  - discriminate.
  - reflexivity.
  - intros n. vm_compute draws. apply sample_source_unit_interval.
  - exact (built_weights_bounded sample_layers sample_source
             sample_source_unit_interval).
  - vm_compute. right. right. left.
  - apply (list_elem_of_lookup_2 _ 5). vm_compute. reflexivity.
  - reflexivity.
Defined.








Lemma label_is_written (cv : Canvas) (idx : nat) (name : string) :
  layerNames !! idx = Some name ->
  fillText name
           (canvas_width cv / (of_nat (length layers) + 1) * (of_nat idx + 1)
            - 30)%Q 20
  ∈ labels cv.
Proof.
  intros H. unfold labels, forEach.
  cbn [forEach_from layers draw_label app].
  do 6 (destruct idx as [|idx];
        [injection H as <-; cbn [lookup list_lookup default from_option];
         repeat constructor|]).
  discriminate H.
Qed.

(** X18: the labels sit over the columns: for the topology the page builds and
    the canvas of the page, the name of each unit's layer is written 30 to
    the left of the unit's own abscissa, at height 20. *)
Theorem labels_sit_over_the_columns (g : RandomSource) (ns : list Neuron.t)
    (cs : list Connection.t) (n : Neuron.t) :
  n ∈ (build layers g).1.1 ->
  exists name,
    layerNames !! Neuron.layer n = Some name
    /\ fillText name (Neuron.x n - 30)%Q 20 ∈ draw (Some page_canvas) ns cs.
Proof.
  intros Hn. rewrite build_eq in Hn. cbn [fst] in Hn.
  apply elem_of_create_neurons in Hn as (k & size & i & Hk & _ & ->).
  cbn [Nat.add new_neuron Neuron.layer Neuron.x].
  assert (Hlt : k < length layerNames).
  { apply lookup_lt_Some in Hk. exact Hk. }
  destruct (layerNames !! k) as [name|] eqn:E;
    [|apply lookup_ge_None in E; lia].
  exists name. split; [reflexivity|].
  rewrite (draw_eq page_canvas ns cs eq_refl).
  do 4 (apply elem_of_app; right).
  apply (label_is_written page_canvas k name E).
Qed.

Lemma labels_sit_over_the_columns_witness :
  exists name,
    layerNames !! 0 = Some name
    /\ fillText name
         (Neuron.x (new_neuron (width / (of_nat (length layers) + 1)) 16 0 0)
          - 30)%Q 20
       ∈ draw (Some page_canvas) [] [].
Proof.
  refine (labels_sit_over_the_columns sample_source [] []
            (new_neuron (width / (of_nat (length layers) + 1)) 16 0 0) _).
  rewrite build_eq. cbn [fst]. unfold layers. cbn [create_neurons].
  apply elem_of_app. left. cbn [seq map]. constructor.
Defined.

(** ** The sparsity slider *)

Lemma round_percent (value : Z) :
  Math_round (inject_Z value / 100 * 100) = value.
Proof.
  unfold Math_round.
  rewrite (Qfloor_comp _ (inject_Z value + (1#2))) by (field; discriminate).
  unfold Qfloor, Qplus, inject_Z. cbn [Qnum Qden].
  symmetry. apply (Z.div_unique_pos _ _ value 1); lia.
Qed.

(** X19: moving the slider keeps the component usable: for every position the
    range input offers (0 to 100), the sparsity level becomes the position
    over 100, which lies in [[0, 1]]; the label shows the position back; the
    gate of a layer of [size] units then keeps between 0 and [size] units;
    nothing else of the component changes. *)
Theorem slider_keeps_sparsity_in_range (value : Z) (c : Component) :
  (0 <= value <= 100)%Z ->
  let c' := slider_onChange value c in
  (0 <= sparsityLevel c')%Q /\ (sparsityLevel c' <= 1)%Q
  /\ slider_label c' = value
  /\ (forall size,
        (0 <= top_k (sparsityLevel c') size)%Z
        /\ (top_k (sparsityLevel c') size <= Z.of_nat size)%Z)
  /\ c' = with_sparsity (sparsityLevel c') c.
Proof.
  intros [H0 H1] c'. subst c'. cbn [slider_onChange sparsityLevel].
  assert (Hlo : (0 <= inject_Z value / 100)%Q).
  { apply Qle_shift_div_l; [reflexivity|]. rewrite Qmult_0_l.
    unfold Qle, inject_Z. simpl. lia. }
  assert (Hhi : (inject_Z value / 100 <= 1)%Q).
  { apply Qle_shift_div_r; [reflexivity|]. rewrite Qmult_1_l.
    unfold Qle, inject_Z. simpl. lia. }
  split; [exact Hlo|]. split; [exact Hhi|].
  split; [apply round_percent|]. split; [|reflexivity].
  intros size. split; [apply top_k_nonneg, Hhi|].
  unfold top_k, Math_ceil. rewrite <- (Qceiling_Z (Z.of_nat size)).
  apply Qceiling_resp_le. fold (of_nat size).
  rewrite <- (Qmult_1_r (of_nat size)) at 2.
  apply Qmult_le_l_compat; [apply one_minus_le, Hlo | apply of_nat_nonneg].
Qed.

Lemma slider_keeps_sparsity_in_range_witness :
  slider_label (slider_onChange 85 sample_component) = 85%Z.
Proof.
  refine (proj1 (proj2 (proj2 (slider_keeps_sparsity_in_range 85
                                 sample_component _)))).
  lia.
Defined.
